(** * advanced-vector: [RawMemory<T>] and [Vector<T>] of [vector.h]

    A shallow embedding of the container of [src/advanced-vector/vector.h]
    and the properties its specification states about it.

    Memory.  A [RawMemory<T>] owns one allocation of [capacity_] element
    slots.  [RawMemory] cannot be copied (its copy operations are deleted), so
    an allocation has exactly one owner and the record carries the contents
    of the allocation it points to: [buffer_] is the array of slots, each
    either raw (no object) or holding a live [T].  A [T*] into the buffer is
    an offset from [GetAddress()].

    Elements.  [T] is a template parameter, so its special member functions
    are parameters of the development ([Elem]).  Each may throw.  Every call
    of a special member function made by the container is appended to a
    trace of events ([event]), which plays the part of the counters of an
    instrumented element type.

    Allocation.  [Allocate(n)] asks [operator new] for [n * sizeof(T)] bytes, a
    product computed in [size_t] (64 bits here), and [operator new] may throw
    [std::bad_alloc].  The size of [T] and the behaviour of [operator new] are
    parameters too ([sizeof_T], [operator_new]).  The block obtained holds as
    many slots as its bytes have room for; releasing it is not modelled.

    Control.  Every operation returns an [outcome]: normal return, an
    exception leaving the function, or undefined behaviour (reading or
    destroying a raw slot, constructing over a live one, leaving the
    allocation).  All three carry the memory the operation has touched. *)

From stdpp Require Import base option list numbers.

Set Default Proof Using "Type".

(** ** Events: the calls of [T]'s special member functions *)

Inductive special :=
  | DefaultCtor | ArgsCtor | CopyCtor | MoveCtor
  | CopyAssign | MoveAssign | Dtor.

(** Where the object of the call lives: in slot [i] of a buffer (the target
    of a construction or assignment, the object of a destruction), or in a
    local variable of the running function. *)
Inductive place := Slot (i : nat) | Temp.

Record event := Ev { ev_op : special; ev_at : place }.

Abbreviation trace := (list event).

Global Instance special_eq_dec : EqDecision special.
Proof. solve_decision. Defined.

(** Number of calls of the special member function [k] in a trace. *)
Definition calls (k : special) (tr : trace) : nat :=
  length (filter (λ e, ev_op e = k) tr).

(** ** The element type *)

(** The capabilities of [T] the container uses, and the allocation function
    the instantiation runs against.  [None] is a thrown exception.  Whether
    a call throws may depend on the operand and on the calls made so far.  A
    move returns the new object together with the state it leaves in its
    source.  A constructor or an assignment that throws leaves its operands
    as they were.  [operator_new bytes tr] tells whether [operator new(bytes)]
    returns a block of that many bytes ([true]) or throws [std::bad_alloc]. *)
Record Elem (T Args : Type) := {
  sizeof_T : positive;                             (* sizeof(T)      *)
  operator_new : N → trace → bool;                 (* operator new   *)
  is_nothrow_move_constructible : bool;
  is_copy_constructible : bool;
  construct_default : trace → option T;            (* T()            *)
  construct_args : Args → trace → option T;        (* T(args...)     *)
  construct_copy : T → trace → option T;           (* T(const T&)    *)
  construct_move : T → trace → option (T * T);     (* T(T&&)         *)
  assign_copy : T → T → trace → option T;          (* lhs = rhs      *)
  assign_move : T → T → trace → option (T * T);    (* lhs = move(rhs) *)
}.

Arguments sizeof_T {T Args} _.
Arguments operator_new {T Args} _ _ _.
Arguments is_nothrow_move_constructible {T Args} _.
Arguments is_copy_constructible {T Args} _.
Arguments construct_default {T Args} _ _.
Arguments construct_args {T Args} _ _ _.
Arguments construct_copy {T Args} _ _ _.
Arguments construct_move {T Args} _ _ _.
Arguments assign_copy {T Args} _ _ _ _.
Arguments assign_move {T Args} _ _ _ _.

(** ** Outcomes *)

Inductive outcome (S R : Type) :=
  | Ret (r : R) (s : S) (tr : trace)    (* returns r                     *)
  | Exc (s : S) (tr : trace)            (* an exception leaves the call  *)
  | UB (s : S) (tr : trace).            (* undefined behaviour reached   *)

Arguments Ret {S R} r s tr.
Arguments Exc {S R} s tr.
Arguments UB {S R} s tr.

(** The outcome is a normal return. *)
Definition returns {S R : Type} (o : outcome S R) : Prop :=
  match o with
  | Ret _ _ _ => True
  | _ => False
  end.

Section Container.

Context {T Args : Type} (E : Elem T Args).

(** ** Slots and buffers *)

(** A slot is raw memory ([None]) or holds a live object ([Some x]). *)
Abbreviation slot := (option T) (only parsing).
Abbreviation buf := (list (option T)) (only parsing).

(** The live object at offset [i], if the offset is inside the allocation
    and the slot holds one. *)
Definition live (b : buf) (i : nat) : option T := mjoin (b !! i).

(** Offset [i] is inside the allocation and the slot is raw. *)
Definition is_raw (b : buf) (i : nat) : bool :=
  match b !! i with
  | Some None => true
  | _ => false
  end.

(** ** Initialisers: the forms of [T(...)] in a placement new *)

Inductive init :=
  | ByDefault                (* T()               *)
  | ByArgs (a : Args)        (* T(args...)        *)
  | ByCopy (x : T)           (* T(const T&)       *)
  | ByMove (x : T).          (* T(T&&), from an object of the caller *)

Definition init_op (c : init) : special :=
  match c with
  | ByDefault => DefaultCtor
  | ByArgs _ => ArgsCtor
  | ByCopy _ => CopyCtor
  | ByMove _ => MoveCtor
  end.

Definition run_init (c : init) (tr : trace) : option T :=
  match c with
  | ByDefault => construct_default E tr
  | ByArgs a => construct_args E a tr
  | ByCopy x => construct_copy E x tr
  | ByMove x => fst <$> construct_move E x tr
  end.

(** [new (b + i) T(c)] *)
Definition placement_new (b : buf) (i : nat) (c : init) (tr : trace)
  : outcome buf unit :=
  if is_raw b i then
    match run_init c tr with
    | Some y => Ret tt (<[i := Some y]> b) (tr ++ [Ev (init_op c) (Slot i)])
    | None => Exc b (tr ++ [Ev (init_op c) (Slot i)])
    end
  else UB b tr.

(** [T tmp(c);] for a local variable. *)
Definition local_new (c : init) (tr : trace) : option T * trace :=
  (run_init c tr, tr ++ [Ev (init_op c) Temp]).

(** ** The algorithms of [<memory>] and [<algorithm>] the container calls *)

(** [std::destroy_n(b + first, n)]: runs the destructor of each of the [n]
    objects from [first] on, in order. *)
Fixpoint destroy_n (b : buf) (first n : nat) (tr : trace) : outcome buf unit :=
  match n with
  | 0 => Ret tt b tr
  | S n' =>
      match live b first with
      | Some _ =>
          destroy_n (<[first := None]> b) (S first) n' (tr ++ [Ev Dtor (Slot first)])
      | None => UB b tr
      end
  end.

(** How an object is transferred into raw memory. *)
Inductive xfer := Copying | Moving.

Definition xfer_op (m : xfer) : special :=
  match m with Copying => CopyCtor | Moving => MoveCtor end.

(** Constructs from the object [x]: the new object and what is left in the
    source. *)
Definition construct_from (m : xfer) (x : T) (tr : trace) : option (T * T) :=
  match m with
  | Copying => (λ y, (y, x)) <$> construct_copy E x tr
  | Moving => construct_move E x tr
  end.

(** The loop of [std::uninitialized_copy_n] / [std::uninitialized_move_n]:
    [for (; n > 0; ++first, ++cur, --n) ::new (cur) T(first[0])] resp.
    [T(std::move(first[0]))].  The state is the source buffer, the destination
    buffer and [cur]. *)
Fixpoint uninitialized_loop (m : xfer) (n : nat) (src : buf) (first : nat)
    (dst : buf) (cur : nat) (tr : trace) : outcome (buf * buf * nat) unit :=
  match n with
  | 0 => Ret tt (src, dst, cur) tr
  | S n' =>
      match live src first with
      | Some x =>
          if is_raw dst cur then
            match construct_from m x tr with
            | Some (y, x') =>
                uninitialized_loop m n' (<[first := Some x']> src) (S first)
                  (<[cur := Some y]> dst) (S cur)
                  (tr ++ [Ev (xfer_op m) (Slot cur)])
            | None => Exc (src, dst, cur) (tr ++ [Ev (xfer_op m) (Slot cur)])
            end
          else UB (src, dst, cur) tr
      | None => UB (src, dst, cur) tr
      end
  end.

(** The whole algorithm: when a construction throws, the objects constructed
    so far, [d_first, cur), are destroyed and the exception is rethrown. *)
Definition uninitialized_n (m : xfer) (src : buf) (first n : nat)
    (dst : buf) (d_first : nat) (tr : trace) : outcome (buf * buf) unit :=
  match uninitialized_loop m n src first dst d_first tr with
  | Ret _ (src', dst', _) tr' => Ret tt (src', dst') tr'
  | Exc (src', dst', cur) tr' =>
      match destroy_n dst' d_first (cur - d_first) tr' with
      | Ret _ dst'' tr'' => Exc (src', dst'') tr''
      | Exc dst'' tr'' => Exc (src', dst'') tr''
      | UB dst'' tr'' => UB (src', dst'') tr''
      end
  | UB (src', dst', _) tr' => UB (src', dst') tr'
  end.

(** [std::uninitialized_copy_n(src + first, n, dst + d_first)] *)
Definition uninitialized_copy_n := uninitialized_n Copying.

(** [std::uninitialized_move_n(src + first, n, dst + d_first)] *)
Definition uninitialized_move_n := uninitialized_n Moving.

(** The loop of [std::uninitialized_value_construct_n]. *)
Fixpoint value_construct_loop (n : nat) (b : buf) (cur : nat) (tr : trace)
  : outcome (buf * nat) unit :=
  match n with
  | 0 => Ret tt (b, cur) tr
  | S n' =>
      match placement_new b cur ByDefault tr with
      | Ret _ b' tr' => value_construct_loop n' b' (S cur) tr'
      | Exc b' tr' => Exc (b', cur) tr'
      | UB b' tr' => UB (b', cur) tr'
      end
  end.

(** [std::uninitialized_value_construct_n(b + first, n)] *)
Definition uninitialized_value_construct_n (b : buf) (first n : nat)
    (tr : trace) : outcome buf unit :=
  match value_construct_loop n b first tr with
  | Ret _ (b', _) tr' => Ret tt b' tr'
  | Exc (b', cur) tr' =>
      match destroy_n b' first (cur - first) tr' with
      | Ret _ b'' tr'' => Exc b'' tr''
      | o => o
      end
  | UB (b', _) tr' => UB b' tr'
  end.

(** [b[d] = std::move(b[s])], both objects in the same buffer. *)
Definition move_assign_within (b : buf) (s d : nat) (tr : trace)
  : outcome buf unit :=
  match live b s, live b d with
  | Some x, Some y =>
      match assign_move E y x tr with
      | Some (y', x') =>
          Ret tt (<[d := Some y']> (<[s := Some x']> b))
            (tr ++ [Ev MoveAssign (Slot d)])
      | None => Exc b (tr ++ [Ev MoveAssign (Slot d)])
      end
  | _, _ => UB b tr
  end.

(** The loop of [std::move(first, last, d_first)], [n = last - first]:
    [for (; first != last; ++first, ++d_first) d_first[0] = std::move(first[0])]. *)
Fixpoint move_loop (n : nat) (b : buf) (first d_first : nat) (tr : trace)
  : outcome buf unit :=
  match n with
  | 0 => Ret tt b tr
  | S n' =>
      match move_assign_within b first d_first tr with
      | Ret _ b' tr' => move_loop n' b' (S first) (S d_first) tr'
      | o => o
      end
  end.

(** [std::move(b + first, b + last, b + d_first)].  A range whose end lies
    before its start is not a range. *)
Definition std_move (b : buf) (first last d_first : nat) (tr : trace)
  : outcome buf unit :=
  if decide (first ≤ last) then move_loop (last - first) b first d_first tr
  else UB b tr.

(** The loop of [std::move_backward(first, last, d_last)], [n = last - first]:
    [while (first != last) { --d_last; --last; d_last[0] = std::move(last[0]); }]. *)
Fixpoint move_backward_loop (n : nat) (b : buf) (last d_last : nat)
    (tr : trace) : outcome buf unit :=
  match n with
  | 0 => Ret tt b tr
  | S n' =>
      match last, d_last with
      | S last', S d_last' =>
          match move_assign_within b last' d_last' tr with
          | Ret _ b' tr' => move_backward_loop n' b' last' d_last' tr'
          | o => o
          end
      | _, _ => UB b tr
      end
  end.

(** [std::move_backward(b + first, b + last, b + d_last)] *)
Definition std_move_backward (b : buf) (first last d_last : nat) (tr : trace)
  : outcome buf unit :=
  if decide (first ≤ last) then move_backward_loop (last - first) b last d_last tr
  else UB b tr.

(** [new (b + d) T(std::move(b[s]))], source and target in the same buffer. *)
Definition move_construct_within (b : buf) (s d : nat) (tr : trace)
  : outcome buf unit :=
  match live b s with
  | Some x =>
      if is_raw b d then
        match construct_move E x tr with
        | Some (y, x') =>
            Ret tt (<[d := Some y]> (<[s := Some x']> b))
              (tr ++ [Ev MoveCtor (Slot d)])
        | None => Exc b (tr ++ [Ev MoveCtor (Slot d)])
        end
      else UB b tr
  | None => UB b tr
  end.

(** [b[i] = std::move(tmp)] for a local object [tmp]; returns what is left
    in [tmp]. *)
Definition move_assign_from_local (b : buf) (i : nat) (tmp : T) (tr : trace)
  : outcome buf T :=
  match live b i with
  | Some y =>
      match assign_move E y tmp tr with
      | Some (y', tmp') => Ret tmp' (<[i := Some y']> b) (tr ++ [Ev MoveAssign (Slot i)])
      | None => Exc b (tr ++ [Ev MoveAssign (Slot i)])
      end
  | None => UB b tr
  end.

(** The loop [for (; i < bound; ++i) dst[i] = src[i];] with [n = bound - i]
    iterations to go; returns the final [i]. *)
Fixpoint copy_assign_loop (n : nat) (dst src : buf) (i : nat) (tr : trace)
  : outcome buf nat :=
  match n with
  | 0 => Ret i dst tr
  | S n' =>
      match live src i, live dst i with
      | Some x, Some y =>
          match assign_copy E y x tr with
          | Some y' =>
              copy_assign_loop n' (<[i := Some y']> dst) src (S i)
                (tr ++ [Ev CopyAssign (Slot i)])
          | None => Exc dst (tr ++ [Ev CopyAssign (Slot i)])
          end
      | _, _ => UB dst tr
      end
  end.

(** ** [RawMemory<T>] *)

Record RawMemory := { buffer_ : buf; capacity_ : nat }.

(** [SIZE_MAX + 1], for a 64-bit [size_t]. *)
Definition size_t_range : N := 18446744073709551616%N.

(** [static T* Allocate(size_t n)]:
    [n != 0 ? static_cast<T*>(operator new(n * sizeof(T))) : nullptr].
    The product is computed in [size_t] and wraps around; the block returned
    has room for as many slots as its bytes hold, which are fewer than [n]
    when the product wrapped.  [None] is [std::bad_alloc] leaving the call. *)
Definition Allocate (n : nat) (tr : trace) : option buf :=
  if decide (n ≠ 0) then
    let bytes := ((N.of_nat n * N.pos (sizeof_T E)) mod size_t_range)%N in
    if operator_new E bytes tr
    then Some (replicate (N.to_nat (bytes / N.pos (sizeof_T E))) None)
    else None
  else Some [].

(** The byte count of [n] slots is representable in [size_t]. *)
Definition fits (n : nat) : Prop :=
  (N.of_nat n * N.pos (sizeof_T E) < size_t_range)%N.

(** The allocation of [n] slots yields [n] raw slots. *)
Definition allocates (n : nat) (tr : trace) : Prop :=
  Allocate n tr = Some (replicate n None).

(** The allocation of [n] slots throws [std::bad_alloc]. *)
Definition bad_alloc (n : nat) (tr : trace) : Prop :=
  Allocate n tr = None.

(** [RawMemory() = default] *)
Definition RawMemory_default : RawMemory := {| buffer_ := []; capacity_ := 0 |}.

(** [explicit RawMemory(size_t capacity)]; [None] when [Allocate] throws. *)
Definition RawMemory_new (capacity : nat) (tr : trace) : option RawMemory :=
  match Allocate capacity tr with
  | Some b => Some {| buffer_ := b; capacity_ := capacity |}
  | None => None
  end.

(** [void Swap(RawMemory& other)]: the pair after the exchange. *)
Definition RawMemory_Swap (a other : RawMemory) : RawMemory * RawMemory :=
  (other, a).

(** ** [Vector<T>] *)

Record Vector := { data_ : RawMemory; size_ : nat }.

Definition Size (v : Vector) : nat := size_ v.
Definition Capacity (v : Vector) : nat := capacity_ (data_ v).

(** The vector with the contents of its allocation replaced. *)
Definition with_buffer (v : Vector) (b : buf) : Vector :=
  {| data_ := {| buffer_ := b; capacity_ := capacity_ (data_ v) |};
     size_ := size_ v |}.

(** [operator[](index)], with its [assert(index < size_)]. *)
Definition at_index (v : Vector) (index : nat) : option T :=
  if decide (index < size_ v) then live (buffer_ (data_ v)) index else None.

(** [DestroyN(buf, n)] *)
Definition DestroyN := destroy_n.

(** The branch every growth path repeats:
    [if constexpr (std::is_nothrow_move_constructible_v<T> ||
                   !std::is_copy_constructible_v<T>)
       std::uninitialized_move_n(...) else std::uninitialized_copy_n(...)]. *)
Definition transfer (src : buf) (first n : nat) (dst : buf) (d_first : nat)
    (tr : trace) : outcome (buf * buf) unit :=
  if is_nothrow_move_constructible E || negb (is_copy_constructible E)
  then uninitialized_move_n src first n dst d_first tr
  else uninitialized_copy_n src first n dst d_first tr.

(** [Vector() = default] *)
Definition Vector_default : Vector := {| data_ := RawMemory_default; size_ := 0 |}.

(** [explicit Vector(size_t size)].  When a constructor throws, the
    allocation is released and no vector exists. *)
Definition Vector_sized (size : nat) (tr : trace) : outcome unit Vector :=
  match RawMemory_new size tr with
  | Some data =>
      match uninitialized_value_construct_n (buffer_ data) 0 size tr with
      | Ret _ b tr' =>
          Ret {| data_ := {| buffer_ := b; capacity_ := size |}; size_ := size |} tt tr'
      | Exc _ tr' => Exc tt tr'
      | UB _ tr' => UB tt tr'
      end
  | None => Exc tt tr
  end.

(** [Vector(const Vector& other)]; the state of the outcome is [other]. *)
Definition Vector_copy (other : Vector) (tr : trace) : outcome Vector Vector :=
  match RawMemory_new (size_ other) tr with
  | Some data =>
      match uninitialized_copy_n (buffer_ (data_ other)) 0 (size_ other)
              (buffer_ data) 0 tr with
      | Ret _ (src, b) tr' =>
          Ret {| data_ := {| buffer_ := b; capacity_ := size_ other |};
                 size_ := size_ other |}
            (with_buffer other src) tr'
      | Exc (src, _) tr' => Exc (with_buffer other src) tr'
      | UB (src, _) tr' => UB (with_buffer other src) tr'
      end
  | None => Exc other tr
  end.

(** [Vector(Vector&& other)]: the new vector and what is left of [other]. *)
Definition Vector_move (other : Vector) : Vector * Vector :=
  let '(data, other_data) := RawMemory_Swap RawMemory_default (data_ other) in
  ({| data_ := data; size_ := size_ other |},
   {| data_ := other_data; size_ := 0 |}).

(** [~Vector()]: destroys the live elements, then the allocation is freed. *)
Definition Vector_destroy (v : Vector) (tr : trace) : outcome unit unit :=
  match DestroyN (buffer_ (data_ v)) 0 (size_ v) tr with
  | Ret _ _ tr' => Ret tt tt tr'
  | Exc _ tr' => Exc tt tr'
  | UB _ tr' => UB tt tr'
  end.

(** [void Swap(Vector& other)]: the pair after the exchange. *)
Definition Swap (v other : Vector) : Vector * Vector := (other, v).

(** [void Reserve(size_t new_capacity)] *)
Definition Reserve (new_capacity : nat) (v : Vector) (tr : trace)
  : outcome Vector unit :=
  if decide (new_capacity ≤ capacity_ (data_ v)) then Ret tt v tr
  else
    match RawMemory_new new_capacity tr with
    | Some new_data =>
        match transfer (buffer_ (data_ v)) 0 (size_ v) (buffer_ new_data) 0 tr with
        | Ret _ (old, new) tr1 =>
            match destroy_n old 0 (size_ v) tr1 with
            | Ret _ _ tr2 =>
                (* data_.Swap(new_data); the old allocation dies with new_data *)
                Ret tt {| data_ := {| buffer_ := new; capacity_ := new_capacity |};
                          size_ := size_ v |} tr2
            | Exc old' tr2 => Exc (with_buffer v old') tr2
            | UB old' tr2 => UB (with_buffer v old') tr2
            end
        | Exc (old, _) tr1 => Exc (with_buffer v old) tr1
        | UB (old, _) tr1 => UB (with_buffer v old) tr1
        end
    | None => Exc v tr
    end.

(** The body of [operator=(const Vector& rhs)] under [this != &rhs]. *)
Definition copy_assign_body (rhs : Vector) (v : Vector) (tr : trace)
  : outcome Vector unit :=
  if decide (capacity_ (data_ v) < size_ rhs) then
    match Vector_copy rhs tr with
    | Ret rhs_copy _ tr1 =>
        (* Swap(rhs_copy); then ~rhs_copy on what was *this *)
        let '(v', rhs_copy') := Swap v rhs_copy in
        match Vector_destroy rhs_copy' tr1 with
        | Ret _ _ tr2 => Ret tt v' tr2
        | Exc _ tr2 => Exc v' tr2
        | UB _ tr2 => UB v' tr2
        end
    | Exc _ tr1 => Exc v tr1
    | UB _ tr1 => UB v tr1
    end
  else if decide (size_ rhs ≤ size_ v) then
    match copy_assign_loop (size_ rhs) (buffer_ (data_ v)) (buffer_ (data_ rhs)) 0 tr with
    | Ret i b tr1 =>
        match destroy_n b i (size_ v - size_ rhs) tr1 with
        | Ret _ b' tr2 =>
            Ret tt {| data_ := {| buffer_ := b'; capacity_ := capacity_ (data_ v) |};
                      size_ := size_ rhs |} tr2
        | Exc b' tr2 => Exc (with_buffer v b') tr2
        | UB b' tr2 => UB (with_buffer v b') tr2
        end
    | Exc b tr1 => Exc (with_buffer v b) tr1
    | UB b tr1 => UB (with_buffer v b) tr1
    end
  else
    match copy_assign_loop (size_ v) (buffer_ (data_ v)) (buffer_ (data_ rhs)) 0 tr with
    | Ret i b tr1 =>
        match uninitialized_copy_n (buffer_ (data_ rhs)) (i + 1)
                (size_ rhs - size_ v) b (i + 1) tr1 with
        | Ret _ (_, b') tr2 =>
            Ret tt {| data_ := {| buffer_ := b'; capacity_ := capacity_ (data_ v) |};
                      size_ := size_ rhs |} tr2
        | Exc (_, b') tr2 => Exc (with_buffer v b') tr2
        | UB (_, b') tr2 => UB (with_buffer v b') tr2
        end
    | Exc b tr1 => Exc (with_buffer v b) tr1
    | UB b tr1 => UB (with_buffer v b) tr1
    end.

(** [void Resize(size_t new_size)] *)
Definition Resize (new_size : nat) (v : Vector) (tr : trace)
  : outcome Vector unit :=
  if decide (new_size < size_ v) then
    match DestroyN (buffer_ (data_ v)) new_size (size_ v - new_size) tr with
    | Ret _ b tr1 =>
        Ret tt {| data_ := {| buffer_ := b; capacity_ := capacity_ (data_ v) |};
                  size_ := new_size |} tr1
    | Exc b tr1 => Exc (with_buffer v b) tr1
    | UB b tr1 => UB (with_buffer v b) tr1
    end
  else
    match (if decide (Capacity v < new_size) then Reserve new_size v tr
           else Ret tt v tr) with
    | Ret _ v1 tr1 =>
        match uninitialized_value_construct_n (buffer_ (data_ v1)) (size_ v1)
                (new_size - size_ v1) tr1 with
        | Ret _ b tr2 =>
            Ret tt {| data_ := {| buffer_ := b; capacity_ := capacity_ (data_ v1) |};
                      size_ := new_size |} tr2
        | Exc b tr2 => Exc (with_buffer v1 b) tr2
        | UB b tr2 => UB (with_buffer v1 b) tr2
        end
    | o => o
    end.

(** [T& EmplaceBack(Args&&... args)]; the initialiser [c] stands for
    [T(std::forward<Args>(args)...)].  Returns the index of the new element.
    The growth path has no handler: when the transfer throws, the new buffer
    is released with the new element in it. *)
Definition EmplaceBack (c : init) (v : Vector) (tr : trace)
  : outcome Vector nat :=
  if decide (size_ v = Capacity v) then
    match RawMemory_new (if decide (Capacity v = 0) then 1 else Capacity v * 2) tr with
    | Some new_data =>
        match placement_new (buffer_ new_data) (size_ v) c tr with
        | Ret _ nb tr1 =>
            match transfer (buffer_ (data_ v)) 0 (size_ v) nb 0 tr1 with
            | Ret _ (old, nb') tr2 =>
                match destroy_n old 0 (size_ v) tr2 with
                | Ret _ _ tr3 =>
                    Ret (size_ v)
                      {| data_ := {| buffer_ := nb'; capacity_ := capacity_ new_data |};
                         size_ := S (size_ v) |} tr3
                | Exc old' tr3 => Exc (with_buffer v old') tr3
                | UB old' tr3 => UB (with_buffer v old') tr3
                end
            | Exc (old, _) tr2 => Exc (with_buffer v old) tr2
            | UB (old, _) tr2 => UB (with_buffer v old) tr2
            end
        | Exc _ tr1 => Exc v tr1
        | UB _ tr1 => UB v tr1
        end
    | None => Exc v tr
    end
  else
    match placement_new (buffer_ (data_ v)) (size_ v) c tr with
    | Ret _ b tr1 =>
        Ret (size_ v)
          {| data_ := {| buffer_ := b; capacity_ := capacity_ (data_ v) |};
             size_ := S (size_ v) |} tr1
    | Exc b tr1 => Exc (with_buffer v b) tr1
    | UB b tr1 => UB (with_buffer v b) tr1
    end.

(** [void PushBack(const T& value)] and [void PushBack(T&& value)]: the
    bodies are that of [EmplaceBack] with [T(value)] resp.
    [T(std::move(value))]. *)
Definition PushBack (value : T) (v : Vector) (tr : trace) : outcome Vector unit :=
  match EmplaceBack (ByCopy value) v tr with
  | Ret _ v' tr' => Ret tt v' tr'
  | Exc v' tr' => Exc v' tr'
  | UB v' tr' => UB v' tr'
  end.

Definition PushBack_rvalue (value : T) (v : Vector) (tr : trace)
  : outcome Vector unit :=
  match EmplaceBack (ByMove value) v tr with
  | Ret _ v' tr' => Ret tt v' tr'
  | Exc v' tr' => Exc v' tr'
  | UB v' tr' => UB v' tr'
  end.

(** [iterator Emplace(const_iterator pos, Args&&... args)].  Iterators are
    offsets from [begin()]; [pos] has to lie in [[begin(), end()]]. *)
Definition Emplace (pos : nat) (c : init) (v : Vector) (tr : trace)
  : outcome Vector nat :=
  if decide (size_ v < pos) then UB v tr
  else if decide (pos = size_ v) then
    match EmplaceBack c v tr with
    | Ret _ v' tr' => Ret (size_ v' - 1) v' tr'
    | o => o
    end
  else if decide (Capacity v = size_ v) then
    match RawMemory_new (if decide (Capacity v = 0) then 1 else Capacity v * 2) tr with
    | Some new_data =>
        let distance := pos in
        let total_distance := size_ v in
        match placement_new (buffer_ new_data) distance c tr with
        | Ret _ nb tr1 =>
            match transfer (buffer_ (data_ v)) 0 distance nb 0 tr1 with
            | Ret _ (old, nb1) tr2 =>
                match transfer old distance (total_distance - distance)
                        nb1 (distance + 1) tr2 with
                | Ret _ (old', nb2) tr3 =>
                    match destroy_n old' 0 (size_ v) tr3 with
                    | Ret _ _ tr4 =>
                        Ret distance
                          {| data_ := {| buffer_ := nb2; capacity_ := capacity_ new_data |};
                             size_ := S (size_ v) |} tr4
                    | Exc old'' tr4 => Exc (with_buffer v old'') tr4
                    | UB old'' tr4 => UB (with_buffer v old'') tr4
                    end
                | Exc (old', nb2) tr3 =>
                    (* inner handler, then the outer one *)
                    match destroy_n nb2 0 distance tr3 with
                    | Ret _ nb3 tr4 =>
                        match destroy_n nb3 distance 1 tr4 with
                        | Ret _ _ tr5 => Exc (with_buffer v old') tr5
                        | Exc _ tr5 => Exc (with_buffer v old') tr5
                        | UB _ tr5 => UB (with_buffer v old') tr5
                        end
                    | Exc _ tr4 => Exc (with_buffer v old') tr4
                    | UB _ tr4 => UB (with_buffer v old') tr4
                    end
                | UB (old', _) tr3 => UB (with_buffer v old') tr3
                end
            | Exc (old, nb1) tr2 =>
                (* outer handler *)
                match destroy_n nb1 distance 1 tr2 with
                | Ret _ _ tr3 => Exc (with_buffer v old) tr3
                | Exc _ tr3 => Exc (with_buffer v old) tr3
                | UB _ tr3 => UB (with_buffer v old) tr3
                end
            | UB (old, _) tr2 => UB (with_buffer v old) tr2
            end
        | Exc _ tr1 => Exc v tr1
        | UB _ tr1 => UB v tr1
        end
    | None => Exc v tr
    end
  else
    match local_new c tr with
    | (Some tmp_elem, tr1) =>
        match move_construct_within (buffer_ (data_ v)) (size_ v - 1) (size_ v) tr1 with
        | Ret _ b1 tr2 =>
            match std_move_backward b1 pos (size_ v - 1) (size_ v) tr2 with
            | Ret _ b2 tr3 =>
                match move_assign_from_local b2 pos tmp_elem tr3 with
                | Ret _ b3 tr4 =>
                    Ret pos
                      {| data_ := {| buffer_ := b3; capacity_ := capacity_ (data_ v) |};
                         size_ := S (size_ v) |} (tr4 ++ [Ev Dtor Temp])
                | Exc b3 tr4 => Exc (with_buffer v b3) (tr4 ++ [Ev Dtor Temp])
                | UB b3 tr4 => UB (with_buffer v b3) tr4
                end
            | Exc b2 tr3 => Exc (with_buffer v b2) (tr3 ++ [Ev Dtor Temp])
            | UB b2 tr3 => UB (with_buffer v b2) tr3
            end
        | Exc b1 tr2 => Exc (with_buffer v b1) (tr2 ++ [Ev Dtor Temp])
        | UB b1 tr2 => UB (with_buffer v b1) tr2
        end
    | (None, tr1) => Exc v tr1
    end.

(** [iterator Erase(const_iterator pos)] *)
Definition Erase (pos : nat) (v : Vector) (tr : trace) : outcome Vector nat :=
  match std_move (buffer_ (data_ v)) (pos + 1) (size_ v) pos tr with
  | Ret _ b1 tr1 =>
      match destroy_n b1 (size_ v - 1) 1 tr1 with
      | Ret _ b2 tr2 =>
          Ret pos
            {| data_ := {| buffer_ := b2; capacity_ := capacity_ (data_ v) |};
               size_ := size_ v - 1 |} tr2
      | Exc b2 tr2 => Exc (with_buffer v b2) tr2
      | UB b2 tr2 => UB (with_buffer v b2) tr2
      end
  | Exc b1 tr1 => Exc (with_buffer v b1) tr1
  | UB b1 tr1 => UB (with_buffer v b1) tr1
  end.

(** [iterator Insert(const_iterator pos, const T& value)] *)
Definition Insert (pos : nat) (value : T) := Emplace pos (ByCopy value).

(** [iterator Insert(const_iterator pos, T&& value)] *)
Definition Insert_rvalue (pos : nat) (value : T) := Emplace pos (ByMove value).

(** [void PopBack()]; on an empty vector [data_.GetAddress() + size_ - 1]
    leaves the allocation. *)
Definition PopBack (v : Vector) (tr : trace) : outcome Vector unit :=
  if decide (size_ v = 0) then UB v tr
  else
    match destroy_n (buffer_ (data_ v)) (size_ v - 1) 1 tr with
    | Ret _ b tr1 =>
        Ret tt {| data_ := {| buffer_ := b; capacity_ := capacity_ (data_ v) |};
                  size_ := size_ v - 1 |} tr1
    | Exc b tr1 => Exc (with_buffer v b) tr1
    | UB b tr1 => UB (with_buffer v b) tr1
    end.

(** ** Assignment between the vectors of a program

    [operator=] compares the addresses of its operands, so it is stated over
    a store of vector objects: an object is named by its index, and two
    references alias exactly when the indices are equal. *)

(** [Vector& operator=(const Vector& rhs)] *)
Definition copy_assign (this rhs : nat) (st : list Vector) (tr : trace)
  : outcome (list Vector) unit :=
  match st !! this, st !! rhs with
  | Some a, Some b =>
      if decide (this ≠ rhs) then
        match copy_assign_body b a tr with
        | Ret _ a' tr' => Ret tt (<[this := a']> st) tr'
        | Exc a' tr' => Exc (<[this := a']> st) tr'
        | UB a' tr' => UB (<[this := a']> st) tr'
        end
      else Ret tt st tr
  | _, _ => UB st tr
  end.

(** [Vector& operator=(Vector&& rhs)] *)
Definition move_assign (this rhs : nat) (st : list Vector) (tr : trace)
  : outcome (list Vector) unit :=
  match st !! this, st !! rhs with
  | Some a, Some b =>
      if decide (this ≠ rhs) then
        let '(a', b') := Swap a b in
        Ret tt (<[rhs := b']> (<[this := a']> st)) tr
      else Ret tt st tr
  | _, _ => UB st tr
  end.

(** ** The state invariant and the abstract contents *)

(** [0 <= size_ <= capacity], the allocation has [capacity_] slots, the slots
    at [[0, size_)] hold live objects and those at [[size_, capacity_)] are
    raw. *)
Definition Inv (v : Vector) : Prop :=
  length (buffer_ (data_ v)) = capacity_ (data_ v) ∧
  size_ v ≤ capacity_ (data_ v) ∧
  (∀ i, i < size_ v → is_Some (live (buffer_ (data_ v)) i)) ∧
  (∀ i, size_ v ≤ i → i < capacity_ (data_ v) → buffer_ (data_ v) !! i = Some None).

(** The sequence of live elements, [v[0], ..., v[Size() - 1]]. *)
Definition elems (v : Vector) : list T :=
  omap id (take (size_ v) (buffer_ (data_ v))).

(** The vector in which the sequence [xs] is stored with capacity [cap]. *)
Definition mk (xs : list T) (cap : nat) : Vector :=
  {| data_ := {| buffer_ := (Some <$> xs) ++ replicate (cap - length xs) None;
                 capacity_ := cap |};
     size_ := length xs |}.

(** ** Reference behaviour of a transfer *)

(** The calls of [k] on the slots [first, first + 1, ..., first + n - 1]. *)
Definition evs (k : special) (first n : nat) : trace :=
  (λ i, Ev k (Slot i)) <$> seq first n.

(** Transferring the objects [xs] one after the other into the slots from
    [cur] on: for each object transferred, the new object and what is left
    in the source; [false] when a construction threw, after which nothing
    more is transferred. *)
Fixpoint xfer_list (m : xfer) (xs : list T) (cur : nat) (tr : trace)
  : list (T * T) * bool :=
  match xs with
  | [] => ([], true)
  | x :: xs' =>
      match construct_from m x tr with
      | Some yr =>
          let '(l, ok) := xfer_list m xs' (S cur) (tr ++ [Ev (xfer_op m) (Slot cur)]) in
          (yr :: l, ok)
      | None => ([], false)
      end
  end.

(** The transfer the growth paths select. *)
Definition growth_xfer : xfer :=
  if is_nothrow_move_constructible E || negb (is_copy_constructible E)
  then Moving else Copying.

(** ** Reference runs of the constructors of [T]

    What the move constructor, resp. the copy constructor, of [T] does when
    it is called on the objects [xs] one after the other to build the slots
    from [cur] on, each call seeing the calls made before it: for each
    object reached, the object built and what the call leaves in its source
    (a copy leaves the source as it is); [false] when a call threw, after
    which nothing more is called. *)
Fixpoint move_run (xs : list T) (cur : nat) (tr : trace) : list (T * T) * bool :=
  match xs with
  | [] => ([], true)
  | x :: xs' =>
      match construct_move E x tr with
      | Some yr =>
          let '(l, ok) := move_run xs' (S cur) (tr ++ [Ev MoveCtor (Slot cur)]) in
          (yr :: l, ok)
      | None => ([], false)
      end
  end.

Fixpoint copy_run (xs : list T) (cur : nat) (tr : trace) : list (T * T) * bool :=
  match xs with
  | [] => ([], true)
  | x :: xs' =>
      match construct_copy E x tr with
      | Some y =>
          let '(l, ok) := copy_run xs' (S cur) (tr ++ [Ev CopyCtor (Slot cur)]) in
          ((y, x) :: l, ok)
      | None => ([], false)
      end
  end.

(** ** Assumptions on element types *)

(** A regular element type: constructing or assigning from an object never
    throws and gives the target the value of the source. *)
Record regular : Prop := {
  regular_copy : ∀ x tr, construct_copy E x tr = Some x;
  regular_move : ∀ x tr, ∃ r, construct_move E x tr = Some (x, r);
  regular_copy_assign : ∀ y x tr, assign_copy E y x tr = Some x;
  regular_move_assign : ∀ y x tr, ∃ r, assign_move E y x tr = Some (x, r);
}.

(** A copy that does not throw yields the value of its source. *)
Definition copy_faithful : Prop :=
  ∀ x tr y, construct_copy E x tr = Some y → y = x.

(** The trait [is_nothrow_move_constructible] tells the truth: a [noexcept]
    move constructor lets no exception out. *)
Definition noexcept_honest : Prop :=
  is_nothrow_move_constructible E = true →
  ∀ x tr, is_Some (construct_move E x tr).

(** ** Reference behaviour of value construction, and a caller's loop *)

(** Value-constructing [n] objects one after the other into the slots from
    [cur] on: the objects built; [false] when a construction threw, after
    which nothing more is built. *)
Fixpoint default_list (n cur : nat) (tr : trace) : list T * bool :=
  match n with
  | 0 => ([], true)
  | S n' =>
      match construct_default E tr with
      | Some d =>
          let '(l, ok) := default_list n' (S cur) (tr ++ [Ev DefaultCtor (Slot cur)]) in
          (d :: l, ok)
      | None => ([], false)
      end
  end.

(** [for (const T& x : values) v.PushBack(x);] *)
Fixpoint PushBack_all (values : list T) (v : Vector) (tr : trace)
  : outcome Vector unit :=
  match values with
  | [] => Ret tt v tr
  | x :: rest =>
      match PushBack x v tr with
      | Ret _ v' tr' => PushBack_all rest v' tr'
      | o => o
      end
  end.

End Container.

Arguments ByDefault {T Args}.
Arguments ByCopy {T Args} x.
Arguments ByMove {T Args} x.
Arguments ByArgs {T Args} a.
Arguments buffer_ {T} _.
Arguments capacity_ {T} _.
Arguments data_ {T} _.
Arguments size_ {T} _.
Arguments Size {T} v.
Arguments Capacity {T} v.
Arguments at_index {T} v index.
Arguments with_buffer {T} v b.
Arguments Vector_default {T}.
Arguments Vector_move {T} other.
Arguments Swap {T} v other.
Arguments Build_RawMemory {T} _ _.
Arguments Build_Vector {T} _ _.
Arguments Inv {T} v.
Arguments elems {T} v.
Arguments mk {T} xs cap.

(** ** Element types used to exercise the container *)

(** An [int]-like element: nothing throws, a move leaves its source as it
    was.  The two traits are parameters. *)
Definition IntElem (nothrow copyable : bool) : Elem nat nat := {|
  sizeof_T := 4;
  operator_new := λ _ _, true;
  is_nothrow_move_constructible := nothrow;
  is_copy_constructible := copyable;
  construct_default := λ _, Some 0;
  construct_args := λ a _, Some a;
  construct_copy := λ x _, Some x;
  construct_move := λ x _, Some (x, x);
  assign_copy := λ _ x _, Some x;
  assign_move := λ _ x _, Some (x, x);
|}.

(** A copyable element whose copy constructor throws on the value 13 and
    whose move constructor is not [noexcept]. *)
Definition ThrowingCopy : Elem nat nat := {|
  sizeof_T := 4;
  operator_new := λ _ _, true;
  is_nothrow_move_constructible := false;
  is_copy_constructible := true;
  construct_default := λ _, Some 0;
  construct_args := λ a _, Some a;
  construct_copy := λ x _, if decide (x = 13) then None else Some x;
  construct_move := λ x _, Some (x, 0);
  assign_copy := λ _ x _, Some x;
  assign_move := λ _ x _, Some (x, 0);
|}.

(** A move-only element (a handle): a move takes the value and leaves 0 in
    the source; the move constructor is not [noexcept] and throws on the
    value 13. *)
Definition MoveOnly : Elem nat nat := {|
  sizeof_T := 4;
  operator_new := λ _ _, true;
  is_nothrow_move_constructible := false;
  is_copy_constructible := false;
  construct_default := λ _, Some 0;
  construct_args := λ a _, Some a;
  construct_copy := λ _ _, None;
  construct_move := λ x _, if decide (x = 13) then None else Some (x, 0);
  assign_copy := λ _ _ _, None;
  assign_move := λ _ x _, Some (x, 0);
|}.

(** An element whose move assignment throws when the value 13 is moved; a
    move leaves 0 in its source. *)
Definition ThrowingMoveAssign : Elem nat nat := {|
  sizeof_T := 4;
  operator_new := λ _ _, true;
  is_nothrow_move_constructible := true;
  is_copy_constructible := true;
  construct_default := λ _, Some 0;
  construct_args := λ a _, Some a;
  construct_copy := λ x _, Some x;
  construct_move := λ x _, Some (x, 0);
  assign_copy := λ _ x _, Some x;
  assign_move := λ _ x _, if decide (x = 13) then None else Some (x, 0);
|}.

(** An [int]-like element on a heap that serves requests of at most 64
    bytes. *)
Definition SmallHeap : Elem nat nat := {|
  sizeof_T := 4;
  operator_new := λ bytes _, bool_decide (bytes ≤ 64)%N;
  is_nothrow_move_constructible := true;
  is_copy_constructible := true;
  construct_default := λ _, Some 0;
  construct_args := λ a _, Some a;
  construct_copy := λ x _, Some x;
  construct_move := λ x _, Some (x, x);
  assign_copy := λ _ x _, Some x;
  assign_move := λ _ x _, Some (x, x);
|}.

(** * Properties *)

Section Properties.

Context {T Args : Type} (E : Elem T Args).

Abbreviation slot := (option T) (only parsing).
Abbreviation buf := (list (option T)) (only parsing).

Implicit Types (xs : list T) (b pre post : buf) (tr : trace) (v : @Vector T).

(** ** Slots *)

Lemma live_middle pre post x i :
  i = length pre → live (pre ++ Some x :: post) i = Some x.
Proof. intros ->. unfold live. by rewrite list_lookup_middle. Qed.

Lemma live_raw_middle pre post i :
  i = length pre → live (pre ++ None :: post) i = None.
Proof. intros ->. unfold live. by rewrite list_lookup_middle. Qed.

Lemma is_raw_middle pre post i :
  i = length pre → is_raw (pre ++ None :: post) i = true.
Proof. intros ->. unfold is_raw. by rewrite list_lookup_middle. Qed.

Lemma insert_middle pre post (s s' : slot) i :
  i = length pre → <[i := s']> (pre ++ s :: post) = pre ++ s' :: post.
Proof.
  intros ->. rewrite insert_app_r_alt by lia. by rewrite Nat.sub_diag.
Qed.

Lemma live_beyond b i : length b ≤ i → live b i = None.
Proof. intros H. unfold live. by rewrite lookup_ge_None_2. Qed.

Lemma is_raw_beyond b i : length b ≤ i → is_raw b i = false.
Proof. intros H. unfold is_raw. by rewrite lookup_ge_None_2. Qed.

(** ** Event lists *)

Lemma evs_0 k first : evs k first 0 = [].
Proof. done. Qed.

Lemma evs_S k first n :
  evs k first (S n) = Ev k (Slot first) :: evs k (S first) n.
Proof. done. Qed.

Lemma evs_S_end k first n :
  evs k first (S n) = evs k first n ++ [Ev k (Slot (first + n))].
Proof. unfold evs. by rewrite seq_S, fmap_app. Qed.

Lemma evs_add k first n m :
  evs k first (n + m) = evs k first n ++ evs k (first + n) m.
Proof. unfold evs. by rewrite seq_app, fmap_app. Qed.

Lemma length_evs k first n : length (evs k first n) = n.
Proof. unfold evs. by rewrite length_fmap, length_seq. Qed.

Lemma calls_app k tr1 tr2 : calls k (tr1 ++ tr2) = calls k tr1 + calls k tr2.
Proof. unfold calls. by rewrite list.filter_app, length_app. Qed.

Lemma calls_evs k k' first n :
  calls k (evs k' first n) = if decide (k' = k) then n else 0.
Proof.
  revert first. induction n as [|n IH]; intros first.
  - by case_decide.
  - rewrite evs_S. unfold calls in *. rewrite filter_cons. simpl.
    specialize (IH (S first)). repeat case_decide; simpl; try congruence; lia.
Qed.

(** ** [std::destroy_n] *)

Lemma destroy_n_live xs : ∀ pre post first tr,
  first = length pre →
  destroy_n (pre ++ (Some <$> xs) ++ post) first (length xs) tr =
  Ret tt (pre ++ replicate (length xs) None ++ post)
    (tr ++ evs Dtor first (length xs)).
Proof.
  induction xs as [|x xs IH]; intros pre post first tr ->; simpl.
  - by rewrite app_nil_r.
  - rewrite live_middle by done. rewrite insert_middle by done.
    rewrite (cons_middle None pre), app_assoc.
    rewrite (IH (pre ++ [None]) post) by (rewrite length_app; simpl; lia).
    rewrite evs_S. by rewrite <- !app_assoc.
Qed.

Lemma destroy_n_live0 xs post tr :
  destroy_n ((Some <$> xs) ++ post) 0 (length xs) tr =
  Ret tt (replicate (length xs) None ++ post) (tr ++ evs Dtor 0 (length xs)).
Proof. exact (destroy_n_live xs [] post 0 tr eq_refl). Qed.

Lemma destroy_n_range xs pre post first n tr :
  first = length pre → n = length xs →
  destroy_n (pre ++ (Some <$> xs) ++ post) first n tr =
  Ret tt (pre ++ replicate n None ++ post) (tr ++ evs Dtor first n).
Proof. intros -> ->. by apply destroy_n_live. Qed.

Lemma destroy_n_range0 xs post n tr :
  n = length xs →
  destroy_n ((Some <$> xs) ++ post) 0 n tr =
  Ret tt (replicate n None ++ post) (tr ++ evs Dtor 0 n).
Proof. intros ->. apply destroy_n_live0. Qed.

Lemma destroy_one x pre post first tr :
  first = length pre →
  destroy_n (pre ++ Some x :: post) first 1 tr =
  Ret tt (pre ++ None :: post) (tr ++ [Ev Dtor (Slot first)]).
Proof. intros ->. exact (destroy_n_live [x] pre post (length pre) tr eq_refl). Qed.

(** Destroying a raw slot, or one outside the allocation, is undefined. *)
Lemma destroy_n_raw b first n tr :
  live b first = None → destroy_n b first (S n) tr = UB b tr.
Proof. intros H. simpl. by rewrite H. Qed.

(** ** The transfer loops *)

Lemma xfer_list_length m xs cur tr :
  length (xfer_list E m xs cur tr).1 ≤ length xs.
Proof.
  revert cur tr. induction xs as [|x xs IH]; intros cur tr; simpl; [lia|].
  destruct (construct_from E m x tr) as [yr|]; simpl; [|lia].
  specialize (IH (S cur) (tr ++ [Ev (xfer_op m) (Slot cur)])).
  destruct (xfer_list E m xs _ _) as [l ok]; simpl in *. lia.
Qed.

Lemma xfer_list_complete m xs cur tr :
  (xfer_list E m xs cur tr).2 = true →
  length (xfer_list E m xs cur tr).1 = length xs.
Proof.
  revert cur tr. induction xs as [|x xs IH]; intros cur tr; simpl; [done|].
  destruct (construct_from E m x tr) as [yr|]; simpl; [|done].
  specialize (IH (S cur) (tr ++ [Ev (xfer_op m) (Slot cur)])).
  destruct (xfer_list E m xs _ _) as [l ok]; simpl in *. intros. f_equal. auto.
Qed.

Lemma xfer_list_partial m xs cur tr :
  (xfer_list E m xs cur tr).2 = false →
  length (xfer_list E m xs cur tr).1 < length xs.
Proof.
  revert cur tr. induction xs as [|x xs IH]; intros cur tr; simpl; [done|].
  destruct (construct_from E m x tr) as [yr|]; simpl; [|lia].
  specialize (IH (S cur) (tr ++ [Ev (xfer_op m) (Slot cur)])).
  destruct (xfer_list E m xs _ _) as [l ok]; simpl in *. intros H.
  specialize (IH H). lia.
Qed.

(** A transfer whose constructions cannot throw runs to the end. *)
Lemma xfer_list_nothrow m xs cur tr :
  (∀ x tr', is_Some (construct_from E m x tr')) →
  (xfer_list E m xs cur tr).2 = true.
Proof.
  intros Hs. revert cur tr. induction xs as [|x xs IH]; intros cur tr; simpl; [done|].
  destruct (Hs x tr) as [yr ->].
  specialize (IH (S cur) (tr ++ [Ev (xfer_op m) (Slot cur)])).
  by destruct (xfer_list E m xs _ _) as [l ok].
Qed.

(** Copying leaves the sources as they are. *)
Lemma xfer_list_copy_sources xs cur tr :
  (xfer_list E Copying xs cur tr).1.*2 =
  take (length (xfer_list E Copying xs cur tr).1) xs.
Proof.
  revert cur tr. induction xs as [|x xs IH]; intros cur tr; simpl; [done|].
  destruct (construct_copy E x tr) as [y|]; simpl; [|done].
  specialize (IH (S cur) (tr ++ [Ev CopyCtor (Slot cur)])).
  destruct (xfer_list E Copying xs _ _) as [l ok]; simpl in *. by f_equal.
Qed.

(** When each construction gives its target the value of its source, the
    objects built are the objects transferred. *)
Lemma xfer_list_values m xs cur tr :
  (∀ x tr' y r, construct_from E m x tr' = Some (y, r) → y = x) →
  (xfer_list E m xs cur tr).1.*1 =
  take (length (xfer_list E m xs cur tr).1) xs.
Proof.
  intros Hf. revert cur tr. induction xs as [|x xs IH]; intros cur tr; simpl; [done|].
  destruct (construct_from E m x tr) as [[y r]|] eqn:Hc; simpl; [|done].
  specialize (IH (S cur) (tr ++ [Ev (xfer_op m) (Slot cur)])).
  destruct (xfer_list E m xs _ _) as [l ok]; simpl in *.
  f_equal; [by eapply Hf|done].
Qed.

(** The transfers are the runs of the move resp. copy constructor of [T]. *)
Lemma xfer_list_Moving xs cur tr :
  xfer_list E Moving xs cur tr = move_run E xs cur tr.
Proof.
  revert cur tr. induction xs as [|x xs IH]; intros cur tr; simpl; [done|].
  destruct (construct_move E x tr) as [yr|]; [|done]. by rewrite IH.
Qed.

Lemma xfer_list_Copying xs cur tr :
  xfer_list E Copying xs cur tr = copy_run E xs cur tr.
Proof.
  revert cur tr. induction xs as [|x xs IH]; intros cur tr; simpl; [done|].
  destruct (construct_copy E x tr) as [y|]; [|done]. simpl. by rewrite IH.
Qed.

Lemma xfer_list_growth xs cur tr :
  xfer_list E (growth_xfer E) xs cur tr =
  (if is_nothrow_move_constructible E || negb (is_copy_constructible E)
   then move_run E else copy_run E) xs cur tr.
Proof.
  unfold growth_xfer.
  destruct (_ || _); [apply xfer_list_Moving|apply xfer_list_Copying].
Qed.

(** The first call that throws ends a run. *)
Lemma copy_run_throws xs : ∀ cur tr,
  (copy_run E xs cur tr).2 = false →
  ∃ x, xs !! length (copy_run E xs cur tr).1 = Some x ∧
       construct_copy E x (tr ++ evs CopyCtor cur (length (copy_run E xs cur tr).1))
       = None.
Proof.
  induction xs as [|x xs IH]; intros cur tr; simpl; [done|].
  destruct (construct_copy E x tr) as [y|] eqn:Hy.
  - specialize (IH (S cur) (tr ++ [Ev CopyCtor (Slot cur)])).
    destruct (copy_run E xs _ _) as [l ok]. cbn [fst snd length] in *.
    intros Hok. destruct (IH Hok) as (x' & Hx' & Hthrow).
    exists x'. split; [done|]. by rewrite evs_S, (cons_middle _ tr), app_assoc.
  - intros _. exists x. split; [done|]. simpl. by rewrite evs_0, app_nil_r.
Qed.

Lemma uninitialized_loop_eq m xs : ∀ pre post dpre dpost first cur tr,
  first = length pre → cur = length dpre →
  uninitialized_loop E m (length xs) (pre ++ (Some <$> xs) ++ post) first
    (dpre ++ replicate (length xs) None ++ dpost) cur tr =
  let yrs := (xfer_list E m xs cur tr).1 in
  let k := length yrs in
  let src' := pre ++ (Some <$> yrs.*2) ++ (Some <$> drop k xs) ++ post in
  let dst' := dpre ++ (Some <$> yrs.*1) ++ replicate (length xs - k) None ++ dpost in
  if (xfer_list E m xs cur tr).2
  then Ret tt (src', dst', cur + k) (tr ++ evs (xfer_op m) cur k)
  else Exc (src', dst', cur + k) (tr ++ evs (xfer_op m) cur (S k)).
Proof.
  induction xs as [|x xs IH]; intros pre post dpre dpost first cur tr -> ->.
  - simpl. by rewrite Nat.add_0_r, app_nil_r.
  - cbn [length fmap list_fmap replicate uninitialized_loop xfer_list app].
    rewrite live_middle, is_raw_middle by done.
    destruct (construct_from E m x tr) as [[y r]|].
    + rewrite !insert_middle by done.
      rewrite (cons_middle (Some r) pre ((Some <$> xs) ++ post)).
      rewrite (cons_middle (Some y) dpre (replicate (length xs) None ++ dpost)).
      rewrite (app_assoc pre [Some r]), (app_assoc dpre [Some y]).
      rewrite (IH (pre ++ [Some r]) post (dpre ++ [Some y]) dpost)
        by (rewrite length_app; simpl; lia).
      destruct (xfer_list E m xs _ _) as [l ok]. cbn -[evs].
      rewrite <- !app_assoc. cbn -[evs].
      replace (S (length dpre + length l)) with (length dpre + S (length l)) by lia.
      by rewrite <- !evs_S.
    + cbn -[evs]. by rewrite Nat.add_0_r.
Qed.

(** [std::uninitialized_copy_n] / [std::uninitialized_move_n] on a range of
    live objects and a raw target: either every object is transferred, or a
    construction throws and the target is raw again, the objects built in it
    having been destroyed. *)
Lemma uninitialized_n_eq m xs pre post dpre dpost first d_first tr :
  first = length pre → d_first = length dpre →
  uninitialized_n E m (pre ++ (Some <$> xs) ++ post) first (length xs)
    (dpre ++ replicate (length xs) None ++ dpost) d_first tr =
  let yrs := (xfer_list E m xs d_first tr).1 in
  let k := length yrs in
  if (xfer_list E m xs d_first tr).2
  then Ret tt (pre ++ (Some <$> yrs.*2) ++ post, dpre ++ (Some <$> yrs.*1) ++ dpost)
         (tr ++ evs (xfer_op m) d_first (length xs))
  else Exc (pre ++ (Some <$> yrs.*2) ++ (Some <$> drop k xs) ++ post,
            dpre ++ replicate (length xs) None ++ dpost)
         (tr ++ evs (xfer_op m) d_first (S k) ++ evs Dtor d_first k).
Proof.
  intros Hf Hd. unfold uninitialized_n.
  rewrite uninitialized_loop_eq by done. cbv zeta.
  pose proof (xfer_list_complete m xs d_first tr) as Hc.
  pose proof (xfer_list_partial m xs d_first tr) as Hp.
  destruct (xfer_list E m xs d_first tr) as [yrs ok]. simpl in *.
  destruct ok.
  - rewrite Hc by done. by rewrite drop_all, Nat.sub_diag.
  - specialize (Hp eq_refl).
    replace (d_first + length yrs - d_first) with (length (yrs.*1))
      by (rewrite length_fmap; lia).
    rewrite destroy_n_live by done. rewrite length_fmap.
    rewrite (app_assoc (replicate (length yrs) None)), <- replicate_add.
    replace (length yrs + (length xs - length yrs)) with (length xs) by lia.
    by rewrite <- app_assoc.
Qed.

Lemma uninitialized_n_range m xs pre post dpre dpost first n d_first tr :
  first = length pre → d_first = length dpre → n = length xs →
  uninitialized_n E m (pre ++ (Some <$> xs) ++ post) first n
    (dpre ++ replicate (length xs) None ++ dpost) d_first tr =
  let yrs := (xfer_list E m xs d_first tr).1 in
  let k := length yrs in
  if (xfer_list E m xs d_first tr).2
  then Ret tt (pre ++ (Some <$> yrs.*2) ++ post, dpre ++ (Some <$> yrs.*1) ++ dpost)
         (tr ++ evs (xfer_op m) d_first (length xs))
  else Exc (pre ++ (Some <$> yrs.*2) ++ (Some <$> drop k xs) ++ post,
            dpre ++ replicate (length xs) None ++ dpost)
         (tr ++ evs (xfer_op m) d_first (S k) ++ evs Dtor d_first k).
Proof. intros ? ? ->. by apply uninitialized_n_eq. Qed.

(** A transfer that returns has read live objects only. *)
Lemma uninitialized_loop_source_live m n : ∀ src first dst cur tr s tr',
  uninitialized_loop E m n src first dst cur tr = Ret tt s tr' →
  ∀ i, i < n → is_Some (live src (first + i)).
Proof.
  induction n as [|n IH]; intros src first dst cur tr s tr' H i Hi; [lia|].
  simpl in H. destruct (live src first) as [x|] eqn:Hx; [|done].
  destruct (is_raw dst cur); [|done].
  destruct (construct_from E m x tr) as [[y r]|]; [|done].
  destruct i as [|i]; [rewrite Nat.add_0_r, Hx; eauto|].
  specialize (IH _ _ _ _ _ _ _ H i ltac:(lia)).
  replace (first + S i) with (S first + i) by lia.
  unfold live in *. by rewrite list_lookup_insert_ne in IH by lia.
Qed.

Lemma uninitialized_n_source_live m n src first dst d_first tr s tr' :
  uninitialized_n E m src first n dst d_first tr = Ret tt s tr' →
  ∀ i, i < n → is_Some (live src (first + i)).
Proof.
  unfold uninitialized_n. intros H.
  destruct (uninitialized_loop E m n src first dst d_first tr)
    as [[] [[src' dst'] cur] tr1|[[src' dst'] cur] tr1|[[src' dst'] cur] tr1] eqn:Hl.
  - by eapply uninitialized_loop_source_live.
  - by destruct (destroy_n _ _ _ _).
  - done.
Qed.

(** ** The canonical form of a vector that satisfies the invariant *)

Lemma fmap_Some_omap (l : list (option T)) :
  Forall is_Some l → Some <$> omap id l = l.
Proof.
  induction 1 as [|s l [x ->] _ IH]; simpl; [done|]. f_equal. exact IH.
Qed.

Lemma omap_fmap_Some xs : omap id (Some <$> xs) = xs.
Proof. induction xs as [|x xs IH]; simpl; [done|]. f_equal. exact IH. Qed.

Lemma elems_mk xs cap : elems (mk xs cap) = xs.
Proof.
  unfold elems, mk. simpl.
  rewrite take_app_length' by (by rewrite length_fmap).
  apply omap_fmap_Some.
Qed.

Lemma Inv_mk xs cap : length xs ≤ cap → Inv (mk xs cap).
Proof.
  intros Hle. unfold Inv, mk. simpl. split_and!.
  - rewrite length_app, length_fmap, length_replicate. lia.
  - done.
  - intros i Hi. unfold live.
    rewrite lookup_app_l by (by rewrite length_fmap).
    rewrite list_lookup_fmap. destruct (lookup_lt_is_Some_2 xs i Hi) as [x ->].
    simpl. eauto.
  - intros i Hi1 Hi2.
    rewrite lookup_app_r by (by rewrite length_fmap).
    rewrite length_fmap. apply lookup_replicate_2. lia.
Qed.

Lemma size_mk xs cap : size_ (mk xs cap) = length xs.
Proof. done. Qed.

Lemma Inv_canon v : Inv v → v = mk (elems v) (Capacity v).
Proof.
  destruct v as [[b cap] n]. unfold Inv, mk, elems, Capacity. simpl.
  intros (Hlen & Hle & Hlive & Hraw).
  assert (Forall is_Some (take n b)) as Hall.
  { apply Forall_lookup. intros i s Hi.
    apply lookup_take_Some in Hi as [Hi Hlt].
    specialize (Hlive i Hlt). unfold live in Hlive. by rewrite Hi in Hlive. }
  assert (length (omap id (take n b)) = n) as Hn.
  { rewrite <- (length_fmap Some), fmap_Some_omap by done.
    rewrite length_take. lia. }
  f_equal; [|done]. f_equal.
  rewrite fmap_Some_omap, Hn by done.
  rewrite <- (take_drop n b) at 1. f_equal.
  apply list_eq. intros i. rewrite lookup_drop.
  destruct (decide (i < cap - n)).
  - rewrite lookup_replicate_2 by done. apply Hraw; lia.
  - rewrite !lookup_ge_None_2; [done| |]; [rewrite length_replicate|]; lia.
Qed.

Lemma Inv_size v : Inv v → length (elems v) = Size v.
Proof.
  intros H. rewrite (Inv_canon v H) at 2. done.
Qed.

Lemma Inv_size_le v : Inv v → length (elems v) ≤ Capacity v.
Proof. intros H. rewrite Inv_size by done. apply H. Qed.

(** Indexing reads the sequence of live elements. *)
Lemma at_index_mk xs cap i : at_index (mk xs cap) i = xs !! i.
Proof.
  unfold at_index, mk. simpl. case_decide as Hi.
  - unfold live. rewrite lookup_app_l by (by rewrite length_fmap).
    rewrite list_lookup_fmap. by destruct (xs !! i).
  - by rewrite lookup_ge_None_2 by lia.
Qed.

Lemma at_index_elems v i : Inv v → at_index v i = elems v !! i.
Proof. intros H. rewrite (Inv_canon v H) at 1. apply at_index_mk. Qed.

(** ** Transfers of a regular element type *)

Lemma construct_from_regular m x tr :
  regular E → ∃ r, construct_from E m x tr = Some (x, r).
Proof.
  intros HE. destruct m; simpl.
  - exists x. by rewrite (regular_copy E HE).
  - apply (regular_move E HE).
Qed.

Lemma xfer_list_regular m xs cur tr :
  regular E →
  ∃ rs, length rs = length xs ∧ xfer_list E m xs cur tr = (zip xs rs, true).
Proof.
  intros HE. revert cur tr. induction xs as [|x xs IH]; intros cur tr.
  - by exists [].
  - simpl. destruct (construct_from_regular m x tr HE) as [r ->].
    destruct (IH (S cur) (tr ++ [Ev (xfer_op m) (Slot cur)])) as (rs & Hl & ->).
    exists (r :: rs). simpl. by rewrite Hl.
Qed.

Lemma transfer_growth src first n dst d_first tr :
  transfer E src first n dst d_first tr =
  uninitialized_n E (growth_xfer E) src first n dst d_first tr.
Proof.
  unfold transfer, growth_xfer, uninitialized_move_n, uninitialized_copy_n.
  by destruct (_ || _).
Qed.

Lemma uninitialized_n_regular m xs pre post dpre dpost first d_first tr :
  regular E → first = length pre → d_first = length dpre →
  ∃ rs, length rs = length xs ∧
    uninitialized_n E m (pre ++ (Some <$> xs) ++ post) first (length xs)
      (dpre ++ replicate (length xs) None ++ dpost) d_first tr =
    Ret tt (pre ++ (Some <$> rs) ++ post, dpre ++ (Some <$> xs) ++ dpost)
      (tr ++ evs (xfer_op m) d_first (length xs)).
Proof.
  intros HE Hf Hd. rewrite uninitialized_n_eq by done.
  destruct (xfer_list_regular m xs d_first tr HE) as (rs & Hl & ->).
  exists rs. split; [done|]. simpl.
  by rewrite fst_zip, snd_zip by lia.
Qed.

Lemma replicate_split n k (s : option T) :
  k ≤ n → replicate n s = replicate k s ++ replicate (n - k) s.
Proof. intros H. rewrite <- replicate_add. f_equal. lia. Qed.

(** ** Placement new *)

Lemma placement_new_raw pre post i c y tr :
  i = length pre → run_init E c tr = Some y →
  placement_new E (pre ++ None :: post) i c tr =
  Ret tt (pre ++ Some y :: post) (tr ++ [Ev (init_op c) (Slot i)]).
Proof.
  intros -> Hy. unfold placement_new.
  by rewrite is_raw_middle, Hy, insert_middle.
Qed.

Lemma placement_new_throw pre post i c tr :
  i = length pre → run_init E c tr = None →
  placement_new E (pre ++ None :: post) i c tr =
  Exc (pre ++ None :: post) (tr ++ [Ev (init_op c) (Slot i)]).
Proof. intros -> Hy. unfold placement_new. by rewrite is_raw_middle, Hy. Qed.

(** ** Allocation *)

(** When the byte count is representable, the allocation yields [n] raw
    slots or throws, as [operator new] decides. *)
Lemma Allocate_fits n tr :
  fits E n →
  Allocate E n tr =
  if decide (n ≠ 0) then
    if operator_new E (N.of_nat n * N.pos (sizeof_T E))%N tr
    then Some (replicate n None) else None
  else Some [].
Proof.
  unfold fits, Allocate. intros Hfit. case_decide; [|done]. cbv zeta.
  rewrite N.mod_small by done.
  rewrite N.div_mul by done. by rewrite Nat2N.id.
Qed.

Lemma fits_allocates_or_bad_alloc n tr :
  fits E n → allocates E n tr ∨ bad_alloc E n tr.
Proof.
  intros Hfit. unfold allocates, bad_alloc. rewrite Allocate_fits by done.
  case_decide as Hn.
  - destruct (operator_new E _ tr); [by left|by right].
  - left. replace n with 0 by lia. done.
Qed.

(** When the byte count wraps around, the block is too small. *)
Lemma Allocate_wraps n tr b :
  ¬ fits E n → Allocate E n tr = Some b → length b < n.
Proof.
  unfold fits, Allocate, size_t_range. intros Hfit H.
  case_decide as Hn; [|lia]. cbv zeta in H.
  destruct (operator_new E _ tr); [|done]. injection H as <-.
  rewrite length_replicate.
  pose proof (N.mod_upper_bound (N.of_nat n * N.pos (sizeof_T E))
    18446744073709551616 ltac:(done)) as Hmod.
  set (bytes := ((N.of_nat n * N.pos (sizeof_T E)) `mod` 18446744073709551616)%N) in *.
  assert (bytes / N.pos (sizeof_T E) < N.of_nat n)%N as Hq.
  { apply N.Div0.div_lt_upper_bound. nia. }
  set (q := (bytes / N.pos (sizeof_T E))%N) in *. lia.
Qed.

Lemma allocates_0 tr : allocates E 0 tr.
Proof. done. Qed.

Lemma RawMemory_new_allocates n tr :
  allocates E n tr →
  RawMemory_new E n tr = Some {| buffer_ := replicate n None; capacity_ := n |}.
Proof. unfold allocates, RawMemory_new. by intros ->. Qed.

Lemma RawMemory_new_bad_alloc n tr :
  bad_alloc E n tr → RawMemory_new E n tr = None.
Proof. unfold bad_alloc, RawMemory_new. by intros ->. Qed.

(** ** [Reserve] *)

Lemma Reserve_noop n v tr :
  n ≤ Capacity v → Reserve E n v tr = Ret tt v tr.
Proof. intros H. unfold Reserve, Capacity in *. by case_decide. Qed.

Lemma Reserve_bad_alloc n v tr :
  Capacity v < n → bad_alloc E n tr → Reserve E n v tr = Exc v tr.
Proof.
  unfold Capacity. intros Hlt Ha. unfold Reserve. case_decide; [lia|].
  by rewrite RawMemory_new_bad_alloc.
Qed.

(** A transfer writes inside the slots of its destination: the block has
    the length it had. *)
Lemma uninitialized_loop_block m n : ∀ src first dst cur tr s d c tr',
  uninitialized_loop E m n src first dst cur tr = Ret tt (s, d, c) tr' →
  length d = length dst.
Proof.
  induction n as [|n IH]; intros src first dst cur tr s d c tr'; simpl.
  - by intros [= _ <- _ _].
  - destruct (live src first) as [x|]; [|done].
    destruct (is_raw dst cur); [|done].
    destruct (construct_from E m x tr) as [[y x']|]; [|done].
    intros H. apply IH in H. by rewrite length_insert in H.
Qed.

Lemma transfer_block src first n dst d_first tr s d tr' :
  transfer E src first n dst d_first tr = Ret tt (s, d) tr' →
  length d = length dst.
Proof.
  unfold transfer, uninitialized_move_n, uninitialized_copy_n, uninitialized_n.
  destruct (_ || _);
    (destruct (uninitialized_loop E _ n src first dst d_first tr)
       as [[] [[s0 d0] c0] tr0|[[s0 d0] c0] tr0|[[s0 d0] c0] tr0] eqn:Hl;
     [|by destruct (destroy_n _ _ _ _)|done]);
    intros [= <- <- <-]; by eapply uninitialized_loop_block.
Qed.

(** When the byte count of [n] slots wraps around and [operator new] serves
    the wrapped request, [Reserve(n)] records the capacity [n] over a block
    of fewer slots: whatever it returns does not satisfy the invariant.  (It
    returns only if the elements happen to find room in the block; otherwise
    the transfer leaves the allocation.) *)
Lemma Reserve_wraps n v tr v' tr' :
  ¬ fits E n → Capacity v < n →
  Reserve E n v tr = Ret tt v' tr' → ¬ Inv v'.
Proof.
  unfold Capacity. intros Hfit Hlt. unfold Reserve, RawMemory_new.
  case_decide; [lia|].
  destruct (Allocate E n tr) as [b|] eqn:Ha; [|done].
  apply Allocate_wraps in Ha; [|done]. cbn [buffer_].
  destruct (transfer E _ 0 (size_ v) b 0 tr) as [[] [old new] tr1|[??] ?|[??] ?] eqn:Ht;
    [|done..].
  apply transfer_block in Ht.
  destruct (destroy_n old 0 (size_ v) tr1); [|done..].
  intros [= <- _] (Hlen & _). simpl in Hlen. lia.
Qed.

Lemma Reserve_grow n xs cap tr :
  regular E → length xs ≤ cap → cap < n → allocates E n tr →
  Reserve E n (mk xs cap) tr =
  Ret tt (mk xs n)
    (tr ++ evs (xfer_op (growth_xfer E)) 0 (length xs) ++ evs Dtor 0 (length xs)).
Proof.
  intros HE Hle Hlt Ha. unfold Reserve, mk. simpl.
  case_decide; [lia|]. rewrite RawMemory_new_allocates by done. cbn [buffer_].
  rewrite transfer_growth.
  rewrite (replicate_split n (length xs)) by lia.
  destruct (uninitialized_n_regular (growth_xfer E) xs [] (replicate (cap - length xs) None)
    [] (replicate (n - length xs) None) 0 0 tr HE eq_refl eq_refl) as (rs & Hl & Heq).
  simpl in Heq. rewrite Heq. rewrite <- Hl.
  rewrite destroy_n_live0.
  by rewrite Hl, <- app_assoc.
Qed.

(** ** Growth in general

    What the growth paths compute on a full vector, whatever the element
    type does: the initialiser and each transfer may throw. *)

Lemma replicate_hole n k (s : option T) :
  k < n → replicate n s = replicate k s ++ s :: replicate (n - S k) s.
Proof.
  intros H. rewrite <- replicate_S, <- replicate_add. f_equal. lia.
Qed.

Lemma mk_full_buffer xs :
  buffer_ (data_ (mk xs (length xs))) = Some <$> xs.
Proof. unfold mk. simpl. by rewrite Nat.sub_diag, app_nil_r. Qed.

Lemma uninitialized_n_eq_full m xs dpost tr :
  uninitialized_n E m (Some <$> xs) 0 (length xs)
    (replicate (length xs) None ++ dpost) 0 tr =
  let yrs := (xfer_list E m xs 0 tr).1 in
  if (xfer_list E m xs 0 tr).2
  then Ret tt (Some <$> yrs.*2, (Some <$> yrs.*1) ++ dpost)
         (tr ++ evs (xfer_op m) 0 (length xs))
  else Exc ((Some <$> yrs.*2) ++ (Some <$> drop (length yrs) xs),
            replicate (length xs) None ++ dpost)
         (tr ++ evs (xfer_op m) 0 (S (length yrs)) ++ evs Dtor 0 (length yrs)).
Proof.
  pose proof (uninitialized_n_eq m xs [] [] [] dpost 0 0 tr eq_refl eq_refl) as H.
  cbn [app] in H. rewrite !app_nil_r in H. exact H.
Qed.

Lemma EmplaceBack_grow_eq c xs tr :
  allocates E (if decide (length xs = 0) then 1 else length xs * 2) tr →
  EmplaceBack E c (mk xs (length xs)) tr =
  let n := length xs in
  let cap' := if decide (n = 0) then 1 else n * 2 in
  match run_init E c tr with
  | None => Exc (mk xs n) (tr ++ [Ev (init_op c) (Slot n)])
  | Some y =>
      let tr1 := tr ++ [Ev (init_op c) (Slot n)] in
      let r := xfer_list E (growth_xfer E) xs 0 tr1 in
      if r.2
      then Ret n (mk (r.1.*1 ++ [y]) cap')
             (tr1 ++ evs (xfer_op (growth_xfer E)) 0 n ++ evs Dtor 0 n)
      else Exc (with_buffer (mk xs n)
                  ((Some <$> r.1.*2) ++ (Some <$> drop (length r.1) xs)))
             (tr1 ++ evs (xfer_op (growth_xfer E)) 0 (S (length r.1))
                  ++ evs Dtor 0 (length r.1))
  end.
Proof.
  intros Ha. cbv zeta. unfold EmplaceBack. rewrite mk_full_buffer.
  cbn [mk size_ data_ capacity_ Capacity].
  destruct (decide (length xs = length xs)) as [_|?]; [|done].
  set (cap' := if decide (length xs = 0) then 1 else length xs * 2) in *.
  assert (length xs < cap') as Hcap by (unfold cap'; case_decide; lia).
  rewrite RawMemory_new_allocates by done. cbn [buffer_ capacity_].
  rewrite (replicate_hole cap' (length xs)) by done.
  destruct (run_init E c tr) as [y|] eqn:Hy.
  - rewrite (placement_new_raw _ _ _ _ y) by (done || by rewrite length_replicate).
    rewrite transfer_growth.
    rewrite uninitialized_n_eq_full. cbv zeta.
    pose proof (xfer_list_complete (growth_xfer E) xs 0
      (tr ++ [Ev (init_op c) (Slot (length xs))])) as Hc.
    destruct (xfer_list E (growth_xfer E) xs 0 _) as [l ok]. cbn [fst snd] in *.
    destruct ok.
    + specialize (Hc eq_refl).
      replace (length xs) with (length (l.*2)) at 1 by (by rewrite length_fmap).
      rewrite <- (app_nil_r (Some <$> l.*2)).
      rewrite destroy_n_live0. rewrite <- !app_assoc. f_equal.
      * unfold mk. rewrite fmap_app, <- app_assoc, length_app, length_fmap, Hc.
        simpl. by rewrite Nat.add_1_r.
      * rewrite length_fmap. by rewrite Hc.
    + by rewrite <- !app_assoc.
  - by rewrite placement_new_throw by (done || by rewrite length_replicate).
Qed.

Lemma Reserve_grow_eq n xs cap tr :
  length xs ≤ cap → cap < n → allocates E n tr →
  Reserve E n (mk xs cap) tr =
  let r := xfer_list E (growth_xfer E) xs 0 tr in
  if r.2
  then Ret tt (mk r.1.*1 n)
         (tr ++ evs (xfer_op (growth_xfer E)) 0 (length xs)
             ++ evs Dtor 0 (length xs))
  else Exc (with_buffer (mk xs cap)
              ((Some <$> r.1.*2) ++ (Some <$> drop (length r.1) xs)
                 ++ replicate (cap - length xs) None))
         (tr ++ evs (xfer_op (growth_xfer E)) 0 (S (length r.1))
             ++ evs Dtor 0 (length r.1)).
Proof.
  intros Hle Hlt Ha. cbv zeta. unfold Reserve, mk.
  cbn [size_ data_ capacity_ buffer_].
  case_decide; [lia|]. rewrite RawMemory_new_allocates by done. cbn [buffer_].
  rewrite transfer_growth.
  rewrite (replicate_split n (length xs)) by lia.
  pose proof (uninitialized_n_eq (growth_xfer E) xs [] (replicate (cap - length xs) None)
    [] (replicate (n - length xs) None) 0 0 tr eq_refl eq_refl) as Heq.
  cbn [app] in Heq. rewrite Heq. clear Heq. cbv zeta.
  pose proof (xfer_list_complete (growth_xfer E) xs 0 tr) as Hc.
  destruct (xfer_list E (growth_xfer E) xs 0 tr) as [l ok]. cbn [fst snd] in *.
  destruct ok; [|done].
  specialize (Hc eq_refl).
  rewrite (destroy_n_range0 l.*2) by (by rewrite length_fmap).
  by rewrite <- app_assoc, length_fmap, Hc.
Qed.

Lemma Emplace_grow_eq c xs1 xs2 tr :
  0 < length xs2 →
  allocates E (length (xs1 ++ xs2) * 2) tr →
  Emplace E (length xs1) c (mk (xs1 ++ xs2) (length (xs1 ++ xs2))) tr =
  let p := length xs1 in
  let n := length (xs1 ++ xs2) in
  let cap' := if decide (n = 0) then 1 else n * 2 in
  let op := xfer_op (growth_xfer E) in
  match run_init E c tr with
  | None => Exc (mk (xs1 ++ xs2) n) (tr ++ [Ev (init_op c) (Slot p)])
  | Some y =>
      let tr1 := tr ++ [Ev (init_op c) (Slot p)] in
      let r1 := xfer_list E (growth_xfer E) xs1 0 tr1 in
      if r1.2 then
        let tr2 := tr1 ++ evs op 0 p in
        let r2 := xfer_list E (growth_xfer E) xs2 (p + 1) tr2 in
        if r2.2
        then Ret p (mk (r1.1.*1 ++ y :: r2.1.*1) cap')
               (tr2 ++ evs op (p + 1) (length xs2) ++ evs Dtor 0 n)
        else Exc (with_buffer (mk (xs1 ++ xs2) n)
                    ((Some <$> r1.1.*2) ++ (Some <$> r2.1.*2)
                       ++ (Some <$> drop (length r2.1) xs2)))
               (tr2 ++ (evs op (p + 1) (S (length r2.1))
                          ++ evs Dtor (p + 1) (length r2.1))
                    ++ evs Dtor 0 p ++ [Ev Dtor (Slot p)])
      else Exc (with_buffer (mk (xs1 ++ xs2) n)
                  ((Some <$> r1.1.*2) ++ (Some <$> drop (length r1.1) xs1)
                     ++ (Some <$> xs2)))
             (tr1 ++ (evs op 0 (S (length r1.1)) ++ evs Dtor 0 (length r1.1))
                  ++ [Ev Dtor (Slot p)])
  end.
Proof.
  intros Hx2 Ha. cbv zeta. unfold Emplace. rewrite mk_full_buffer.
  cbn [mk size_ data_ capacity_ Capacity].
  rewrite length_app in *.
  case_decide; [lia|]. case_decide; [lia|]. case_decide; [|done].
  set (n := length xs1 + length xs2) in *.
  set (cap' := if decide (n = 0) then 1 else n * 2).
  assert (n < cap') as Hcap by (unfold cap'; case_decide; lia).
  assert (cap' = n * 2) as Hcap2 by (unfold cap'; case_decide; lia).
  rewrite <- Hcap2 in Ha.
  rewrite RawMemory_new_allocates by done. cbn [buffer_ capacity_].
  assert (replicate cap' (@None T) =
          replicate (length xs1) None ++
          None :: replicate (length xs2) None ++ replicate (cap' - S n) None) as ->.
  { rewrite <- replicate_add, <- replicate_S, <- replicate_add. f_equal. lia. }
  destruct (run_init E c tr) as [y|] eqn:Hy.
  2: { by rewrite placement_new_throw by (done || by rewrite length_replicate). }
  rewrite (placement_new_raw _ _ _ _ y) by (done || by rewrite length_replicate).
  rewrite !transfer_growth. rewrite fmap_app.
  set (tr1 := tr ++ [Ev (init_op c) (Slot (length xs1))]).
  pose proof (uninitialized_n_eq (growth_xfer E) xs1 [] (Some <$> xs2) []
    (Some y :: replicate (length xs2) None ++ replicate (cap' - S n) None)
    0 0 tr1 eq_refl eq_refl) as Hpre.
  cbn [app] in Hpre. rewrite Hpre. clear Hpre. cbv zeta.
  pose proof (xfer_list_complete (growth_xfer E) xs1 0 tr1) as Hc1.
  destruct (xfer_list E (growth_xfer E) xs1 0 tr1) as [l1 ok1]. cbn [fst snd] in *.
  destruct ok1.
  2: { rewrite destroy_one by (by rewrite length_replicate).
       by rewrite <- !app_assoc. }
  specialize (Hc1 eq_refl).
  set (tr2 := tr1 ++ evs (xfer_op (growth_xfer E)) 0 (length xs1)).
  pose proof (uninitialized_n_range (growth_xfer E) xs2 (Some <$> l1.*2) []
    ((Some <$> l1.*1) ++ [Some y]) (replicate (cap' - S n) None)
    (length xs1) (n - length xs1) (length xs1 + 1) tr2) as Hsuf.
  rewrite <- !app_assoc, !app_nil_r in Hsuf. cbn [app] in Hsuf.
  rewrite transfer_growth.
  rewrite Hsuf by (rewrite ?length_app, ?length_fmap; simpl; unfold n; lia).
  clear Hsuf. cbv zeta.
  pose proof (xfer_list_complete (growth_xfer E) xs2 (length xs1 + 1) tr2) as Hc2.
  destruct (xfer_list E (growth_xfer E) xs2 (length xs1 + 1) tr2) as [l2 ok2].
  cbn [fst snd] in *.
  destruct ok2.
  - specialize (Hc2 eq_refl).
    rewrite (app_assoc (Some <$> l1.*2)), <- fmap_app.
    rewrite destroy_n_range0
      by (rewrite length_app, !length_fmap; unfold n; lia).
    unfold mk. rewrite fmap_app, <- !app_assoc, length_app. simpl.
    rewrite !length_fmap, Hc1, Hc2.
    replace (length xs1 + S (length xs2)) with (S n) by (unfold n; lia).
    done.
  - rewrite (destroy_n_range0 l1.*1) by (by rewrite length_fmap).
    rewrite destroy_one by (by rewrite length_replicate).
    by rewrite app_nil_r, <- !app_assoc.
Qed.

(** ** Which constructor a growth path uses *)

Lemma xfer_op_growth :
  xfer_op (growth_xfer E) =
  if is_nothrow_move_constructible E || negb (is_copy_constructible E)
  then MoveCtor else CopyCtor.
Proof. unfold growth_xfer. by destruct (_ || _). Qed.

Lemma Inv_full v :
  Inv v → Size v = Capacity v → v = mk (elems v) (length (elems v)).
Proof.
  intros HI Hfull. rewrite (Inv_size v HI), Hfull. by apply Inv_canon.
Qed.

(** The growth equations, stated on a vector that satisfies the invariant. *)

Lemma growth_capacity (n : nat) :
  (if decide (n = 0) then 1 else n * 2) = max 1 (2 * n).
Proof. case_decide; lia. Qed.

Lemma Reserve_grow_inv n v tr :
  Inv v → Capacity v < n → allocates E n tr →
  Reserve E n v tr =
  let r := xfer_list E (growth_xfer E) (elems v) 0 tr in
  if r.2
  then Ret tt (mk r.1.*1 n)
         (tr ++ evs (xfer_op (growth_xfer E)) 0 (Size v) ++ evs Dtor 0 (Size v))
  else Exc (with_buffer v
              ((Some <$> r.1.*2) ++ (Some <$> drop (length r.1) (elems v))
                 ++ replicate (Capacity v - Size v) None))
         (tr ++ evs (xfer_op (growth_xfer E)) 0 (S (length r.1))
             ++ evs Dtor 0 (length r.1)).
Proof.
  intros HI Hlt Ha.
  pose proof (Reserve_grow_eq n (elems v) (Capacity v) tr
    (Inv_size_le v HI) Hlt Ha) as H.
  rewrite <- (Inv_canon v HI), (Inv_size v HI) in H. exact H.
Qed.

Lemma EmplaceBack_grow_inv c v tr :
  Inv v → Size v = Capacity v → allocates E (max 1 (2 * Capacity v)) tr →
  EmplaceBack E c v tr =
  let cap' := if decide (Size v = 0) then 1 else Size v * 2 in
  match run_init E c tr with
  | None => Exc v (tr ++ [Ev (init_op c) (Slot (Size v))])
  | Some y =>
      let tr1 := tr ++ [Ev (init_op c) (Slot (Size v))] in
      let r := xfer_list E (growth_xfer E) (elems v) 0 tr1 in
      if r.2
      then Ret (Size v) (mk (r.1.*1 ++ [y]) cap')
             (tr1 ++ evs (xfer_op (growth_xfer E)) 0 (Size v)
                  ++ evs Dtor 0 (Size v))
      else Exc (with_buffer v
                  ((Some <$> r.1.*2) ++ (Some <$> drop (length r.1) (elems v))))
             (tr1 ++ evs (xfer_op (growth_xfer E)) 0 (S (length r.1))
                  ++ evs Dtor 0 (length r.1))
  end.
Proof.
  intros HI Hfull Ha. rewrite <- Hfull, <- growth_capacity in Ha.
  pose proof (EmplaceBack_grow_eq c (elems v) tr) as H. cbv zeta in H.
  rewrite <- (Inv_full v HI Hfull), (Inv_size v HI) in H. by apply H.
Qed.

Lemma Emplace_grow_inv pos c v tr :
  Inv v → Size v = Capacity v → pos < Size v →
  allocates E (max 1 (2 * Capacity v)) tr →
  Emplace E pos c v tr =
  let cap' := if decide (Size v = 0) then 1 else Size v * 2 in
  let op := xfer_op (growth_xfer E) in
  match run_init E c tr with
  | None => Exc v (tr ++ [Ev (init_op c) (Slot pos)])
  | Some y =>
      let tr1 := tr ++ [Ev (init_op c) (Slot pos)] in
      let r1 := xfer_list E (growth_xfer E) (take pos (elems v)) 0 tr1 in
      if r1.2 then
        let tr2 := tr1 ++ evs op 0 pos in
        let r2 := xfer_list E (growth_xfer E) (drop pos (elems v)) (pos + 1) tr2 in
        if r2.2
        then Ret pos (mk (r1.1.*1 ++ y :: r2.1.*1) cap')
               (tr2 ++ evs op (pos + 1) (Size v - pos) ++ evs Dtor 0 (Size v))
        else Exc (with_buffer v
                    ((Some <$> r1.1.*2) ++ (Some <$> r2.1.*2)
                       ++ (Some <$> drop (length r2.1) (drop pos (elems v)))))
               (tr2 ++ (evs op (pos + 1) (S (length r2.1))
                          ++ evs Dtor (pos + 1) (length r2.1))
                    ++ evs Dtor 0 pos ++ [Ev Dtor (Slot pos)])
      else Exc (with_buffer v
                  ((Some <$> r1.1.*2)
                     ++ (Some <$> drop (length r1.1) (take pos (elems v)))
                     ++ (Some <$> drop pos (elems v))))
             (tr1 ++ (evs op 0 (S (length r1.1)) ++ evs Dtor 0 (length r1.1))
                  ++ [Ev Dtor (Slot pos)])
  end.
Proof.
  intros HI Hfull Hpos Ha. pose proof (Inv_size v HI) as Hsz.
  pose proof (Emplace_grow_eq c (take pos (elems v)) (drop pos (elems v)) tr) as H.
  cbv zeta in H.
  rewrite take_drop, length_take_le, length_drop in H by lia.
  rewrite <- (Inv_full v HI Hfull), Hsz in H.
  apply H; [lia|].
  by replace (Size v * 2) with (max 1 (2 * Capacity v)) by lia.
Qed.

Lemma with_buffer_id v : with_buffer v (buffer_ (data_ v)) = v.
Proof. by destruct v as [[b cap] n]. Qed.

Lemma Inv_full_buffer v :
  Inv v → Size v = Capacity v → buffer_ (data_ v) = Some <$> elems v.
Proof.
  intros HI Hfull. rewrite (Inv_full v HI Hfull) at 1. apply mk_full_buffer.
Qed.

Lemma with_buffer_mk v ys :
  length ys = Size v →
  with_buffer v ((Some <$> ys) ++ replicate (Capacity v - Size v) None) =
  mk ys (Capacity v).
Proof. intros Hl. unfold with_buffer, mk. rewrite Hl. done. Qed.

Lemma with_buffer_mk_full v ys :
  length ys = Size v → Size v = Capacity v →
  with_buffer v (Some <$> ys) = mk ys (Capacity v).
Proof.
  intros Hl Hfull. rewrite <- (with_buffer_mk v ys Hl).
  by rewrite Hfull, Nat.sub_diag, app_nil_r.
Qed.

Lemma move_run_length xs cur tr : length (move_run E xs cur tr).1 ≤ length xs.
Proof. rewrite <- xfer_list_Moving. apply xfer_list_length. Qed.

Lemma copy_run_length xs cur tr : length (copy_run E xs cur tr).1 ≤ length xs.
Proof. rewrite <- xfer_list_Copying. apply xfer_list_length. Qed.

(** A copy leaves its source as it is. *)
Lemma copy_run_sources xs cur tr :
  (copy_run E xs cur tr).1.*2 = take (length (copy_run E xs cur tr).1) xs.
Proof. rewrite <- xfer_list_Copying. apply xfer_list_copy_sources. Qed.

(** The sources of an interrupted transfer: what the constructor left in
    the objects it was called on, followed by the objects not reached. *)
Lemma interrupted_length (l : list (T * T)) xs :
  length l ≤ length xs → length (l.*2 ++ drop (length l) xs) = length xs.
Proof. intros H. rewrite length_app, length_fmap, length_drop. lia. Qed.

(** The growth equations in terms of the runs of [T]'s constructors. *)

Lemma Reserve_growth_run n v tr :
  Inv v → Capacity v < n → allocates E n tr →
  let moves := is_nothrow_move_constructible E || negb (is_copy_constructible E) in
  let op := if moves then MoveCtor else CopyCtor in
  let r := (if moves then move_run E else copy_run E) (elems v) 0 tr in
  Reserve E n v tr =
  if r.2
  then Ret tt (mk r.1.*1 n) (tr ++ evs op 0 (Size v) ++ evs Dtor 0 (Size v))
  else Exc (mk (r.1.*2 ++ drop (length r.1) (elems v)) (Capacity v))
         (tr ++ evs op 0 (S (length r.1)) ++ evs Dtor 0 (length r.1)).
Proof.
  intros HI Hlt Ha. cbv zeta. rewrite Reserve_grow_inv by done. cbv zeta.
  pose proof (xfer_list_length (growth_xfer E) (elems v) 0 tr) as Hl.
  rewrite xfer_op_growth, xfer_list_growth in *.
  set (run := if is_nothrow_move_constructible E || negb (is_copy_constructible E)
              then move_run E else copy_run E) in *.
  destruct (run (elems v) 0 tr) as [l ok].
  cbn [fst snd] in *. destruct ok; [done|]. f_equal.
  rewrite app_assoc, <- fmap_app. apply with_buffer_mk.
  rewrite interrupted_length by done. by apply Inv_size.
Qed.

Lemma EmplaceBack_growth_run c v tr :
  Inv v → Size v = Capacity v → allocates E (max 1 (2 * Capacity v)) tr →
  let moves := is_nothrow_move_constructible E || negb (is_copy_constructible E) in
  let op := if moves then MoveCtor else CopyCtor in
  let new_elem := Ev (init_op c) (Slot (Size v)) in
  EmplaceBack E c v tr =
  match run_init E c tr with
  | None => Exc v (tr ++ [new_elem])
  | Some y =>
      let r := (if moves then move_run E else copy_run E) (elems v) 0
                 (tr ++ [new_elem]) in
      if r.2
      then Ret (Size v) (mk (r.1.*1 ++ [y]) (max 1 (2 * Capacity v)))
             (tr ++ [new_elem] ++ evs op 0 (Size v) ++ evs Dtor 0 (Size v))
      else Exc (mk (r.1.*2 ++ drop (length r.1) (elems v)) (Capacity v))
             (tr ++ [new_elem] ++ evs op 0 (S (length r.1))
                 ++ evs Dtor 0 (length r.1))
  end.
Proof.
  intros HI Hfull Ha. cbv zeta. rewrite EmplaceBack_grow_inv by done. cbv zeta.
  destruct (run_init E c tr) as [y|]; [|done].
  pose proof (xfer_list_length (growth_xfer E) (elems v) 0
    (tr ++ [Ev (init_op c) (Slot (Size v))])) as Hl.
  rewrite xfer_op_growth, xfer_list_growth in *.
  set (run := if is_nothrow_move_constructible E || negb (is_copy_constructible E)
              then move_run E else copy_run E) in *.
  destruct (run (elems v) 0 _) as [l ok].
  cbn [fst snd] in *. rewrite <- !app_assoc. destruct ok.
  - by rewrite growth_capacity, Hfull.
  - f_equal. rewrite <- fmap_app. apply with_buffer_mk_full; [|done].
    rewrite interrupted_length by done. by apply Inv_size.
Qed.

Lemma Emplace_growth_run pos c v tr :
  Inv v → Size v = Capacity v → pos < Size v →
  allocates E (max 1 (2 * Capacity v)) tr →
  let moves := is_nothrow_move_constructible E || negb (is_copy_constructible E) in
  let op := if moves then MoveCtor else CopyCtor in
  let run := if moves then move_run E else copy_run E in
  let new_elem := Ev (init_op c) (Slot pos) in
  Emplace E pos c v tr =
  match run_init E c tr with
  | None => Exc v (tr ++ [new_elem])
  | Some y =>
      let tr1 := tr ++ [new_elem] in
      let r1 := run (take pos (elems v)) 0 tr1 in
      if r1.2 then
        let tr2 := tr1 ++ evs op 0 pos in
        let r2 := run (drop pos (elems v)) (pos + 1) tr2 in
        if r2.2
        then Ret pos (mk (r1.1.*1 ++ y :: r2.1.*1) (max 1 (2 * Capacity v)))
               (tr2 ++ evs op (pos + 1) (Size v - pos) ++ evs Dtor 0 (Size v))
        else Exc (mk (r1.1.*2 ++ r2.1.*2 ++ drop (pos + length r2.1) (elems v))
                    (Capacity v))
               (tr2 ++ (evs op (pos + 1) (S (length r2.1))
                          ++ evs Dtor (pos + 1) (length r2.1))
                    ++ evs Dtor 0 pos ++ [Ev Dtor (Slot pos)])
      else Exc (mk (r1.1.*2 ++ drop (length r1.1) (elems v)) (Capacity v))
             (tr1 ++ (evs op 0 (S (length r1.1)) ++ evs Dtor 0 (length r1.1))
                  ++ [Ev Dtor (Slot pos)])
  end.
Proof.
  intros HI Hfull Hpos Ha. cbv zeta. rewrite Emplace_grow_inv by done. cbv zeta.
  pose proof (Inv_size v HI) as Hsz.
  destruct (run_init E c tr) as [y|]; [|done].
  set (tr1 := tr ++ [Ev (init_op c) (Slot pos)]).
  pose proof (xfer_list_length (growth_xfer E) (take pos (elems v)) 0 tr1) as Hl1.
  pose proof (xfer_list_complete (growth_xfer E) (take pos (elems v)) 0 tr1) as Hc1.
  rewrite length_take_le in Hl1, Hc1 by lia.
  rewrite xfer_op_growth in *. rewrite !xfer_list_growth in *.
  set (op := if is_nothrow_move_constructible E || negb (is_copy_constructible E)
             then MoveCtor else CopyCtor) in *.
  set (run := if is_nothrow_move_constructible E || negb (is_copy_constructible E)
              then move_run E else copy_run E) in *.
  destruct (run (take pos (elems v)) 0 tr1) as [l1 ok1]. cbn [fst snd] in *.
  destruct ok1.
  - specialize (Hc1 eq_refl).
    pose proof (xfer_list_length (growth_xfer E) (drop pos (elems v)) (pos + 1)
      (tr1 ++ evs op 0 pos)) as Hl2.
    rewrite xfer_list_growth in Hl2. fold run in Hl2. rewrite length_drop in Hl2.
    destruct (run (drop pos (elems v)) (pos + 1) (tr1 ++ evs op 0 pos)) as [l2 ok2].
    cbn [fst snd] in *. destruct ok2.
    + by rewrite growth_capacity, Hfull.
    + f_equal. rewrite drop_drop, <- !fmap_app.
      apply with_buffer_mk_full; [|done].
      rewrite !length_app, !length_fmap, length_drop. lia.
  - f_equal.
    rewrite <- (take_drop pos (elems v)) at 3.
    rewrite drop_app_le by (rewrite length_take; lia).
    rewrite <- !fmap_app. apply with_buffer_mk_full; [|done].
    rewrite !length_app, !length_fmap, length_drop, length_take, length_drop. lia.
Qed.

(** ** The frame of [Reserve] *)


(** C2.  Every growth path transfers the existing elements with one
    constructor, chosen by the traits of [T]: the move constructor when [T]
    is nothrow-move-constructible or not copy-constructible, the copy
    constructor otherwise.  For a vector that satisfies the invariant and
    has to grow, with the new buffer allocated, and whatever the element
    type does, the outcome of [Reserve] past the capacity and of
    [EmplaceBack], both [PushBack]s and [Emplace] at full capacity is the
    one that the run of that constructor of [T] over the existing elements
    ([move_run], [copy_run]) determines.  If every call returns, the
    operation returns, the new vector holds the objects that constructor
    built (with the new element at its place), and the calls made are the
    construction of the new element (if any), one call of that constructor
    per existing element, in index order, and the destruction of the old
    elements.  If a call throws, the exception leaves the operation, the
    calls made are the ones of that constructor up to the throwing one and
    the destruction of the objects built, and the vector holds what the
    constructor left in the elements it was called on.  The numbers of move
    and of copy constructions of a [Reserve] that returns, as the counters
    of an instrumented element type show them, are stated. *)
Theorem growth_uses_move_or_copy v (n pos : nat) (a : Args) (value : T) tr :
  let moves := is_nothrow_move_constructible E || negb (is_copy_constructible E) in
  let op := if moves then MoveCtor else CopyCtor in
  let run := if moves then move_run E else copy_run E in
  let cap' := max 1 (2 * Capacity v) in
  (* appending the object [new], built by a call of kind [kind] *)
  let appended := λ (R : Type) (ret : R) (kind : special) (new : option T),
    let new_elem := Ev kind (Slot (Size v)) in
    match new with
    | None => Exc v (tr ++ [new_elem])
    | Some y =>
        let r := run (elems v) 0 (tr ++ [new_elem]) in
        if r.2
        then Ret ret (mk (r.1.*1 ++ [y]) cap')
               (tr ++ [new_elem] ++ evs op 0 (Size v) ++ evs Dtor 0 (Size v))
        else Exc (mk (r.1.*2 ++ drop (length r.1) (elems v)) (Capacity v))
               (tr ++ [new_elem] ++ evs op 0 (S (length r.1))
                   ++ evs Dtor 0 (length r.1))
    end in
  Inv v →
  (Capacity v < n → allocates E n tr →
     let r := run (elems v) 0 tr in
     Reserve E n v tr =
       (if r.2
        then Ret tt (mk r.1.*1 n) (tr ++ evs op 0 (Size v) ++ evs Dtor 0 (Size v))
        else Exc (mk (r.1.*2 ++ drop (length r.1) (elems v)) (Capacity v))
               (tr ++ evs op 0 (S (length r.1)) ++ evs Dtor 0 (length r.1))) ∧
     calls MoveCtor (tr ++ evs op 0 (Size v) ++ evs Dtor 0 (Size v)) =
       calls MoveCtor tr + (if moves then Size v else 0) ∧
     calls CopyCtor (tr ++ evs op 0 (Size v) ++ evs Dtor 0 (Size v)) =
       calls CopyCtor tr + (if moves then 0 else Size v)) ∧
  (Size v = Capacity v → allocates E cap' tr →
     EmplaceBack E (ByArgs a) v tr =
       appended nat (Size v) ArgsCtor (construct_args E a tr) ∧
     PushBack E value v tr =
       appended unit tt CopyCtor (construct_copy E value tr) ∧
     PushBack_rvalue E value v tr =
       appended unit tt MoveCtor (fst <$> construct_move E value tr)) ∧
  (Size v = Capacity v → pos < Size v → allocates E cap' tr →
     let new_elem := Ev ArgsCtor (Slot pos) in
     Emplace E pos (ByArgs a) v tr =
       match construct_args E a tr with
       | None => Exc v (tr ++ [new_elem])
       | Some y =>
           let tr1 := tr ++ [new_elem] in
           let r1 := run (take pos (elems v)) 0 tr1 in
           if r1.2 then
             let tr2 := tr1 ++ evs op 0 pos in
             let r2 := run (drop pos (elems v)) (pos + 1) tr2 in
             if r2.2
             then Ret pos (mk (r1.1.*1 ++ y :: r2.1.*1) cap')
                    (tr2 ++ evs op (pos + 1) (Size v - pos) ++ evs Dtor 0 (Size v))
             else Exc (mk (r1.1.*2 ++ r2.1.*2 ++ drop (pos + length r2.1) (elems v))
                         (Capacity v))
                    (tr2 ++ (evs op (pos + 1) (S (length r2.1))
                               ++ evs Dtor (pos + 1) (length r2.1))
                         ++ evs Dtor 0 pos ++ [Ev Dtor (Slot pos)])
           else Exc (mk (r1.1.*2 ++ drop (length r1.1) (elems v)) (Capacity v))
                  (tr1 ++ (evs op 0 (S (length r1.1)) ++ evs Dtor 0 (length r1.1))
                       ++ [Ev Dtor (Slot pos)])
       end).
Proof.
  intros moves op run cap' appended HI.
  assert (∀ c, Size v = Capacity v → allocates E cap' tr →
    EmplaceBack E c v tr = appended nat (Size v) (init_op c) (run_init E c tr))
    as HEB.
  { intros c Hfull Ha. by rewrite EmplaceBack_growth_run. }
  split_and!.
  - intros Hlt Ha. cbv zeta. split; [by apply Reserve_growth_run|].
    rewrite !calls_app, !calls_evs. unfold op.
    destruct moves; split; repeat case_decide; try done; lia.
  - intros Hfull Ha. split_and!.
    + apply (HEB (ByArgs a)); done.
    + unfold PushBack. rewrite (HEB (ByCopy value)) by done.
      unfold appended. cbn [run_init init_op].
      destruct (construct_copy E value tr); [|done]. cbv zeta.
      by destruct (run _ _ _).2.
    + unfold PushBack_rvalue. rewrite (HEB (ByMove value)) by done.
      unfold appended. cbn [run_init init_op].
      destruct (construct_move E value tr) as [[y r]|]; [|done]. cbv zeta.
      cbn [fmap option_fmap option_map fst]. by destruct (run _ _ _).2.
  - intros Hfull Hpos Ha. by apply (Emplace_growth_run pos (ByArgs a)).
Qed.

(** C4.  [PushBack] on a full vector of regular elements, the new buffer
    of [max(1, 2 * Capacity())] slots being allocated: the capacity becomes
    [max(1, 2 * Capacity())], the elements before keep their values
    and order, the last element is the value pushed ([elems] and indexing
    say so), and the first call made is the construction of the new element
    in slot [Size()] of the new buffer, before the transfer of the existing
    elements into slots [0 .. Size() - 1] and their destruction in the old
    buffer.  This holds for both overloads; [PushBack(T&&)] constructs by
    move. *)
Theorem PushBack_full value v tr :
  regular E → Inv v → Size v = Capacity v →
  allocates E (max 1 (2 * Capacity v)) tr →
  ∃ v' evs_transfer,
    evs_transfer =
      evs (xfer_op (growth_xfer E)) 0 (Size v) ++ evs Dtor 0 (Size v) ∧
    PushBack E value v tr =
      Ret tt v' (tr ++ Ev CopyCtor (Slot (Size v)) :: evs_transfer) ∧
    PushBack_rvalue E value v tr =
      Ret tt v' (tr ++ Ev MoveCtor (Slot (Size v)) :: evs_transfer) ∧
    Inv v' ∧
    Capacity v' = max 1 (2 * Capacity v) ∧
    Size v' = S (Size v) ∧
    elems v' = elems v ++ [value] ∧
    (∀ i, i < Size v → at_index v' i = at_index v i) ∧
    at_index v' (Size v) = Some value.
Proof.
  intros HE HI Hfull Ha.
  pose proof (Inv_size v HI) as Hsz.
  set (cap' := if decide (Size v = 0) then 1 else Size v * 2).
  assert (Size v < cap') as Hcap by (unfold cap'; case_decide; lia).
  assert (∀ c, run_init E c tr = Some value →
    EmplaceBack E c v tr =
    Ret (Size v) (mk (elems v ++ [value]) cap')
      (tr ++ Ev (init_op c) (Slot (Size v)) ::
       evs (xfer_op (growth_xfer E)) 0 (Size v) ++ evs Dtor 0 (Size v))) as HEB.
  { intros c Hy. rewrite EmplaceBack_grow_inv by done. cbv zeta. rewrite Hy.
    destruct (xfer_list_regular (growth_xfer E) (elems v) 0
      (tr ++ [Ev (init_op c) (Slot (Size v))]) HE) as (rs & Hl & ->).
    cbn [fst snd]. rewrite fst_zip by lia. by rewrite <- !app_assoc. }
  exists (mk (elems v ++ [value]) cap'). eexists. split; [reflexivity|].
  split_and!.
  - unfold PushBack. rewrite HEB; [done|]. simpl. apply (regular_copy E HE).
  - unfold PushBack_rvalue. rewrite HEB; [done|]. simpl.
    destruct (regular_move E HE value tr) as [r ->]. done.
  - apply Inv_mk. rewrite length_app. simpl. lia.
  - unfold Capacity at 1. simpl. rewrite <- Hfull. unfold cap'.
    case_decide; lia.
  - unfold Size at 1. simpl. rewrite length_app. simpl. lia.
  - apply elems_mk.
  - intros i Hi. rewrite at_index_mk, at_index_elems by done.
    apply lookup_app_l. lia.
  - rewrite at_index_mk, <- Hsz. by rewrite list_lookup_middle.
Qed.

(** ** Failure during growth *)

(** A growth transfer that throws is a transfer by copy, when [T] can be
    copied or its move constructor is [noexcept]. *)
Lemma growth_throw_is_copy xs cur tr l :
  is_copy_constructible E = true ∨ is_nothrow_move_constructible E = true →
  noexcept_honest E →
  xfer_list E (growth_xfer E) xs cur tr = (l, false) →
  growth_xfer E = Copying.
Proof.
  intros Hor Hh Hx. unfold growth_xfer in *.
  destruct (is_nothrow_move_constructible E) eqn:Hn; simpl in *.
  - pose proof (xfer_list_nothrow Moving xs cur tr (Hh Hn)) as Ht.
    by rewrite Hx in Ht.
  - destruct (is_copy_constructible E); simpl in *; [done|].
    by destruct Hor.
Qed.

(** A run of the constructor the growth paths select that throws is a run
    of the copy constructor, when [T] can be copied or its move constructor
    is [noexcept]. *)
Lemma growth_run_throws_copies xs cur tr :
  is_copy_constructible E = true ∨ is_nothrow_move_constructible E = true →
  noexcept_honest E →
  ((if is_nothrow_move_constructible E || negb (is_copy_constructible E)
    then move_run E else copy_run E) xs cur tr).2 = false →
  is_nothrow_move_constructible E || negb (is_copy_constructible E) = false.
Proof.
  intros Hor Hh Hx.
  destruct (xfer_list E (growth_xfer E) xs cur tr) as [l ok] eqn:Hl.
  pose proof Hl as Hl'. rewrite xfer_list_growth in Hl'.
  rewrite Hl' in Hx. cbn in Hx. subst ok.
  pose proof (growth_throw_is_copy _ _ _ _ Hor Hh Hl) as Hm.
  unfold growth_xfer in Hm. by destruct (_ || _).
Qed.

(** C3 (amended).  [Emplace] at an interior position of a full vector, the
    new buffer being allocated, in three stages.  If the construction of the
    new element in the new buffer throws, the exception leaves [Emplace]
    with the vector unchanged and nothing else called.  Otherwise the prefix
    [[begin, pos)] is transferred by the constructor the traits of [T]
    select; if that throws at its element [k1], the [k1] objects built are
    destroyed and then only the new element.  Otherwise the suffix
    [[pos, end)] is transferred; if that throws at its element [k2], the
    [k2] objects built are destroyed, then the transferred prefix, then the
    new element.  Otherwise [Emplace] returns.  After an exception the size
    and the capacity are those before the call and the invariant holds; the
    elements the constructor was called on are as it left them, the others
    are untouched.  So the vector is exactly as before the call when [T] is
    copy-constructible or nothrow-move-constructible (and [noexcept] tells
    the truth), whereas with a type that can only be moved and whose move
    constructor throws the elements already moved from stay as the move
    left them. *)
Theorem Emplace_growth_staged pos c v tr :
  let moves := is_nothrow_move_constructible E || negb (is_copy_constructible E) in
  let op := if moves then MoveCtor else CopyCtor in
  let run := if moves then move_run E else copy_run E in
  let new_elem := Ev (init_op c) (Slot pos) in
  Inv v → Size v = Capacity v → pos < Size v →
  allocates E (max 1 (2 * Capacity v)) tr →
  match run_init E c tr with
  | None => Emplace E pos c v tr = Exc v (tr ++ [new_elem])
  | Some y =>
      let tr1 := tr ++ [new_elem] in
      let r1 := run (take pos (elems v)) 0 tr1 in
      let k1 := length r1.1 in
      if r1.2 then
        let tr2 := tr1 ++ evs op 0 pos in
        let r2 := run (drop pos (elems v)) (pos + 1) tr2 in
        let k2 := length r2.1 in
        if r2.2 then returns (Emplace E pos c v tr)
        else
          k2 < Size v - pos ∧
          Emplace E pos c v tr =
            Exc (mk (r1.1.*2 ++ r2.1.*2 ++ drop (pos + k2) (elems v)) (Capacity v))
              (tr2 ++ (evs op (pos + 1) (S k2) ++ evs Dtor (pos + 1) k2) ++
               evs Dtor 0 pos ++ [Ev Dtor (Slot pos)])
      else
        k1 < pos ∧
        Emplace E pos c v tr =
          Exc (mk (r1.1.*2 ++ drop k1 (elems v)) (Capacity v))
            (tr1 ++ (evs op 0 (S k1) ++ evs Dtor 0 k1) ++ [Ev Dtor (Slot pos)])
  end ∧
  (∀ v' tr', Emplace E pos c v tr = Exc v' tr' →
     Inv v' ∧ Size v' = Size v ∧ Capacity v' = Capacity v ∧
     (is_copy_constructible E = true ∨ is_nothrow_move_constructible E = true →
      noexcept_honest E → v' = v)).
Proof.
  intros moves op run new_elem HI Hfull Hpos Ha.
  pose proof (Inv_size v HI) as Hsz. pose proof (Inv_size_le v HI) as Hle.
  pose proof (Emplace_growth_run pos c v tr HI Hfull Hpos Ha) as Heq.
  cbv zeta in Heq. fold moves op run new_elem in Heq.
  assert (moves = false → ∀ xs cur tr0,
    (run xs cur tr0).1.*2 = take (length (run xs cur tr0).1) xs) as Hsrc.
  { intros Hm xs cur tr0. unfold run. rewrite Hm. apply copy_run_sources. }
  assert (∀ xs cur tr0, (run xs cur tr0).2 = false →
    is_copy_constructible E = true ∨ is_nothrow_move_constructible E = true →
    noexcept_honest E → moves = false) as Hcopy.
  { intros xs cur tr0 Hx Hor Hh. by apply (growth_run_throws_copies xs cur tr0). }
  assert (∀ xs cur tr0, length (run xs cur tr0).1 ≤ length xs) as Hlen.
  { intros xs cur tr0. unfold run.
    destruct moves; [apply move_run_length|apply copy_run_length]. }
  assert (∀ xs cur tr0, (run xs cur tr0).2 = false →
    length (run xs cur tr0).1 < length xs) as Hpart.
  { intros xs cur tr0. unfold run, moves. rewrite <- xfer_list_growth.
    apply xfer_list_partial. }
  assert (∀ xs cur tr0, (run xs cur tr0).2 = true →
    length (run xs cur tr0).1 = length xs) as Hcomp.
  { intros xs cur tr0. unfold run, moves. rewrite <- xfer_list_growth.
    apply xfer_list_complete. }
  destruct (run_init E c tr) as [y|] eqn:Hy.
  2:{ split; [done|]. intros v' tr' Hex. rewrite Heq in Hex.
      injection Hex as <- <-. done. }
  cbv zeta.
  set (tr1 := tr ++ [new_elem]) in *.
  pose proof (Hlen (take pos (elems v)) 0 tr1) as Hl1.
  pose proof (Hpart (take pos (elems v)) 0 tr1) as Hp1.
  pose proof (Hcomp (take pos (elems v)) 0 tr1) as Hc1.
  pose proof (λ Hm, Hsrc Hm (take pos (elems v)) 0 tr1) as Hs1.
  pose proof (Hcopy (take pos (elems v)) 0 tr1) as Hm1.
  rewrite length_take_le in Hl1, Hp1, Hc1 by lia.
  destruct (run (take pos (elems v)) 0 tr1) as [l1 ok1]. cbn [fst snd] in *.
  destruct ok1.
  - specialize (Hc1 eq_refl).
    set (tr2 := tr1 ++ evs op 0 pos) in *.
    pose proof (Hlen (drop pos (elems v)) (pos + 1) tr2) as Hl2.
    pose proof (Hpart (drop pos (elems v)) (pos + 1) tr2) as Hp2.
    pose proof (λ Hm, Hsrc Hm (drop pos (elems v)) (pos + 1) tr2) as Hs2.
    pose proof (Hcopy (drop pos (elems v)) (pos + 1) tr2) as Hm2.
    rewrite length_drop in Hl2, Hp2.
    destruct (run (drop pos (elems v)) (pos + 1) tr2) as [l2 ok2].
    cbn [fst snd] in *. destruct ok2.
    + split; [by rewrite Heq|]. intros v' tr' Hex. by rewrite Heq in Hex.
    + specialize (Hp2 eq_refl). split; [split; [lia|done]|].
      intros v' tr' Hex. rewrite Heq in Hex. injection Hex as <- <-.
      assert (length (l1.*2 ++ l2.*2 ++ drop (pos + length l2) (elems v)) = Size v)
        as Hlv by (rewrite !length_app, !length_fmap, length_drop; lia).
      split_and!.
      * apply Inv_mk. lia.
      * unfold Size at 1. by rewrite size_mk.
      * done.
      * intros Hor Hh. specialize (Hm2 eq_refl Hor Hh).
        rewrite (Hs1 Hm2), (Hs2 Hm2), Hc1.
        rewrite take_take, Nat.min_id.
        rewrite <- (drop_drop (elems v) (length l2) pos).
        rewrite !take_drop. symmetry. by apply Inv_canon.
  - specialize (Hp1 eq_refl). split; [done|].
    intros v' tr' Hex. rewrite Heq in Hex. injection Hex as <- <-.
    assert (length (l1.*2 ++ drop (length l1) (elems v)) = Size v) as Hlv
      by (rewrite !length_app, !length_fmap, length_drop; lia).
    split_and!.
    + apply Inv_mk. lia.
    + unfold Size at 1. by rewrite size_mk.
    + done.
    + intros Hor Hh. specialize (Hm1 eq_refl Hor Hh).
      rewrite (Hs1 Hm1), take_take, Nat.min_l by lia. rewrite take_drop.
      symmetry. by apply Inv_canon.
Qed.

(** ** The copy constructor *)

Lemma Vector_copy_bad_alloc (other : @Vector T) tr :
  bad_alloc E (Size other) tr → Vector_copy E other tr = Exc other tr.
Proof.
  intros Ha. unfold Vector_copy. by rewrite RawMemory_new_bad_alloc.
Qed.

Lemma Vector_copy_eq xs cap tr :
  allocates E (length xs) tr →
  Vector_copy E (mk xs cap) tr =
  let r := copy_run E xs 0 tr in
  if r.2
  then Ret (mk r.1.*1 (length xs)) (mk xs cap) (tr ++ evs CopyCtor 0 (length xs))
  else Exc (mk xs cap)
         (tr ++ evs CopyCtor 0 (S (length r.1)) ++ evs Dtor 0 (length r.1)).
Proof.
  intros Ha. cbv zeta. rewrite <- xfer_list_Copying.
  unfold Vector_copy, uninitialized_copy_n.
  rewrite size_mk, RawMemory_new_allocates by done.
  cbn [mk size_ data_ buffer_ capacity_].
  pose proof (uninitialized_n_eq Copying xs [] (replicate (cap - length xs) None)
    [] [] 0 0 tr eq_refl eq_refl) as Heq.
  cbn [app] in Heq. rewrite !app_nil_r in Heq. rewrite Heq. clear Heq.
  cbv zeta.
  pose proof (xfer_list_copy_sources xs 0 tr) as Hs.
  pose proof (xfer_list_complete Copying xs 0 tr) as Hc.
  destruct (xfer_list E Copying xs 0 tr) as [l ok]. cbn [fst snd xfer_op] in *.
  rewrite Hs. destruct ok.
  - specialize (Hc eq_refl). rewrite Hc, firstn_all. f_equal.
    unfold mk. by rewrite length_fmap, Hc, Nat.sub_diag, app_nil_r.
  - by rewrite app_assoc, <- fmap_app, take_drop.
Qed.

(** The copies a faithful copy constructor builds are the values copied. *)
Lemma copy_run_values xs cur tr :
  copy_faithful E →
  (copy_run E xs cur tr).1.*1 = take (length (copy_run E xs cur tr).1) xs.
Proof.
  intros Hf. rewrite <- xfer_list_Copying. apply xfer_list_values.
  intros x tr0 y r. simpl.
  destruct (construct_copy E x tr0) as [y'|] eqn:Hy; [|done].
  intros [= <- <-]. by eapply Hf.
Qed.

Lemma copy_run_complete xs cur tr :
  (copy_run E xs cur tr).2 = true → length (copy_run E xs cur tr).1 = length xs.
Proof. rewrite <- xfer_list_Copying. apply xfer_list_complete. Qed.

Lemma copy_run_partial xs cur tr :
  (copy_run E xs cur tr).2 = false → length (copy_run E xs cur tr).1 < length xs.
Proof. rewrite <- xfer_list_Copying. apply xfer_list_partial. Qed.

(** C6.  Copy construction from a vector [other], the buffer of
    [other.Size()] slots being allocated, for an element type whose copies,
    when they return, return the value copied.  The copy constructor of [T]
    is called on the elements of [other] in index order ([copy_run]).  If
    every call returns, the new vector has capacity and size [other.Size()]
    and the same elements, index by index, and [Size()] copy constructions
    were called.  If the call on some element [k] throws, the [k] elements
    copied before it are destroyed and the exception leaves the
    constructor, which yields no vector.  In both cases [other] is as it
    was. *)
Theorem Vector_copy_strong other tr :
  Inv other → copy_faithful E → allocates E (Size other) tr →
  let r := copy_run E (elems other) 0 tr in
  if r.2 then
    ∃ copy,
      Vector_copy E other tr =
        Ret copy other (tr ++ evs CopyCtor 0 (Size other)) ∧
      Inv copy ∧ Capacity copy = Size other ∧ Size copy = Size other ∧
      elems copy = elems other ∧
      (∀ i, at_index copy i = at_index other i)
  else
    ∃ k x,
      k = length r.1 ∧ k < Size other ∧
      elems other !! k = Some x ∧
      construct_copy E x (tr ++ evs CopyCtor 0 k) = None ∧
      Vector_copy E other tr =
        Exc other (tr ++ evs CopyCtor 0 (S k) ++ evs Dtor 0 k).
Proof.
  intros HI Hf Ha. pose proof (Inv_size other HI) as Hsz.
  pose proof (Vector_copy_eq (elems other) (Capacity other) tr) as Heq.
  rewrite <- (Inv_canon other HI), Hsz in Heq. specialize (Heq Ha).
  cbv zeta in *.
  pose proof (copy_run_values (elems other) 0 tr Hf) as Hv.
  pose proof (copy_run_complete (elems other) 0 tr) as Hc.
  pose proof (copy_run_partial (elems other) 0 tr) as Hp.
  pose proof (copy_run_throws (elems other) 0 tr) as Ht.
  destruct (copy_run E (elems other) 0 tr) as [l ok].
  cbn [fst snd] in *. destruct ok.
  - eexists. split; [exact Heq|].
    rewrite Hv, Hc, firstn_all by done.
    split_and!.
    + apply Inv_mk. lia.
    + done.
    + unfold Size at 1. simpl. done.
    + apply elems_mk.
    + intros i. by rewrite at_index_mk, at_index_elems.
  - destruct (Ht eq_refl) as (x & Hx & Hthrow).
    exists (length l), x. split; [done|]. split; [rewrite <- Hsz; by apply Hp|].
    done.
Qed.

(** ** [Erase] *)

Lemma move_assign_within_next pre post x y d s tr :
  regular E → d = length pre → s = S d →
  ∃ r, move_assign_within E (pre ++ Some y :: Some x :: post) s d tr =
       Ret tt (pre ++ Some x :: Some r :: post) (tr ++ [Ev MoveAssign (Slot d)]).
Proof.
  intros HE -> ->. unfold move_assign_within.
  rewrite (live_middle pre _ y (length pre)) by done.
  rewrite (cons_middle (Some y) pre), app_assoc.
  rewrite (live_middle (pre ++ [Some y]) post x (S (length pre)))
    by (rewrite length_app; simpl; lia).
  destruct (regular_move_assign E HE y x tr) as [r ->]. exists r.
  rewrite (insert_middle (pre ++ [Some y]) post (Some x) (Some r))
    by (rewrite length_app; simpl; lia).
  rewrite <- app_assoc. simpl.
  by rewrite insert_middle.
Qed.

(** [std::move] of a range one slot to the left: the objects [xs] after
    the slot of [z] move over it, the last slot keeps a moved-from object. *)
Lemma move_loop_left xs : ∀ pre z post first d tr,
  regular E → d = length pre → first = S d →
  ∃ r, move_loop E (length xs) (pre ++ Some z :: (Some <$> xs) ++ post) first d tr =
       Ret tt (pre ++ (Some <$> xs) ++ Some r :: post)
         (tr ++ evs MoveAssign d (length xs)).
Proof.
  induction xs as [|x xs IH]; intros pre z post first d tr HE -> ->.
  - exists z. simpl. by rewrite app_nil_r.
  - cbn [length move_loop fmap list_fmap app].
    destruct (move_assign_within_next pre ((Some <$> xs) ++ post) x z
      (length pre) (S (length pre)) tr HE eq_refl eq_refl) as [r1 ->].
    rewrite (cons_middle (Some x) pre), app_assoc.
    destruct (IH (pre ++ [Some x]) r1 post (S (S (length pre))) (S (length pre))
      (tr ++ [Ev MoveAssign (Slot (length pre))]) HE) as [r ->];
      [by rewrite length_app, Nat.add_1_r|done|].
    exists r. rewrite evs_S. by rewrite <- !app_assoc.
Qed.

Lemma Erase_regular xs1 z xs2 cap tr :
  regular E → length (xs1 ++ z :: xs2) ≤ cap →
  Erase E (length xs1) (mk (xs1 ++ z :: xs2) cap) tr =
  Ret (length xs1) (mk (xs1 ++ xs2) cap)
    (tr ++ evs MoveAssign (length xs1) (length xs2) ++
     [Ev Dtor (Slot (length xs1 + length xs2))]).
Proof.
  intros HE Hle. rewrite length_app in Hle. simpl in Hle.
  unfold Erase, std_move, mk. cbn [size_ data_ buffer_ capacity_].
  rewrite !length_app. cbn [length].
  case_decide; [|lia].
  replace (length xs1 + S (length xs2) - (length xs1 + 1)) with (length xs2) by lia.
  rewrite fmap_app, <- app_assoc. cbn [fmap list_fmap app].
  destruct (move_loop_left xs2 (Some <$> xs1) z
    (replicate (cap - (length xs1 + S (length xs2))) None)
    (length xs1 + 1) (length xs1) tr HE) as [r ->];
    [by rewrite length_fmap|lia|].
  replace (length xs1 + S (length xs2) - 1) with (length xs1 + length xs2) by lia.
  rewrite (app_assoc (Some <$> xs1)).
  rewrite destroy_one by (by rewrite length_app, !length_fmap).
  f_equal.
  - rewrite <- fmap_app, <- replicate_S.
    by replace (S (cap - (length xs1 + S (length xs2))))
      with (cap - (length xs1 + length xs2)) by lia.
  - by rewrite <- app_assoc.
Qed.

(** C7.  [Erase(p)] at a valid position of a vector of regular elements:
    each element after [p] is move-assigned one slot to the left, from [p+1]
    up to the last, the trailing slot [Size() - 1] is destroyed, the size
    decreases by one, and the position returned is [p]: it now holds the
    element that followed the erased one, and it is [end()] exactly when the
    last element was erased. *)
Theorem Erase_shifts_left pos v tr :
  regular E → Inv v → pos < Size v →
  ∃ v',
    Erase E pos v tr =
      Ret pos v'
        (tr ++ evs MoveAssign pos (Size v - 1 - pos) ++
         [Ev Dtor (Slot (Size v - 1))]) ∧
    Inv v' ∧
    Capacity v' = Capacity v ∧
    Size v' = Size v - 1 ∧
    elems v' = take pos (elems v) ++ drop (S pos) (elems v) ∧
    (∀ i, i < pos → at_index v' i = at_index v i) ∧
    (∀ i, pos ≤ i → at_index v' i = at_index v (S i)) ∧
    (pos = Size v' ↔ pos = Size v - 1).
Proof.
  intros HE HI Hpos.
  pose proof (Inv_size v HI) as Hsz. pose proof (Inv_size_le v HI) as Hle.
  destruct (lookup_lt_is_Some_2 (elems v) pos ltac:(lia)) as [z Hz].
  pose proof (take_drop_middle (elems v) pos z Hz) as Hsplit.
  assert (length (take pos (elems v)) = pos) as Hp by (rewrite length_take; lia).
  assert (length (drop (S pos) (elems v)) = Size v - 1 - pos) as Hd
    by (rewrite length_drop; lia).
  pose proof (Erase_regular (take pos (elems v)) z (drop (S pos) (elems v))
    (Capacity v) tr HE) as Heq.
  rewrite Hsplit, <- (Inv_canon v HI), Hp, Hd in Heq.
  replace (pos + (Size v - 1 - pos)) with (Size v - 1) in Heq by lia.
  eexists. split; [apply Heq; lia|].
  assert (length (take pos (elems v) ++ drop (S pos) (elems v)) = Size v - 1) as Hl
    by (rewrite length_app; lia).
  split_and!.
  - apply Inv_mk. lia.
  - done.
  - done.
  - apply elems_mk.
  - intros i Hi. rewrite at_index_mk, at_index_elems by done.
    rewrite lookup_app_l by lia. apply lookup_take_lt. done.
  - intros i Hi. rewrite at_index_mk, at_index_elems by done.
    rewrite lookup_app_r by lia. rewrite lookup_drop, Hp. f_equal. lia.
  - unfold Size at 1. simpl. rewrite Hl. done.
Qed.

(** ** [Emplace] where the capacity suffices *)

Lemma EmplaceBack_fit c y xs cap tr :
  run_init E c tr = Some y → length xs < cap →
  EmplaceBack E c (mk xs cap) tr =
  Ret (length xs) (mk (xs ++ [y]) cap) (tr ++ [Ev (init_op c) (Slot (length xs))]).
Proof.
  intros Hy Hlt. unfold EmplaceBack, mk. cbn [size_ data_ buffer_ capacity_ Capacity].
  case_decide; [lia|].
  rewrite (replicate_hole (cap - length xs) 0) by lia. cbn [replicate app].
  rewrite (placement_new_raw _ _ _ _ y) by (done || by rewrite length_fmap).
  rewrite fmap_app, <- app_assoc, length_app. simpl.
  rewrite Nat.add_1_r.
  by replace (cap - length xs - 1) with (cap - S (length xs)) by lia.
Qed.

Lemma move_construct_within_next pre post w s d tr :
  regular E → s = length pre → d = S s →
  ∃ r, move_construct_within E (pre ++ Some w :: None :: post) s d tr =
       Ret tt (pre ++ Some r :: Some w :: post) (tr ++ [Ev MoveCtor (Slot d)]).
Proof.
  intros HE -> ->. unfold move_construct_within.
  rewrite (live_middle pre _ w (length pre)) by done.
  rewrite (cons_middle (Some w) pre), app_assoc.
  rewrite (is_raw_middle (pre ++ [Some w]) post (S (length pre)))
    by (by rewrite length_app, Nat.add_1_r).
  destruct (regular_move E HE w tr) as [r ->]. exists r.
  rewrite <- app_assoc. cbn [app].
  rewrite (insert_middle pre _ (Some w) (Some r) (length pre)) by done.
  rewrite (cons_middle (Some r) pre), app_assoc.
  rewrite (insert_middle (pre ++ [Some r]) post None (Some w))
    by (by rewrite length_app, Nat.add_1_r).
  by rewrite <- app_assoc.
Qed.

Lemma move_assign_within_prev pre post x y s d tr :
  regular E → s = length pre → d = S s →
  ∃ r, move_assign_within E (pre ++ Some x :: Some y :: post) s d tr =
       Ret tt (pre ++ Some r :: Some x :: post) (tr ++ [Ev MoveAssign (Slot d)]).
Proof.
  intros HE -> ->. unfold move_assign_within.
  rewrite (live_middle pre _ x (length pre)) by done.
  rewrite (cons_middle (Some x) pre), app_assoc.
  rewrite (live_middle (pre ++ [Some x]) post y (S (length pre)))
    by (by rewrite length_app, Nat.add_1_r).
  destruct (regular_move_assign E HE y x tr) as [r ->]. exists r.
  rewrite <- app_assoc. cbn [app].
  rewrite (insert_middle pre _ (Some x) (Some r) (length pre)) by done.
  rewrite (cons_middle (Some r) pre), app_assoc.
  rewrite (insert_middle (pre ++ [Some r]) post (Some y) (Some x))
    by (by rewrite length_app, Nat.add_1_r).
  by rewrite <- app_assoc.
Qed.

(** [std::move_backward] of a range one slot to the right: the objects [xs]
    move over the slot of [z] after them, from the last to the first; the
    first slot keeps a moved-from object. *)
Lemma move_backward_loop_right xs : ∀ pre z post last d_last tr,
  regular E → last = length pre + length xs → d_last = S last →
  ∃ r, move_backward_loop E (length xs) (pre ++ (Some <$> xs) ++ Some z :: post)
         last d_last tr =
       Ret tt (pre ++ Some r :: (Some <$> xs) ++ post)
         (tr ++ rev (evs MoveAssign (S (length pre)) (length xs))).
Proof.
  induction xs as [|x xs IH] using rev_ind; intros pre z post last d_last tr HE -> ->.
  - exists z. simpl. by rewrite app_nil_r.
  - rewrite length_app, fmap_app. cbn [length fmap list_fmap].
    rewrite !Nat.add_1_r, Nat.add_succ_r. cbn [move_backward_loop].
    rewrite <- (app_assoc (Some <$> xs)). cbn [app].
    rewrite (app_assoc pre).
    destruct (move_assign_within_prev (pre ++ (Some <$> xs)) post x z
      (length pre + length xs) (S (length pre + length xs)) tr HE) as [r1 ->];
      [by rewrite length_app, length_fmap|done|].
    rewrite <- (app_assoc pre).
    destruct (IH pre r1 (Some x :: post) (length pre + length xs)
      (S (length pre + length xs))
      (tr ++ [Ev MoveAssign (Slot (S (length pre + length xs)))]) HE eq_refl eq_refl)
      as [r ->].
    exists r. f_equal.
    + by rewrite <- !app_assoc.
    + rewrite evs_S_end, rev_app_distr. simpl. by rewrite <- app_assoc.
Qed.

Lemma move_assign_from_local_middle pre post r tmp i tr :
  regular E → i = length pre →
  ∃ t, move_assign_from_local E (pre ++ Some r :: post) i tmp tr =
       Ret t (pre ++ Some tmp :: post) (tr ++ [Ev MoveAssign (Slot i)]).
Proof.
  intros HE ->. unfold move_assign_from_local.
  rewrite live_middle by done.
  destruct (regular_move_assign E HE r tmp tr) as [t ->]. exists t.
  by rewrite insert_middle.
Qed.

Lemma Emplace_fit_regular c y xs1 xs2 w cap tr :
  regular E → run_init E c tr = Some y →
  length (xs1 ++ xs2 ++ [w]) < cap →
  Emplace E (length xs1) c (mk (xs1 ++ xs2 ++ [w]) cap) tr =
  Ret (length xs1) (mk (xs1 ++ y :: xs2 ++ [w]) cap)
    (tr ++ [Ev (init_op c) Temp; Ev MoveCtor (Slot (length (xs1 ++ xs2 ++ [w])))] ++
     rev (evs MoveAssign (S (length xs1)) (length xs2)) ++
     [Ev MoveAssign (Slot (length xs1)); Ev Dtor Temp]).
Proof.
  intros HE Hy Hlt.
  assert (length (xs1 ++ xs2 ++ [w]) = S (length xs1 + length xs2)) as Hn
    by (rewrite !length_app; simpl; lia).
  rewrite Hn in *.
  unfold Emplace, local_new, std_move_backward, mk.
  cbn [size_ data_ buffer_ capacity_ Capacity]. rewrite Hn, Hy.
  case_decide; [lia|]. case_decide; [lia|]. case_decide; [lia|].
  replace (S (length xs1 + length xs2) - 1) with (length xs1 + length xs2) by lia.
  rewrite (replicate_hole (cap - S (length xs1 + length xs2)) 0) by lia.
  cbn [replicate app]. rewrite !fmap_app. cbn [fmap list_fmap].
  rewrite <- !app_assoc. cbn [app].
  rewrite (app_assoc (Some <$> xs1) (Some <$> xs2)).
  destruct (move_construct_within_next ((Some <$> xs1) ++ (Some <$> xs2))
    (replicate (cap - S (length xs1 + length xs2) - 1) None) w
    (length xs1 + length xs2) (S (length xs1 + length xs2))
    (tr ++ [Ev (init_op c) Temp]) HE) as [r1 ->];
    [by rewrite length_app, !length_fmap|done|].
  case_decide; [|lia].
  replace (length xs1 + length xs2 - length xs1) with (length xs2) by lia.
  rewrite <- (app_assoc (Some <$> xs1)).
  destruct (move_backward_loop_right xs2 (Some <$> xs1) r1
    (Some w :: replicate (cap - S (length xs1 + length xs2) - 1) None)
    (length xs1 + length xs2) (S (length xs1 + length xs2))
    ((tr ++ [Ev (init_op c) Temp]) ++
     [Ev MoveCtor (Slot (S (length xs1 + length xs2)))]) HE) as [r2 ->];
    [by rewrite length_fmap|done|].
  destruct (move_assign_from_local_middle (Some <$> xs1)
    ((Some <$> xs2) ++ Some w :: replicate (cap - S (length xs1 + length xs2) - 1) None)
    r2 y (length xs1)
    (((tr ++ [Ev (init_op c) Temp]) ++
      [Ev MoveCtor (Slot (S (length xs1 + length xs2)))]) ++
     rev (evs MoveAssign (S (length (Some <$> xs1))) (length xs2))) HE)
    as [t ->]; [by rewrite length_fmap|].
  f_equal.
  - assert (length (xs1 ++ y :: xs2 ++ [w]) = S (S (length xs1 + length xs2)))
      as -> by (rewrite !length_app; simpl; rewrite length_app; simpl; lia).
    rewrite fmap_app. cbn [fmap list_fmap]. rewrite <- !app_assoc. cbn [app].
    by replace (cap - S (length xs1 + length xs2) - 1)
      with (cap - S (S (length xs1 + length xs2))) by lia.
  - rewrite length_fmap, <- !app_assoc. done.
Qed.

(** [Emplace] of a regular element type, on either path. *)
Lemma Emplace_regular c y xs1 xs2 cap tr :
  regular E → run_init E c tr = Some y → length (xs1 ++ xs2) ≤ cap →
  (length (xs1 ++ xs2) = cap → allocates E (max 1 (2 * cap)) tr) →
  ∃ cap1 tr1,
    length (xs1 ++ xs2) < cap1 ∧
    Emplace E (length xs1) c (mk (xs1 ++ xs2) cap) tr =
    Ret (length xs1) (mk (xs1 ++ y :: xs2) cap1) tr1.
Proof.
  intros HE Hy Hle Ha.
  assert (∀ n : nat, n < (if decide (n = 0) then 1 else n * 2)) as Hdouble
    by (intros n; case_decide; lia).
  destruct (decide (length (xs1 ++ xs2) = cap)) as [Hfull|Hfit].
  - (* the vector is full *)
    specialize (Ha Hfull). rewrite <- Hfull in *.
    destruct xs2 as [|x2 xs2].
    + rewrite app_nil_r in *. eexists _, _. split; [apply Hdouble|].
      unfold Emplace. rewrite size_mk.
      case_decide; [lia|]. case_decide; [|done].
      rewrite EmplaceBack_grow_eq by (by rewrite growth_capacity).
      cbv zeta. rewrite Hy.
      destruct (xfer_list_regular (growth_xfer E) xs1 0
        (tr ++ [Ev (init_op c) (Slot (length xs1))]) HE) as (rs & Hl & ->).
      cbn [fst snd]. rewrite fst_zip by lia.
      rewrite size_mk, length_app. simpl.
      replace (length xs1 + 1 - 1) with (length xs1) by lia. done.
    + eexists _, _. split; [apply Hdouble|].
      rewrite Emplace_grow_eq; [|simpl; lia|].
      2:{ replace (length (xs1 ++ x2 :: xs2) * 2)
            with (max 1 (2 * length (xs1 ++ x2 :: xs2))); [done|].
          rewrite length_app. simpl. lia. }
      cbv zeta. rewrite Hy.
      destruct (xfer_list_regular (growth_xfer E) xs1 0
        (tr ++ [Ev (init_op c) (Slot (length xs1))]) HE) as (rs1 & Hl1 & ->).
      cbn [fst snd].
      destruct (xfer_list_regular (growth_xfer E) (x2 :: xs2) (length xs1 + 1)
        ((tr ++ [Ev (init_op c) (Slot (length xs1))]) ++
         evs (xfer_op (growth_xfer E)) 0 (length xs1)) HE) as (rs2 & Hl2 & ->).
      cbn [fst snd]. rewrite !fst_zip by lia. done.
  - (* there is room *)
    destruct xs2 as [|x2 xs2 _] using rev_ind.
    + exists cap. eexists. split; [lia|].
      rewrite app_nil_r in *. unfold Emplace. rewrite size_mk.
      case_decide; [lia|]. case_decide; [|done].
      rewrite (EmplaceBack_fit c y) by (done || lia).
      rewrite size_mk, length_app. simpl.
      replace (length xs1 + 1 - 1) with (length xs1) by lia. done.
    + exists cap. eexists. split; [lia|].
      by rewrite (Emplace_fit_regular c y) by (done || lia).
Qed.

(** C9.  On a vector of regular elements, [Emplace] at a valid position
    [p] (the end included) of an element whose construction does not throw,
    the new buffer being allocated when the vector is full,
    returns [p] and yields the sequence with the new element inserted at
    [p]; [Erase] at the returned position then gives back the original
    sequence of elements: same size, same values at every index. *)
Theorem Emplace_Erase_roundtrip pos c y v tr :
  regular E → Inv v → pos ≤ Size v → run_init E c tr = Some y →
  (Size v = Capacity v → allocates E (max 1 (2 * Capacity v)) tr) →
  ∃ v1 tr1 v2 tr2,
    Emplace E pos c v tr = Ret pos v1 tr1 ∧
    elems v1 = take pos (elems v) ++ y :: drop pos (elems v) ∧
    Erase E pos v1 tr1 = Ret pos v2 tr2 ∧
    Inv v2 ∧
    elems v2 = elems v ∧
    Size v2 = Size v ∧
    (∀ i, at_index v2 i = at_index v i).
Proof.
  intros HE HI Hpos Hy Ha.
  pose proof (Inv_size v HI) as Hsz. pose proof (Inv_size_le v HI) as Hle.
  assert (length (take pos (elems v)) = pos) as Hp by (rewrite length_take; lia).
  pose proof (take_drop pos (elems v)) as Htd.
  destruct (Emplace_regular c y (take pos (elems v)) (drop pos (elems v))
    (Capacity v) tr HE Hy) as (cap1 & tr1 & Hcap1 & HEm).
  { by rewrite Htd. }
  { rewrite Htd, Hsz. exact Ha. }
  rewrite Htd in Hcap1. rewrite Htd, <- (Inv_canon v HI), Hp in HEm.
  pose proof (Erase_regular (take pos (elems v)) y (drop pos (elems v)) cap1 tr1 HE)
    as HEr.
  rewrite Htd, Hp in HEr.
  eexists _, _, _, _. split; [exact HEm|].
  split; [apply elems_mk|].
  split; [apply HEr|].
  { rewrite length_app. simpl. rewrite length_drop, Hp. lia. }
  split_and!.
  - apply Inv_mk. lia.
  - apply elems_mk.
  - unfold Size at 1. simpl. done.
  - intros i. by rewrite at_index_mk, at_index_elems.
Qed.

(** ** Copy assignment *)

(** C10.  Self copy-assignment [a = a], for any vector [a] of the store: the
    call returns, the store (so the size, the capacity and every element of
    [a]) is unchanged, and the trace is unchanged: no element was copied,
    assigned, destroyed or constructed. *)
Theorem copy_assign_self (this : nat) (st : list Vector) tr :
  is_Some (st !! this) →
  copy_assign E this this st tr = Ret tt st tr.
Proof.
  intros [a Ha]. unfold copy_assign. rewrite Ha. by case_decide.
Qed.

Lemma copy_assign_loop_index n : ∀ dst src i tr j b' tr',
  copy_assign_loop E n dst src i tr = Ret j b' tr' → j = i + n.
Proof.
  induction n as [|n IH]; intros dst src i tr j b' tr' H; simpl in H.
  - injection H as <- _ _. lia.
  - destruct (live src i) as [x|]; [|done].
    destruct (live dst i) as [y|]; [|done].
    destruct (assign_copy E y x tr) as [y'|]; [|done].
    apply IH in H. lia.
Qed.

Lemma Inv_end_not_live v : Inv v → live (buffer_ (data_ v)) (size_ v) = None.
Proof.
  intros (Hlen & Hle & _ & Hraw). unfold live.
  destruct (decide (size_ v < capacity_ (data_ v))) as [Hlt|Hge].
  - by rewrite Hraw by lia.
  - by rewrite lookup_ge_None_2 by lia.
Qed.

(** Copy assignment from a longer source that fits the capacity never
    returns: the copy of the excess elements starts one slot late, at
    [size_ + 1], and so runs one slot past the live elements of [rhs]. *)
Lemma copy_assign_body_longer_never_returns rhs a tr :
  Inv rhs → size_ a < size_ rhs → size_ rhs ≤ capacity_ (data_ a) →
  ∀ r a' tr', copy_assign_body E rhs a tr ≠ Ret r a' tr'.
Proof.
  intros HI Hlt Hle r a' tr' H. unfold copy_assign_body in H.
  case_decide; [lia|]. case_decide; [lia|].
  destruct (copy_assign_loop E (size_ a) _ _ 0 tr) as [i b1 tr1|b1 tr1|b1 tr1] eqn:Hloop;
    [|done|done].
  apply copy_assign_loop_index in Hloop. simpl in Hloop. subst i.
  unfold uninitialized_copy_n in H.
  destruct (uninitialized_n E Copying _ _ _ _ _ tr1)
    as [[] [src' b2] tr2|[src' b2] tr2|[src' b2] tr2] eqn:Hx; [|done|done].
  pose proof (uninitialized_n_source_live _ _ _ _ _ _ _ _ _ Hx
    (size_ rhs - size_ a - 1) ltac:(lia)) as Hlive.
  replace (size_ a + 1 + (size_ rhs - size_ a - 1)) with (size_ rhs) in Hlive by lia.
  rewrite Inv_end_not_live in Hlive by done.
  by destruct Hlive.
Qed.

(** ** The other branches of copy assignment, and the remaining operations

    On their normal paths these keep the invariant: each returns a vector
    of the form [mk xs cap]. *)

Lemma copy_assign_loop_regular xs : ∀ ys dpre dpost spre spost i tr,
  regular E → length ys = length xs →
  i = length dpre → i = length spre →
  copy_assign_loop E (length xs) (dpre ++ (Some <$> ys) ++ dpost)
    (spre ++ (Some <$> xs) ++ spost) i tr =
  Ret (i + length xs) (dpre ++ (Some <$> xs) ++ dpost)
    (tr ++ evs CopyAssign i (length xs)).
Proof.
  induction xs as [|x xs IH]; intros ys dpre dpost spre spost i tr HE Hl Hd Hs.
  - destruct ys; [|done]. simpl. by rewrite Nat.add_0_r, app_nil_r.
  - destruct ys as [|y ys]; [done|]. injection Hl as Hl.
    cbn [length copy_assign_loop fmap list_fmap app].
    rewrite (live_middle spre _ x i), (live_middle dpre _ y i) by done.
    rewrite (regular_copy_assign E HE).
    rewrite (insert_middle dpre _ (Some y) (Some x) i) by done.
    rewrite (cons_middle (Some x) dpre ((Some <$> ys) ++ dpost)).
    rewrite (cons_middle (Some x) spre ((Some <$> xs) ++ spost)).
    rewrite (app_assoc dpre [Some x]), (app_assoc spre [Some x]).
    rewrite (IH ys (dpre ++ [Some x]) dpost (spre ++ [Some x]) spost (S i))
      by (done || (rewrite length_app; simpl; lia)).
    rewrite evs_S, <- !app_assoc. cbn [app].
    by replace (S i + length xs) with (i + S (length xs)) by lia.
Qed.

(** The source is not longer than the destination: the prefix is assigned
    and the excess elements of the destination are destroyed. *)
Lemma copy_assign_body_shorter xs cap_rhs ys cap tr :
  regular E → length xs ≤ length ys → length ys ≤ cap →
  copy_assign_body E (mk xs cap_rhs) (mk ys cap) tr =
  Ret tt (mk xs cap)
    (tr ++ evs CopyAssign 0 (length xs) ++
     evs Dtor (length xs) (length ys - length xs)).
Proof.
  intros HE Hle Hcap. unfold copy_assign_body.
  cbn [mk size_ data_ buffer_ capacity_].
  case_decide; [lia|]. case_decide; [|lia].
  rewrite <- (take_drop (length xs) ys) at 1.
  rewrite fmap_app, <- app_assoc.
  pose proof (copy_assign_loop_regular xs (take (length xs) ys) []
    ((Some <$> drop (length xs) ys) ++ replicate (cap - length ys) None) []
    (replicate (cap_rhs - length xs) None) 0 tr HE) as Hloop.
  cbn [app] in Hloop. rewrite Hloop by (done || (rewrite length_take; lia)).
  clear Hloop. cbn [Nat.add].
  rewrite (destroy_n_range (drop (length xs) ys) (Some <$> xs))
    by (rewrite ?length_fmap, ?length_drop; done).
  rewrite <- replicate_add.
  replace (length ys - length xs + (cap - length ys)) with (cap - length xs) by lia.
  by rewrite <- app_assoc.
Qed.

(** The source exceeds the capacity: a copy is built and swapped in, and the
    old elements are destroyed with the copy. *)
Lemma copy_assign_body_larger xs cap_rhs ys cap tr :
  regular E → cap < length xs → allocates E (length xs) tr →
  copy_assign_body E (mk xs cap_rhs) (mk ys cap) tr =
  Ret tt (mk xs (length xs))
    (tr ++ evs CopyCtor 0 (length xs) ++ evs Dtor 0 (length ys)).
Proof.
  intros HE Hlt Ha. unfold copy_assign_body.
  cbn [size_ data_ capacity_ mk] . case_decide; [|lia].
  change {| data_ := {| buffer_ := (Some <$> xs) ++ replicate (cap_rhs - length xs) None;
                        capacity_ := cap_rhs |}; size_ := length xs |}
    with (mk xs cap_rhs).
  rewrite Vector_copy_eq by done. cbv zeta. rewrite <- xfer_list_Copying.
  destruct (xfer_list_regular Copying xs 0 tr HE) as (rs & Hl & ->).
  cbn [fst snd]. rewrite fst_zip by lia.
  unfold Swap, Vector_destroy, DestroyN. cbn [mk size_ data_ buffer_].
  rewrite destroy_n_live0. by rewrite <- app_assoc.
Qed.

(** [PopBack] *)
Lemma PopBack_last xs x cap tr :
  length xs < cap →
  PopBack (mk (xs ++ [x]) cap) tr =
  Ret tt (mk xs cap) (tr ++ [Ev Dtor (Slot (length xs))]).
Proof.
  intros Hlt. unfold PopBack, mk. cbn [size_ data_ buffer_ capacity_].
  rewrite length_app. cbn [length]. case_decide; [lia|].
  replace (length xs + 1 - 1) with (length xs) by lia.
  rewrite fmap_app, <- app_assoc. cbn [fmap list_fmap app].
  rewrite destroy_one by (by rewrite length_fmap).
  rewrite <- replicate_S.
  by replace (S (cap - (length xs + 1))) with (cap - length xs) by lia.
Qed.

(** [Resize] to a smaller size destroys the tail. *)
Lemma Resize_shrink n xs cap tr :
  n < length xs → length xs ≤ cap →
  Resize E n (mk xs cap) tr =
  Ret tt (mk (take n xs) cap) (tr ++ evs Dtor n (length xs - n)).
Proof.
  intros Hn Hcap. unfold Resize, DestroyN. cbn [mk size_ data_ buffer_ capacity_].
  case_decide; [|lia].
  rewrite <- (take_drop n xs) at 1. rewrite fmap_app, <- app_assoc.
  rewrite (destroy_n_range (drop n xs) (Some <$> take n xs))
    by (rewrite ?length_fmap, ?length_drop, ?length_take; lia).
  rewrite <- replicate_add. unfold mk. rewrite length_take_le by lia.
  by replace (length xs - n + (cap - length xs)) with (cap - n) by lia.
Qed.

(** [Vector(Vector&&)], [Swap] and move assignment exchange whole vectors. *)
Lemma Vector_move_spec (other : @Vector T) :
  Vector_move other = (other, mk [] 0).
Proof. by destruct other as [[b cap] n]. Qed.

Lemma move_assign_distinct (this rhs : nat) (st : list (@Vector T)) v w tr :
  this ≠ rhs → st !! this = Some v → st !! rhs = Some w →
  move_assign this rhs st tr = Ret tt (<[rhs := v]> (<[this := w]> st)) tr.
Proof.
  intros Hne Hv Hw. unfold move_assign. rewrite Hv, Hw. by case_decide.
Qed.

(** Copy assignment between two distinct vectors of regular elements,
    when the source is not longer than the destination or exceeds its
    capacity: the destination gets the elements of the source and keeps the
    invariant.  (The remaining case is the defective one.) *)
Lemma copy_assign_sound (this rhs : nat) (st : list (@Vector T)) v w tr :
  regular E → this ≠ rhs → st !! this = Some v → st !! rhs = Some w →
  Inv v → Inv w → Size w ≤ Size v ∨ Capacity v < Size w →
  (Capacity v < Size w → allocates E (Size w) tr) →
  ∃ v' tr',
    copy_assign E this rhs st tr = Ret tt (<[this := v']> st) tr' ∧
    Inv v' ∧ elems v' = elems w.
Proof.
  intros HE Hne Hv Hw HIv HIw Hcase Ha. unfold copy_assign.
  rewrite Hv, Hw. case_decide; [|done].
  pose proof (Inv_size v HIv) as Hsv. pose proof (Inv_size w HIw) as Hsw.
  pose proof (Inv_size_le v HIv) as Hlv.
  rewrite (Inv_canon v HIv), (Inv_canon w HIw).
  destruct Hcase as [Hshort|Hlarge].
  - rewrite copy_assign_body_shorter by (done || lia).
    eexists _, _. split; [done|]. rewrite !elems_mk.
    split; [apply Inv_mk; lia|done].
  - rewrite copy_assign_body_larger
      by (done || lia || (rewrite Hsw; apply Ha; lia)).
    eexists _, _. split; [done|]. rewrite !elems_mk.
    split; [apply Inv_mk; lia|done].
Qed.

(** Value construction with a default constructor that returns [d]. *)
Lemma value_construct_loop_default d n : ∀ pre post cur tr,
  (∀ tr', construct_default E tr' = Some d) → cur = length pre →
  value_construct_loop E n (pre ++ replicate n None ++ post) cur tr =
  Ret tt (pre ++ replicate n (Some d) ++ post, cur + n)
    (tr ++ evs DefaultCtor cur n).
Proof.
  induction n as [|n IH]; intros pre post cur tr Hd ->.
  - simpl. by rewrite Nat.add_0_r, app_nil_r.
  - cbn [value_construct_loop replicate app].
    rewrite (placement_new_raw _ _ _ _ d) by (done || apply Hd).
    rewrite (cons_middle (Some d) pre), app_assoc.
    rewrite (IH (pre ++ [Some d]) post) by (done || by rewrite length_app, Nat.add_1_r).
    rewrite evs_S, <- !app_assoc. cbn [app].
    by replace (S (length pre) + n) with (length pre + S n) by lia.
Qed.

Lemma Vector_sized_default d n tr :
  (∀ tr', construct_default E tr' = Some d) → allocates E n tr →
  Vector_sized E n tr = Ret (mk (replicate n d) n) tt (tr ++ evs DefaultCtor 0 n).
Proof.
  intros Hd Ha. unfold Vector_sized, uninitialized_value_construct_n.
  rewrite RawMemory_new_allocates by done. cbn [buffer_].
  pose proof (value_construct_loop_default d n [] [] 0 tr Hd eq_refl) as H.
  cbn [app] in H. rewrite !app_nil_r in H. rewrite H.
  unfold mk. by rewrite fmap_replicate, length_replicate, Nat.sub_diag, app_nil_r.
Qed.

(** [Resize] to a larger size reserves when needed and value-constructs the
    new tail. *)
Lemma Resize_grow d n xs cap tr :
  regular E → (∀ tr', construct_default E tr' = Some d) →
  length xs ≤ n → length xs ≤ cap → (cap < n → allocates E n tr) →
  ∃ tr', Resize E n (mk xs cap) tr =
         Ret tt (mk (xs ++ replicate (n - length xs) d) (max cap n)) tr'.
Proof.
  intros HE Hd Hn Hcap Ha. unfold Resize. rewrite size_mk.
  case_decide; [lia|].
  assert (∀ cap' tr1, n ≤ cap' →
    uninitialized_value_construct_n E (buffer_ (data_ (mk xs cap'))) (length xs)
      (n - length xs) tr1 =
    Ret tt (buffer_ (data_ (mk (xs ++ replicate (n - length xs) d) cap')))
      (tr1 ++ evs DefaultCtor (length xs) (n - length xs))) as Hfill.
  { intros cap' tr1 Hle. unfold uninitialized_value_construct_n, mk.
    cbn [data_ buffer_].
    rewrite (replicate_split (cap' - length xs) (n - length xs)) by lia.
    rewrite (value_construct_loop_default d _ (Some <$> xs))
      by (done || by rewrite length_fmap).
    rewrite fmap_app, fmap_replicate, <- app_assoc, length_app, length_replicate.
    by replace (cap' - length xs - (n - length xs))
      with (cap' - (length xs + (n - length xs))) by lia. }
  assert (length (xs ++ replicate (n - length xs) d) = n) as Hlen
    by (rewrite length_app, length_replicate; lia).
  unfold Capacity. cbn [mk data_ capacity_]. case_decide.
  - rewrite Reserve_grow by (done || lia || by apply Ha).
    change {| data_ := {| buffer_ := (Some <$> xs) ++ replicate (n - length xs) None;
                          capacity_ := n |}; size_ := length xs |} with (mk xs n).
    rewrite Hfill by lia. eexists. f_equal.
    unfold mk. cbn [data_ buffer_ capacity_ size_]. rewrite Hlen.
    by replace (cap `max` n) with n by lia.
  - change {| data_ := {| buffer_ := (Some <$> xs) ++ replicate (cap - length xs) None;
                          capacity_ := cap |}; size_ := length xs |} with (mk xs cap).
    rewrite Hfill by lia. eexists. f_equal.
    unfold mk. cbn [data_ buffer_ capacity_ size_]. rewrite Hlen.
    by replace (cap `max` n) with cap by lia.
Qed.

(** * Further properties of the operations *)

(** ** Copy assignment between distinct vectors *)

Lemma store_insert_other (st : list (@Vector T)) (this rhs : nat) v' w :
  this ≠ rhs → st !! rhs = Some w → <[this := v']> st !! rhs = Some w.
Proof. intros Hne Hw. by rewrite list_lookup_insert_ne. Qed.

(** X1.  [a = b] for distinct vectors of regular elements with
    [b.Size() <= a.Size()]: the first [b.Size()] elements of [a] are
    copy-assigned from [b], in index order, the excess elements of [a] are
    destroyed, and nothing is constructed.  [a] keeps its capacity, has the
    size and the elements of [b], and satisfies the invariant; [b] is as it
    was. *)
Theorem copy_assign_shorter_source (this rhs : nat) (st : list (@Vector T)) v w tr :
  regular E → this ≠ rhs → st !! this = Some v → st !! rhs = Some w →
  Inv v → Inv w → Size w ≤ Size v →
  ∃ v',
    copy_assign E this rhs st tr =
      Ret tt (<[this := v']> st)
        (tr ++ evs CopyAssign 0 (Size w) ++ evs Dtor (Size w) (Size v - Size w)) ∧
    Inv v' ∧ Capacity v' = Capacity v ∧ Size v' = Size w ∧
    elems v' = elems w ∧
    <[this := v']> st !! rhs = Some w.
Proof.
  intros HE Hne Hv Hw HIv HIw Hle.
  pose proof (Inv_size v HIv) as Hsv. pose proof (Inv_size w HIw) as Hsw.
  pose proof (Inv_size_le v HIv) as Hlv.
  pose proof (copy_assign_body_shorter (elems w) (Capacity w) (elems v)
    (Capacity v) tr HE) as Hb.
  rewrite <- (Inv_canon v HIv), <- (Inv_canon w HIw), Hsv, Hsw in Hb.
  exists (mk (elems w) (Capacity v)).
  unfold copy_assign. rewrite Hv, Hw. case_decide; [|done].
  rewrite Hb by lia.
  split_and!; try done.
  - apply Inv_mk. lia.
  - apply elems_mk.
  - by apply store_insert_other.
Qed.

(** The source exceeds the capacity, for any element type. *)
Lemma copy_assign_body_larger_eq xs cap_rhs ys cap tr :
  cap < length xs → allocates E (length xs) tr →
  copy_assign_body E (mk xs cap_rhs) (mk ys cap) tr =
  let r := copy_run E xs 0 tr in
  if r.2
  then Ret tt (mk r.1.*1 (length xs))
         (tr ++ evs CopyCtor 0 (length xs) ++ evs Dtor 0 (length ys))
  else Exc (mk ys cap)
         (tr ++ evs CopyCtor 0 (S (length r.1)) ++ evs Dtor 0 (length r.1)).
Proof.
  intros Hlt Ha. cbv zeta. unfold copy_assign_body.
  rewrite !size_mk. unfold mk at 1. cbn [data_ capacity_].
  case_decide; [|lia].
  rewrite Vector_copy_eq by done. cbv zeta.
  destruct (copy_run E xs 0 tr) as [l ok]. cbn [fst snd].
  destruct ok; [|done].
  unfold Swap, Vector_destroy, DestroyN. rewrite size_mk.
  change (buffer_ (data_ (mk ys cap)))
    with ((Some <$> ys) ++ replicate (cap - length ys) None).
  rewrite destroy_n_live0. by rewrite <- app_assoc.
Qed.

(** X2.  [a = b] for distinct vectors with [b.Size() > a.Capacity()], the
    buffer of [b.Size()] slots being allocated, for an element type whose
    copies, when they return, return the value copied.  The copy constructor
    of [T] is called on the elements of [b] in index order ([copy_run]).  If
    every call returns, [a] gets a fresh buffer of capacity exactly
    [b.Size()] with the elements of [b], and the old elements of [a] are
    destroyed afterwards.  If the call on some element [k] throws, the [k]
    copies built are destroyed and the store, [a] included, is exactly as
    before (strong guarantee). *)
Theorem copy_assign_beyond_capacity (this rhs : nat) (st : list (@Vector T)) v w tr :
  copy_faithful E → this ≠ rhs → st !! this = Some v → st !! rhs = Some w →
  Inv v → Inv w → Capacity v < Size w → allocates E (Size w) tr →
  let r := copy_run E (elems w) 0 tr in
  if r.2 then
    ∃ v',
      copy_assign E this rhs st tr =
        Ret tt (<[this := v']> st)
          (tr ++ evs CopyCtor 0 (Size w) ++ evs Dtor 0 (Size v)) ∧
      Inv v' ∧ Capacity v' = Size w ∧ Size v' = Size w ∧ elems v' = elems w ∧
      <[this := v']> st !! rhs = Some w
  else
    ∃ k x,
      k = length r.1 ∧ k < Size w ∧
      elems w !! k = Some x ∧
      construct_copy E x (tr ++ evs CopyCtor 0 k) = None ∧
      copy_assign E this rhs st tr =
        Exc st (tr ++ evs CopyCtor 0 (S k) ++ evs Dtor 0 k).
Proof.
  intros Hf Hne Hv Hw HIv HIw Hlt Ha.
  pose proof (Inv_size v HIv) as Hsv. pose proof (Inv_size w HIw) as Hsw.
  pose proof (copy_assign_body_larger_eq (elems w) (Capacity w) (elems v)
    (Capacity v) tr) as Hb.
  rewrite <- (Inv_canon v HIv), <- (Inv_canon w HIw), Hsv, Hsw in Hb.
  specialize (Hb Hlt Ha). cbv zeta in *.
  unfold copy_assign. rewrite Hv, Hw. case_decide; [|done]. rewrite Hb.
  pose proof (copy_run_values (elems w) 0 tr Hf) as Hval.
  pose proof (copy_run_complete (elems w) 0 tr) as Hc.
  pose proof (copy_run_partial (elems w) 0 tr) as Hp.
  pose proof (copy_run_throws (elems w) 0 tr) as Ht.
  destruct (copy_run E (elems w) 0 tr) as [l ok].
  cbn [fst snd] in *. destruct ok.
  - eexists. split; [done|].
    rewrite Hval, Hc, firstn_all by done.
    split_and!.
    + apply Inv_mk. lia.
    + done.
    + unfold Size at 1. simpl. done.
    + apply elems_mk.
    + by apply store_insert_other.
  - destruct (Ht eq_refl) as (x & Hx & Hthrow).
    exists (length l), x. split; [done|].
    split; [rewrite <- Hsw; by apply Hp|].
    split; [done|]. split; [done|]. by rewrite list_insert_id.
Qed.

(** X3.  [a = b] for distinct vectors with
    [a.Size() < b.Size() <= a.Capacity()] never returns normally, whatever
    the element type: unless an assignment or a copy throws first, the copy
    of the excess elements reads the slot of [b] at index [b.Size()], which
    holds no object. *)
Theorem copy_assign_longer_source_never_returns
    (this rhs : nat) (st : list (@Vector T)) v w tr :
  this ≠ rhs → st !! this = Some v → st !! rhs = Some w →
  Inv w → Size v < Size w → Size w ≤ Capacity v →
  ¬ returns (copy_assign E this rhs st tr).
Proof.
  intros Hne Hv Hw HIw Hlt Hle. unfold copy_assign. rewrite Hv, Hw.
  case_decide; [|done].
  pose proof (copy_assign_body_longer_never_returns w v tr HIw Hlt Hle) as Hnr.
  destruct (copy_assign_body E w v tr) as [[] v' tr'|v' tr'|v' tr']; simpl; [|tauto|tauto].
  intros _. by eapply Hnr.
Qed.

(** ** Appending and removing at the end *)

Lemma EmplaceBack_fit_throw c xs cap tr :
  run_init E c tr = None → length xs < cap →
  EmplaceBack E c (mk xs cap) tr =
  Exc (mk xs cap) (tr ++ [Ev (init_op c) (Slot (length xs))]).
Proof.
  intros Hy Hlt. unfold EmplaceBack, mk. cbn [size_ data_ buffer_ capacity_ Capacity].
  case_decide; [lia|].
  rewrite (replicate_hole (cap - length xs) 0) by lia. cbn [replicate app].
  by rewrite placement_new_throw by (done || by rewrite length_fmap).
Qed.

(** [EmplaceBack] of a regular element type, on either path: the capacity
    is kept when there is room and becomes [max(1, 2 * capacity)] when the
    vector is full. *)
Lemma EmplaceBack_regular c y xs cap tr :
  regular E → run_init E c tr = Some y → length xs ≤ cap →
  (length xs = cap → allocates E (max 1 (2 * cap)) tr) →
  ∃ tr1,
    EmplaceBack E c (mk xs cap) tr =
    Ret (length xs)
      (mk (xs ++ [y]) (if decide (length xs = cap) then max 1 (2 * cap) else cap))
      tr1.
Proof.
  intros HE Hy Hle Ha. case_decide as Hfull.
  - specialize (Ha Hfull). rewrite <- Hfull in *.
    rewrite EmplaceBack_grow_eq by (by rewrite growth_capacity).
    cbv zeta. rewrite Hy.
    destruct (xfer_list_regular (growth_xfer E) xs 0
      (tr ++ [Ev (init_op c) (Slot (length xs))]) HE) as (rs & Hl & ->).
    cbn [fst snd]. rewrite fst_zip by lia. eexists. do 2 f_equal.
    case_decide; lia.
  - rewrite (EmplaceBack_fit c y) by (done || lia). eauto.
Qed.

(** X4.  [EmplaceBack], and so both [PushBack]s, on a vector with spare
    capacity, for any element type: the only call made is the construction
    of the new element in slot [Size()].  When it returns, the element is
    appended, the capacity is unchanged and no existing element is touched;
    when it throws, the vector is exactly as before. *)
Theorem EmplaceBack_with_room c v tr :
  Inv v → Size v < Capacity v →
  match run_init E c tr with
  | Some y =>
      ∃ v',
        EmplaceBack E c v tr =
          Ret (Size v) v' (tr ++ [Ev (init_op c) (Slot (Size v))]) ∧
        Inv v' ∧ Capacity v' = Capacity v ∧ Size v' = S (Size v) ∧
        elems v' = elems v ++ [y]
  | None =>
      EmplaceBack E c v tr = Exc v (tr ++ [Ev (init_op c) (Slot (Size v))])
  end.
Proof.
  intros HI Hroom. pose proof (Inv_size v HI) as Hsz.
  destruct (run_init E c tr) as [y|] eqn:Hy.
  - pose proof (EmplaceBack_fit c y (elems v) (Capacity v) tr Hy) as Heq.
    rewrite <- (Inv_canon v HI), Hsz in Heq.
    eexists. split; [apply Heq; lia|].
    split_and!.
    + apply Inv_mk. rewrite length_app. simpl. lia.
    + done.
    + unfold Size at 1. simpl. rewrite length_app. simpl. lia.
    + apply elems_mk.
  - pose proof (EmplaceBack_fit_throw c (elems v) (Capacity v) tr Hy) as Heq.
    rewrite <- (Inv_canon v HI), Hsz in Heq. apply Heq. lia.
Qed.

(** X5.  [PopBack] on a non-empty vector, for any element type: the last
    element is destroyed, and nothing else is called; the size decreases by
    one, the capacity and the other elements are unchanged, the invariant is
    kept. *)
Theorem PopBack_removes_last v tr :
  Inv v → 0 < Size v →
  ∃ v',
    PopBack v tr = Ret tt v' (tr ++ [Ev Dtor (Slot (Size v - 1))]) ∧
    Inv v' ∧ Capacity v' = Capacity v ∧ Size v' = Size v - 1 ∧
    elems v' = take (Size v - 1) (elems v).
Proof.
  intros HI Hpos. pose proof (Inv_size v HI) as Hsz.
  pose proof (Inv_size_le v HI) as Hle.
  destruct (lookup_lt_is_Some_2 (elems v) (Size v - 1) ltac:(lia)) as [x Hx].
  assert (elems v = take (Size v - 1) (elems v) ++ [x]) as Hsplit.
  { rewrite <- (take_drop_middle (elems v) (Size v - 1) x Hx) at 1.
    f_equal. rewrite drop_ge by lia. done. }
  assert (length (take (Size v - 1) (elems v)) = Size v - 1) as Hl
    by (rewrite length_take; lia).
  pose proof (PopBack_last (take (Size v - 1) (elems v)) x (Capacity v) tr) as Heq.
  rewrite <- Hsplit, <- (Inv_canon v HI), Hl in Heq.
  eexists. split; [apply Heq; lia|].
  split_and!.
  - apply Inv_mk. lia.
  - done.
  - unfold Size at 1. simpl. done.
  - apply elems_mk.
Qed.

(** X6.  [PushBack(x)] followed by [PopBack()] on a vector of regular
    elements (the new buffer being allocated when the vector is full) gives
    back the sequence of elements and the size; the capacity is the one
    [PushBack] left, [max(1, 2 * Capacity())] if the vector was full and the
    old one otherwise. *)
Theorem PushBack_PopBack_roundtrip x v tr :
  regular E → Inv v →
  (Size v = Capacity v → allocates E (max 1 (2 * Capacity v)) tr) →
  ∃ v1 tr1 v2 tr2,
    PushBack E x v tr = Ret tt v1 tr1 ∧
    PopBack v1 tr1 = Ret tt v2 tr2 ∧
    Inv v2 ∧ elems v2 = elems v ∧ Size v2 = Size v ∧
    Capacity v2 =
      (if decide (Size v = Capacity v) then max 1 (2 * Capacity v) else Capacity v).
Proof.
  intros HE HI Ha. pose proof (Inv_size v HI) as Hsz.
  pose proof (Inv_size_le v HI) as Hle.
  destruct (EmplaceBack_regular (ByCopy x) x (elems v) (Capacity v) tr HE
    (regular_copy E HE x tr) Hle) as [tr1 Heq].
  { by rewrite Hsz. }
  rewrite <- (Inv_canon v HI), Hsz in Heq.
  set (cap1 := if decide (Size v = Capacity v) then max 1 (2 * Capacity v)
               else Capacity v) in *.
  assert (Size v < cap1) as Hcap1 by (unfold cap1; case_decide; lia).
  eexists _, _, _, _. split; [unfold PushBack; by rewrite Heq|].
  split; [apply PopBack_last; lia|].
  split_and!.
  - apply Inv_mk. lia.
  - apply elems_mk.
  - unfold Size at 1. simpl. done.
  - done.
Qed.

(** ** Moving whole vectors *)

Lemma Vector_destroy_live v tr :
  Inv v → Vector_destroy v tr = Ret tt tt (tr ++ evs Dtor 0 (Size v)).
Proof.
  intros HI. rewrite (Inv_canon v HI) at 1. unfold Vector_destroy, DestroyN.
  rewrite size_mk.
  change (buffer_ (data_ (mk (elems v) (Capacity v))))
    with ((Some <$> elems v) ++ replicate (Capacity v - length (elems v)) None).
  rewrite destroy_n_live0. by rewrite (Inv_size v HI).
Qed.

(** X7.  The move constructor hands the buffer over: the new vector is the
    old one, slots and capacity included, and the source is left empty with
    capacity 0, satisfying the invariant.  Destroying the source afterwards
    calls no destructor and destroying the new vector destroys each element
    once, in index order: no element is destroyed twice. *)
Theorem Vector_move_leaves_empty (other : @Vector T) tr :
  Inv other →
  ∃ v other',
    Vector_move other = (v, other') ∧
    v = other ∧
    Inv other' ∧ Size other' = 0 ∧ Capacity other' = 0 ∧
    Vector_destroy other' tr = Ret tt tt tr ∧
    Vector_destroy v tr = Ret tt tt (tr ++ evs Dtor 0 (Size other)).
Proof.
  intros HI. exists other, (mk [] 0).
  split; [apply Vector_move_spec|]. split; [done|].
  split; [apply Inv_mk; simpl; lia|].
  split; [done|]. split; [done|]. split; [done|].
  by apply Vector_destroy_live.
Qed.

(** X8.  Move assignment exchanges the two vectors and calls no element
    operation: [this] gets the buffer, size and capacity of [rhs], and [rhs]
    gets what [this] had (it is not emptied); every other vector of the
    store is untouched, and assigning back the same way restores the store.
    With [this == &rhs] nothing changes. *)
Theorem move_assign_exchanges (this rhs : nat) (st : list (@Vector T)) v w tr :
  st !! this = Some v → st !! rhs = Some w →
  ∃ st',
    move_assign this rhs st tr = Ret tt st' tr ∧
    st' !! this = Some w ∧ st' !! rhs = Some v ∧
    (∀ i, i ≠ this → i ≠ rhs → st' !! i = st !! i) ∧
    (this = rhs → st' = st) ∧
    move_assign this rhs st' tr = Ret tt st tr.
Proof.
  intros Hv Hw.
  pose proof (lookup_lt_Some _ _ _ Hv) as Hlt. pose proof (lookup_lt_Some _ _ _ Hw) as Hlw.
  unfold move_assign. rewrite Hv, Hw. unfold Swap. case_decide as Hne.
  - exists (<[rhs := v]> (<[this := w]> st)).
    assert (<[rhs := v]> (<[this := w]> st) !! this = Some w) as H1.
    { rewrite list_lookup_insert_ne by done.
      by rewrite list_lookup_insert_eq. }
    assert (<[rhs := v]> (<[this := w]> st) !! rhs = Some v) as H2.
    { by rewrite list_lookup_insert_eq by (by rewrite length_insert). }
    split; [done|]. split; [done|]. split; [done|].
    split. { intros i Hi1 Hi2. by rewrite !list_lookup_insert_ne. }
    split; [done|].
    rewrite H1, H2. f_equal.
    apply list_eq. intros i.
    destruct (decide (i = rhs)) as [->|Hr].
    { rewrite list_lookup_insert_eq by (by rewrite !length_insert). done. }
    rewrite list_lookup_insert_ne by done.
    destruct (decide (i = this)) as [->|Ht].
    { rewrite list_lookup_insert_eq by (by rewrite !length_insert). done. }
    by rewrite !list_lookup_insert_ne.
  - assert (this = rhs) as <- by (destruct (decide (this = rhs)); [done|tauto]).
    exists st. rewrite Hv. split; [done|]. split; [congruence|]. split; [done|].
    split; [done|]. split; [done|]. done.
Qed.

(** ** Value construction: [Vector(size)] and [Resize] *)

Lemma default_list_length n cur tr :
  length (default_list E n cur tr).1 ≤ n.
Proof.
  revert cur tr. induction n as [|n IH]; intros cur tr; simpl; [lia|].
  destruct (construct_default E tr) as [d|]; simpl; [|lia].
  specialize (IH (S cur) (tr ++ [Ev DefaultCtor (Slot cur)])).
  destruct (default_list E n _ _) as [l ok]; simpl in *. lia.
Qed.

Lemma default_list_complete n cur tr :
  (default_list E n cur tr).2 = true → length (default_list E n cur tr).1 = n.
Proof.
  revert cur tr. induction n as [|n IH]; intros cur tr; simpl; [done|].
  destruct (construct_default E tr) as [d|]; simpl; [|done].
  specialize (IH (S cur) (tr ++ [Ev DefaultCtor (Slot cur)])).
  destruct (default_list E n _ _) as [l ok]; simpl in *. intros H. by rewrite IH.
Qed.

Lemma default_list_partial n cur tr :
  (default_list E n cur tr).2 = false → length (default_list E n cur tr).1 < n.
Proof.
  revert cur tr. induction n as [|n IH]; intros cur tr; simpl; [done|].
  destruct (construct_default E tr) as [d|]; simpl; [|lia].
  specialize (IH (S cur) (tr ++ [Ev DefaultCtor (Slot cur)])).
  destruct (default_list E n _ _) as [l ok]; simpl in *. intros H.
  specialize (IH H). lia.
Qed.

Lemma value_construct_loop_eq n : ∀ pre post cur tr,
  cur = length pre →
  value_construct_loop E n (pre ++ replicate n None ++ post) cur tr =
  let r := default_list E n cur tr in
  if r.2
  then Ret tt (pre ++ (Some <$> r.1) ++ post, cur + n) (tr ++ evs DefaultCtor cur n)
  else Exc (pre ++ (Some <$> r.1) ++ replicate (n - length r.1) None ++ post,
            cur + length r.1)
         (tr ++ evs DefaultCtor cur (S (length r.1))).
Proof.
  induction n as [|n IH]; intros pre post cur tr ->; cbv zeta.
  - simpl. by rewrite Nat.add_0_r, app_nil_r.
  - cbn [value_construct_loop replicate app default_list].
    destruct (construct_default E tr) as [d|] eqn:Hd.
    + rewrite (placement_new_raw _ _ _ _ d) by done.
      rewrite (cons_middle (Some d) pre), app_assoc.
      rewrite (IH (pre ++ [Some d]) post) by (by rewrite length_app, Nat.add_1_r).
      cbv zeta. cbn [init_op].
      destruct (default_list E n (S (length pre)) (tr ++ [Ev DefaultCtor (Slot (length pre))]))
        as [l ok].
      cbn [fst snd fmap list_fmap length]. destruct ok.
      * rewrite evs_S, <- !app_assoc. cbn [app].
        by replace (S (length pre) + n) with (length pre + S n) by lia.
      * rewrite (evs_S _ _ (S (length l))), <- !app_assoc. cbn [app].
        replace (S (length pre) + length l) with (length pre + S (length l)) by lia.
        by replace (S n - S (length l)) with (n - length l) by lia.
    + rewrite placement_new_throw by done.
      cbn [fst snd fmap list_fmap length app init_op]. rewrite Nat.add_0_r.
      by rewrite evs_S, evs_0.
Qed.

(** [std::uninitialized_value_construct_n] on raw slots: all the objects are
    built, or the ones built before the throwing constructor are destroyed
    and the slots are raw again. *)
Lemma uninitialized_value_construct_n_eq n pre post first tr :
  first = length pre →
  uninitialized_value_construct_n E (pre ++ replicate n None ++ post) first n tr =
  let r := default_list E n first tr in
  if r.2
  then Ret tt (pre ++ (Some <$> r.1) ++ post) (tr ++ evs DefaultCtor first n)
  else Exc (pre ++ replicate n None ++ post)
         (tr ++ evs DefaultCtor first (S (length r.1)) ++ evs Dtor first (length r.1)).
Proof.
  intros ->. unfold uninitialized_value_construct_n.
  rewrite value_construct_loop_eq by done. cbv zeta.
  pose proof (default_list_length n (length pre) tr) as Hl.
  destruct (default_list E n (length pre) tr) as [l ok]. cbn [fst snd] in *.
  destruct ok; [done|].
  replace (length pre + length l - length pre) with (length l) by lia.
  rewrite destroy_n_live by done.
  rewrite (app_assoc (replicate (length l) None)), <- replicate_add, <- !app_assoc.
  by replace (length l + (n - length l)) with n by lia.
Qed.

Lemma value_fill_eq xs cap n tr :
  length xs ≤ n → n ≤ cap →
  uninitialized_value_construct_n E (buffer_ (data_ (mk xs cap))) (length xs)
    (n - length xs) tr =
  let r := default_list E (n - length xs) (length xs) tr in
  if r.2
  then Ret tt (buffer_ (data_ (mk (xs ++ r.1) cap)))
         (tr ++ evs DefaultCtor (length xs) (n - length xs))
  else Exc (buffer_ (data_ (mk xs cap)))
         (tr ++ evs DefaultCtor (length xs) (S (length r.1))
             ++ evs Dtor (length xs) (length r.1)).
Proof.
  intros Hn Hcap. unfold mk. cbn [data_ buffer_].
  rewrite (replicate_split (cap - length xs) (n - length xs)) at 1 by lia.
  rewrite uninitialized_value_construct_n_eq by (by rewrite length_fmap).
  cbv zeta.
  pose proof (default_list_complete (n - length xs) (length xs) tr) as Hc.
  destruct (default_list E (n - length xs) (length xs) tr) as [l ok].
  cbn [fst snd] in *. destruct ok.
  - specialize (Hc eq_refl).
    rewrite fmap_app, <- app_assoc, length_app, Hc.
    by replace (cap - length xs - (n - length xs))
      with (cap - (length xs + (n - length xs))) by lia.
  - by rewrite <- (replicate_split (cap - length xs) (n - length xs)) by lia.
Qed.

(** [Resize] to a size within the capacity. *)
Lemma Resize_within_eq xs cap n tr :
  length xs ≤ n → n ≤ cap →
  Resize E n (mk xs cap) tr =
  let r := default_list E (n - length xs) (length xs) tr in
  if r.2
  then Ret tt (mk (xs ++ r.1) cap) (tr ++ evs DefaultCtor (length xs) (n - length xs))
  else Exc (mk xs cap)
         (tr ++ evs DefaultCtor (length xs) (S (length r.1))
             ++ evs Dtor (length xs) (length r.1)).
Proof.
  intros Hn Hcap. unfold Resize. rewrite size_mk.
  case_decide; [lia|].
  change (Capacity (mk xs cap)) with cap.
  case_decide; [lia|]. rewrite size_mk.
  rewrite value_fill_eq by done. cbv zeta.
  pose proof (default_list_complete (n - length xs) (length xs) tr) as Hc.
  destruct (default_list E (n - length xs) (length xs) tr) as [l ok].
  cbn [fst snd] in *. destruct ok.
  - specialize (Hc eq_refl). f_equal. unfold mk.
    cbn [data_ buffer_ capacity_ size_]. rewrite length_app, Hc.
    by replace (length xs + (n - length xs)) with n by lia.
  - by rewrite with_buffer_id.
Qed.

(** X9.  [Vector(size)] for any element type and any [size] whose byte
    count is representable in [size_t].  If [operator new] throws,
    [std::bad_alloc] leaves the constructor and nothing has been
    constructed.  Otherwise either all [size] elements are
    value-constructed, in index order, and the vector has size and capacity
    [size]; or the constructor of some element throws, the elements built
    before it are destroyed, and no vector results. *)
Theorem Vector_sized_all_or_nothing n tr :
  fits E n →
  match Allocate E n tr with
  | None => Vector_sized E n tr = Exc tt tr
  | Some _ =>
      let r := default_list E n 0 tr in
      if r.2
      then length r.1 = n ∧ Inv (mk r.1 n) ∧
           Vector_sized E n tr = Ret (mk r.1 n) tt (tr ++ evs DefaultCtor 0 n)
      else length r.1 < n ∧
           Vector_sized E n tr =
           Exc tt (tr ++ evs DefaultCtor 0 (S (length r.1))
                      ++ evs Dtor 0 (length r.1))
  end.
Proof.
  intros Hfit. unfold Vector_sized.
  destruct (fits_allocates_or_bad_alloc n tr Hfit) as [Ha|Ha].
  2:{ rewrite RawMemory_new_bad_alloc by done. by rewrite Ha. }
  rewrite RawMemory_new_allocates by done. rewrite Ha.
  cbv zeta. cbn [buffer_].
  pose proof (uninitialized_value_construct_n_eq n [] [] 0 tr eq_refl) as H.
  cbn [app] in H. rewrite !app_nil_r in H. rewrite H. cbv zeta.
  pose proof (default_list_complete n 0 tr) as Hc.
  pose proof (default_list_partial n 0 tr) as Hp.
  destruct (default_list E n 0 tr) as [l ok]. cbn [fst snd] in *.
  destruct ok.
  - specialize (Hc eq_refl). split; [done|]. split; [apply Inv_mk; lia|].
    unfold mk. by rewrite Hc, Nat.sub_diag, app_nil_r.
  - split; [by apply Hp|done].
Qed.

(** X10.  [Resize] to a size between [Size()] and [Capacity()], for any
    element type, has the strong guarantee: either the new elements are
    value-constructed behind the old ones, which are not touched, and the
    capacity is kept; or a constructor throws, the new elements built so far
    are destroyed and the vector is exactly as before. *)
Theorem Resize_within_capacity n v tr :
  Inv v → Size v ≤ n → n ≤ Capacity v →
  let r := default_list E (n - Size v) (Size v) tr in
  if r.2
  then ∃ v',
         Resize E n v tr = Ret tt v' (tr ++ evs DefaultCtor (Size v) (n - Size v)) ∧
         Inv v' ∧ Capacity v' = Capacity v ∧ Size v' = n ∧
         elems v' = elems v ++ r.1
  else Resize E n v tr =
       Exc v (tr ++ evs DefaultCtor (Size v) (S (length r.1))
                 ++ evs Dtor (Size v) (length r.1)).
Proof.
  intros HI Hn Hcap. cbv zeta. pose proof (Inv_size v HI) as Hsz.
  pose proof (Resize_within_eq (elems v) (Capacity v) n tr) as Heq.
  rewrite <- (Inv_canon v HI), Hsz in Heq. specialize (Heq Hn Hcap).
  cbv zeta in Heq.
  pose proof (default_list_complete (n - Size v) (Size v) tr) as Hc.
  destruct (default_list E (n - Size v) (Size v) tr) as [l ok].
  cbn [fst snd] in *. destruct ok; [|done].
  specialize (Hc eq_refl).
  assert (length (elems v ++ l) = n) as Hlen by (rewrite length_app; lia).
  eexists. split; [exact Heq|]. split_and!.
  - apply Inv_mk. lia.
  - done.
  - unfold Size at 1. by rewrite size_mk.
  - apply elems_mk.
Qed.

(** X11.  [Resize] beyond the capacity, to a size whose byte count is
    representable in [size_t], for regular elements whose default
    constructor may throw.  If [operator new] throws, [std::bad_alloc]
    leaves [Resize] with nothing called and the vector unchanged.
    Otherwise [Resize] has the basic guarantee only: [Reserve(new_size)]
    runs first, so when a constructor throws the elements and the size are
    those before the call but the capacity is already [new_size]. *)
Theorem Resize_beyond_capacity n v tr :
  regular E → Inv v → Capacity v < n → fits E n →
  match Allocate E n tr with
  | None => Resize E n v tr = Exc v tr
  | Some _ =>
      let tr1 :=
        tr ++ evs (xfer_op (growth_xfer E)) 0 (Size v) ++ evs Dtor 0 (Size v) in
      let r := default_list E (n - Size v) (Size v) tr1 in
      ∃ v',
        Inv v' ∧ Capacity v' = n ∧
        if r.2
        then Resize E n v tr =
               Ret tt v' (tr1 ++ evs DefaultCtor (Size v) (n - Size v)) ∧
             Size v' = n ∧ elems v' = elems v ++ r.1
        else Resize E n v tr =
               Exc v' (tr1 ++ evs DefaultCtor (Size v) (S (length r.1))
                           ++ evs Dtor (Size v) (length r.1)) ∧
             Size v' = Size v ∧ elems v' = elems v
  end.
Proof.
  intros HE HI Hcap Hfit. pose proof (Inv_size v HI) as Hsz.
  pose proof (Inv_size_le v HI) as Hle.
  destruct (fits_allocates_or_bad_alloc n tr Hfit) as [Ha|Ha].
  2:{ rewrite Ha. unfold Resize, Size, Capacity in *.
      case_decide; [lia|]. case_decide; [|lia].
      by rewrite Reserve_bad_alloc. }
  rewrite Ha. cbv zeta.
  set (tr1 := tr ++ evs (xfer_op (growth_xfer E)) 0 (Size v) ++ evs Dtor 0 (Size v)).
  assert (Resize E n v tr =
          match uninitialized_value_construct_n E (buffer_ (data_ (mk (elems v) n)))
                  (length (elems v)) (n - length (elems v)) tr1 with
          | Ret _ b tr2 =>
              Ret tt {| data_ := {| buffer_ := b; capacity_ := n |}; size_ := n |} tr2
          | Exc b tr2 => Exc (with_buffer (mk (elems v) n) b) tr2
          | UB b tr2 => UB (with_buffer (mk (elems v) n) b) tr2
          end) as Hstep.
  { rewrite (Inv_canon v HI) at 1. unfold Resize. rewrite size_mk.
    case_decide; [lia|].
    change (Capacity (mk (elems v) (Capacity v))) with (Capacity v).
    case_decide; [|lia].
    rewrite Reserve_grow by (done || lia). rewrite size_mk. unfold tr1.
    by rewrite Hsz. }
  rewrite Hstep. rewrite value_fill_eq by lia. cbv zeta. rewrite Hsz.
  pose proof (default_list_complete (n - Size v) (Size v) tr1) as Hc.
  destruct (default_list E (n - Size v) (Size v) tr1) as [l ok].
  cbn [fst snd] in *. destruct ok.
  - specialize (Hc eq_refl).
    assert (length (elems v ++ l) = n) as Hlen by (rewrite length_app; lia).
    exists (mk (elems v ++ l) n).
    split; [apply Inv_mk; lia|]. split; [done|].
    split_and!.
    + f_equal. unfold mk. cbn [data_ buffer_ capacity_ size_]. by rewrite Hlen.
    + unfold Size. by rewrite size_mk.
    + apply elems_mk.
  - exists (mk (elems v) n).
    split; [apply Inv_mk; lia|]. split; [done|].
    split_and!.
    + by rewrite with_buffer_id.
    + unfold Size at 1. by rewrite size_mk.
    + apply elems_mk.
Qed.

(** X12.  [Resize] to a size not above [Size()], for any element type:
    the elements from [new_size] on are destroyed in index order, those
    before are untouched, the capacity is kept and nothing is constructed;
    with [new_size == Size()] nothing is called at all. *)
Theorem Resize_not_larger n v tr :
  Inv v → n ≤ Size v →
  ∃ v',
    Resize E n v tr = Ret tt v' (tr ++ evs Dtor n (Size v - n)) ∧
    Inv v' ∧ Capacity v' = Capacity v ∧ Size v' = n ∧
    elems v' = take n (elems v) ∧
    (n = Size v → v' = v).
Proof.
  intros HI Hn. pose proof (Inv_size v HI) as Hsz.
  pose proof (Inv_size_le v HI) as Hle.
  destruct (decide (n = Size v)) as [->|Hne].
  - pose proof (Resize_within_eq (elems v) (Capacity v) (Size v) tr) as Heq.
    rewrite <- (Inv_canon v HI), Hsz in Heq.
    specialize (Heq ltac:(lia) ltac:(lia)).
    rewrite Nat.sub_diag in *. cbn in Heq.
    rewrite app_nil_r, <- (Inv_canon v HI) in Heq.
    exists v. rewrite evs_0. split; [exact Heq|].
    split_and!; try done.
    rewrite <- Hsz. by rewrite firstn_all.
  - pose proof (Resize_shrink n (elems v) (Capacity v) tr) as Heq.
    rewrite <- (Inv_canon v HI), Hsz in Heq.
    eexists. split; [apply Heq; lia|].
    assert (length (take n (elems v)) = n) as Hl by (rewrite length_take; lia).
    split_and!.
    + apply Inv_mk. lia.
    + done.
    + unfold Size at 1. by rewrite size_mk.
    + apply elems_mk.
    + done.
Qed.

(** ** [Emplace] and [Insert] where the capacity suffices *)

Lemma Emplace_room_regular c y xs1 xs2 cap tr :
  regular E → run_init E c tr = Some y → length (xs1 ++ xs2) < cap →
  ∃ tr1,
    Emplace E (length xs1) c (mk (xs1 ++ xs2) cap) tr =
    Ret (length xs1) (mk (xs1 ++ y :: xs2) cap) tr1.
Proof.
  intros HE Hy Hlt. destruct xs2 as [|x2 xs2 _] using rev_ind.
  - eexists. rewrite app_nil_r in *. unfold Emplace. rewrite size_mk.
    case_decide; [lia|]. case_decide; [|done].
    rewrite (EmplaceBack_fit c y) by (done || lia).
    rewrite size_mk, length_app. simpl.
    replace (length xs1 + 1 - 1) with (length xs1) by lia. done.
  - eexists. by rewrite (Emplace_fit_regular c y) by (done || lia).
Qed.

Lemma Emplace_room_throw pos c v tr :
  pos < Size v → Size v < Capacity v → run_init E c tr = None →
  Emplace E pos c v tr = Exc v (tr ++ [Ev (init_op c) Temp]).
Proof.
  unfold Size. intros Hpos Hroom Hy. unfold Emplace, local_new. rewrite Hy.
  case_decide; [lia|]. case_decide; [lia|]. case_decide; [lia|]. done.
Qed.

(** X13.  [Emplace] at an interior position of a vector with spare
    capacity, regular elements.  The new element is first built in a
    temporary; if that throws, the vector is unchanged.  Otherwise the last
    element is move-constructed into the raw slot [Size()], the elements
    from [pos] to the one before the last are move-assigned one slot to the
    right, from the back, the temporary is move-assigned into [pos] and then
    destroyed.  The capacity is kept and the position returned is [pos]. *)
Theorem Emplace_with_room pos c v tr :
  regular E → Inv v → pos < Size v → Size v < Capacity v →
  match run_init E c tr with
  | Some y =>
      ∃ v',
        Emplace E pos c v tr =
          Ret pos v'
            (tr ++ [Ev (init_op c) Temp; Ev MoveCtor (Slot (Size v))] ++
             rev (evs MoveAssign (S pos) (Size v - 1 - pos)) ++
             [Ev MoveAssign (Slot pos); Ev Dtor Temp]) ∧
        Inv v' ∧ Capacity v' = Capacity v ∧ Size v' = S (Size v) ∧
        elems v' = take pos (elems v) ++ y :: drop pos (elems v)
  | None => Emplace E pos c v tr = Exc v (tr ++ [Ev (init_op c) Temp])
  end.
Proof.
  intros HE HI Hpos Hroom. pose proof (Inv_size v HI) as Hsz.
  destruct (run_init E c tr) as [y|] eqn:Hy; [|by apply Emplace_room_throw].
  destruct (lookup_lt_is_Some_2 (elems v) (Size v - 1) ltac:(lia)) as [w Hw].
  assert (drop pos (elems v) = drop pos (take (Size v - 1) (elems v)) ++ [w]) as Hd.
  { rewrite <- (take_drop_middle (elems v) (Size v - 1) w Hw) at 1.
    rewrite drop_app_le by (rewrite length_take; lia).
    f_equal. rewrite drop_ge by lia. done. }
  set (xs1 := take pos (elems v)).
  set (xs2 := drop pos (take (Size v - 1) (elems v))).
  assert (length xs1 = pos) as H1 by (unfold xs1; rewrite length_take; lia).
  assert (length xs2 = Size v - 1 - pos) as H2
    by (unfold xs2; rewrite length_drop, length_take; lia).
  assert (elems v = xs1 ++ xs2 ++ [w]) as Hsplit.
  { rewrite <- (take_drop pos (elems v)) at 1. by rewrite Hd. }
  pose proof (Emplace_fit_regular c y xs1 xs2 w (Capacity v) tr HE Hy) as Heq.
  rewrite <- Hsplit, <- (Inv_canon v HI), Hsz, H1, H2 in Heq.
  eexists. split; [apply Heq; lia|].
  assert (length (xs1 ++ y :: xs2 ++ [w]) = S (Size v)) as Hl.
  { rewrite length_app. cbn [length]. rewrite length_app. simpl. lia. }
  split_and!.
  - apply Inv_mk. lia.
  - done.
  - unfold Size at 1. by rewrite size_mk.
  - rewrite elems_mk. fold xs1. by rewrite Hd.
Qed.

(** X14.  [Erase(pos)] followed by [Insert(pos, x)] of the value erased
    restores the vector: the same elements, size and capacity.  After the
    erasure there is room, so the insertion does not reallocate (regular
    elements). *)
Theorem Erase_Insert_roundtrip pos x v tr :
  regular E → Inv v → elems v !! pos = Some x →
  ∃ v1 tr1 tr2,
    Erase E pos v tr = Ret pos v1 tr1 ∧
    Size v1 = Size v - 1 ∧
    elems v1 = take pos (elems v) ++ drop (S pos) (elems v) ∧
    Insert E pos x v1 tr1 = Ret pos v tr2.
Proof.
  intros HE HI Hx.
  pose proof (Inv_size v HI) as Hsz. pose proof (Inv_size_le v HI) as Hle.
  pose proof (lookup_lt_Some _ _ _ Hx) as Hpos.
  pose proof (take_drop_middle (elems v) pos x Hx) as Hsplit.
  assert (length (take pos (elems v)) = pos) as Hp by (rewrite length_take; lia).
  assert (length (drop (S pos) (elems v)) = Size v - 1 - pos) as Hd
    by (rewrite length_drop; lia).
  pose proof (Erase_regular (take pos (elems v)) x (drop (S pos) (elems v))
    (Capacity v) tr HE) as HEr.
  rewrite Hsplit, <- (Inv_canon v HI), Hp in HEr.
  destruct (Emplace_room_regular (ByCopy x) x (take pos (elems v))
    (drop (S pos) (elems v)) (Capacity v)
    (tr ++ evs MoveAssign pos (length (drop (S pos) (elems v))) ++
       [Ev Dtor (Slot (pos + length (drop (S pos) (elems v))))]) HE
    (regular_copy E HE x _)) as [tr2 HIn].
  { rewrite length_app. lia. }
  rewrite Hp, Hsplit, <- (Inv_canon v HI) in HIn.
  eexists _, _, _. split; [apply HEr; lia|].
  split; [unfold Size at 1; rewrite size_mk, length_app; lia|].
  split; [apply elems_mk|]. exact HIn.
Qed.

(** Liveness of a slot survives the assignments of the shift. *)
Lemma live_insert_Some b i j (y : T) :
  is_Some (live b j) → is_Some (live (<[i := Some y]> b) j).
Proof.
  unfold live. intros [z Hz]. destruct (b !! j) as [s|] eqn:Hj; [|done].
  destruct (decide (i = j)) as [->|Hne].
  - rewrite list_lookup_insert_eq by (by eapply lookup_lt_Some). by eexists.
  - rewrite list_lookup_insert_ne by done. rewrite Hj. by eexists.
Qed.

Lemma move_assign_within_keeps_live b s d tr j :
  is_Some (live b j) →
  match move_assign_within E b s d tr with
  | Ret _ b' tr' | Exc b' tr' | UB b' tr' =>
      is_Some (live b' j) ∧ ∃ rest, tr' = tr ++ rest
  end.
Proof.
  intros Hj. unfold move_assign_within.
  destruct (live b s) as [x|]; [|by split; [|exists []; rewrite app_nil_r]].
  destruct (live b d) as [y|]; [|by split; [|exists []; rewrite app_nil_r]].
  destruct (assign_move E y x tr) as [[y' x']|]; [|by eauto].
  split; [by do 2 apply live_insert_Some|by eauto].
Qed.

Lemma move_backward_loop_keeps_live n : ∀ b last d_last tr j,
  is_Some (live b j) →
  match move_backward_loop E n b last d_last tr with
  | Ret _ b' tr' | Exc b' tr' | UB b' tr' =>
      is_Some (live b' j) ∧ ∃ rest, tr' = tr ++ rest
  end.
Proof.
  assert (∀ tr0 : trace, ∃ rest, tr0 = tr0 ++ rest) as Hnil
    by (intros tr0; exists []; by rewrite app_nil_r).
  induction n as [|n IH]; intros b last d_last tr j Hj; simpl; [done|].
  destruct last as [|last']; [done|]. destruct d_last as [|d_last']; [done|].
  pose proof (move_assign_within_keeps_live b last' d_last' tr j Hj) as Hs.
  destruct (move_assign_within E b last' d_last' tr) as [u b' tr'|b' tr'|b' tr'];
    [|done..].
  destruct Hs as [Hs [rest ->]].
  specialize (IH b' last' d_last' (tr ++ rest) j Hs).
  destruct (move_backward_loop E n b' last' d_last' (tr ++ rest))
    as [u2 b2 tr2|b2 tr2|b2 tr2]; destruct IH as [IH [rest2 ->]];
    (split; [done|]); exists (rest ++ rest2); by rewrite app_assoc.
Qed.

Lemma move_construct_within_target_live b s d tr u b' tr' :
  move_construct_within E b s d tr = Ret u b' tr' → is_Some (live b' d).
Proof.
  unfold move_construct_within, is_raw. intros H.
  destruct (live b s) as [x|]; [|done].
  destruct (b !! d) as [[z|]|] eqn:Hd; [done| |done].
  destruct (construct_move E x tr) as [[y x']|]; [|done].
  injection H as _ <- _. unfold live.
  rewrite list_lookup_insert_eq; [by eexists|].
  rewrite length_insert. by eapply lookup_lt_Some.
Qed.

Lemma move_construct_within_throw b s d tr b' tr' :
  move_construct_within E b s d tr = Exc b' tr' →
  b' = b ∧ tr' = tr ++ [Ev MoveCtor (Slot d)].
Proof.
  unfold move_construct_within. intros H.
  destruct (live b s) as [x|]; [|done].
  destruct (is_raw b d); [|done].
  destruct (construct_move E x tr) as [[y x']|]; [done|].
  by injection H as <- <-.
Qed.

(** X15.  An exception leaving [Emplace] at an interior position of a vector
    with spare capacity, for any element type.  If the construction of the
    temporary or the move construction of the last element into slot
    [Size()] throws, the vector is unchanged.  If a move assignment of the
    shift throws, the object built in slot [Size()] stays alive although the
    size was not increased: the vector no longer satisfies its invariant. *)
Theorem Emplace_with_room_exception pos c v tr v' tr' :
  Inv v → pos < Size v → Size v < Capacity v →
  Emplace E pos c v tr = Exc v' tr' →
  Size v' = Size v ∧ Capacity v' = Capacity v ∧
  match run_init E c tr with
  | None => v' = v ∧ tr' = tr ++ [Ev (init_op c) Temp]
  | Some _ =>
      (v' = v ∧
       tr' = tr ++ [Ev (init_op c) Temp; Ev MoveCtor (Slot (Size v)); Ev Dtor Temp]) ∨
      (is_Some (live (buffer_ (data_ v')) (Size v)) ∧ ¬ Inv v' ∧
       ∃ rest, tr' = tr ++ [Ev (init_op c) Temp; Ev MoveCtor (Slot (Size v))] ++ rest)
  end.
Proof.
  unfold Size at 1 2 3. intros HI Hpos Hroom.
  assert (∀ b, is_Some (live b (size_ v)) → ¬ Inv (with_buffer v b)) as Hbroken.
  { intros b Hb HI'. apply Inv_end_not_live in HI'. cbn in HI'.
    rewrite HI' in Hb. by destruct Hb. }
  unfold Emplace, local_new.
  case_decide; [lia|]. case_decide; [lia|]. case_decide; [lia|].
  destruct (run_init E c tr) as [y|].
  2:{ intros Hexc. injection Hexc as <- <-. done. }
  destruct (move_construct_within E (buffer_ (data_ v)) (size_ v - 1) (size_ v)
    (tr ++ [Ev (init_op c) Temp])) as [u b1 tr2|b1 tr2|b1 tr2] eqn:Hmc.
  - pose proof (move_construct_within_target_live _ _ _ _ _ _ _ Hmc) as Hlive.
    assert (tr2 = tr ++ [Ev (init_op c) Temp; Ev MoveCtor (Slot (size_ v))]) as ->.
    { unfold move_construct_within in Hmc.
      destruct (live _ _); [|done]. destruct (is_raw _ _); [|done].
      destruct (construct_move E _ _) as [[? ?]|]; [|done].
      injection Hmc as _ _ <-. by rewrite <- app_assoc. }
    unfold std_move_backward. case_decide; [|done].
    pose proof (move_backward_loop_keeps_live (size_ v - 1 - pos) b1 (size_ v - 1)
      (size_ v) (tr ++ [Ev (init_op c) Temp; Ev MoveCtor (Slot (size_ v))]) (size_ v) Hlive) as Hl2.
    destruct (move_backward_loop E (size_ v - 1 - pos) b1 (size_ v - 1) (size_ v) _)
      as [u2 b2 tr3|b2 tr3|b2 tr3] eqn:Hmb; [| |done];
      destruct Hl2 as [Hl2 [rest ->]].
    + unfold move_assign_from_local.
      destruct (live b2 pos) as [z|]; [|done].
      destruct (assign_move E z y _) as [[z' y']|]; [done|].
      intros Hexc. injection Hexc as <- <-. split; [done|]. split; [done|].
      right. split; [done|]. split; [by apply Hbroken|].
      exists (rest ++ [Ev MoveAssign (Slot pos); Ev Dtor Temp]).
      by rewrite <- !app_assoc.
    + intros Hexc. injection Hexc as <- <-. split; [done|]. split; [done|].
      right. split; [done|]. split; [by apply Hbroken|].
      exists (rest ++ [Ev Dtor Temp]). by rewrite <- !app_assoc.
  - apply move_construct_within_throw in Hmc as [-> ->].
    intros Hexc. injection Hexc as <- <-. rewrite with_buffer_id.
    split; [done|]. split; [done|]. left. split; [done|].
    by rewrite <- !app_assoc.
  - done.
Qed.

(** ** Exceptions on the growth paths *)

Lemma Inv_buffer v :
  Inv v →
  buffer_ (data_ v) = (Some <$> elems v) ++ replicate (Capacity v - Size v) None.
Proof.
  intros HI. rewrite (Inv_canon v HI) at 1. cbn [mk data_ buffer_].
  by rewrite (Inv_size v HI).
Qed.

Lemma elem_of_evs k k' i first n :
  Ev k (Slot i) ∈ evs k' first n ↔ k = k' ∧ first ≤ i < first + n.
Proof.
  unfold evs. rewrite list_elem_of_fmap. split.
  - intros (j & Hj & Hin). apply elem_of_seq in Hin. injection Hj as -> ->. done.
  - intros [-> Hi]. exists i. split; [done|]. by apply elem_of_seq.
Qed.

(** X16.  [Reserve] to a capacity whose byte count is representable in
    [size_t] has the strong guarantee for element types that can be copied
    or whose move constructor is [noexcept].  An exception comes either from
    [operator new], before anything is called, or from the copy constructor
    of [T] called on some element [k], after which the [k] copies built are
    destroyed; in both cases the vector is exactly as before the call. *)
Theorem Reserve_strong_guarantee n v tr v' tr' :
  is_copy_constructible E = true ∨ is_nothrow_move_constructible E = true →
  noexcept_honest E → Inv v → fits E n →
  Reserve E n v tr = Exc v' tr' →
  v' = v ∧ Capacity v < n ∧
  ((bad_alloc E n tr ∧ tr' = tr) ∨
   (allocates E n tr ∧
    ∃ k x, k < Size v ∧ elems v !! k = Some x ∧
      construct_copy E x (tr ++ evs CopyCtor 0 k) = None ∧
      tr' = tr ++ evs CopyCtor 0 (S k) ++ evs Dtor 0 k)).
Proof.
  intros Hor Hh HI Hfit HEx. pose proof (Inv_size v HI) as Hsz.
  destruct (decide (n ≤ Capacity v)) as [Hle|Hgt].
  { by rewrite Reserve_noop in HEx. }
  destruct (fits_allocates_or_bad_alloc n tr Hfit) as [Ha|Ha].
  2:{ rewrite Reserve_bad_alloc in HEx by (done || lia).
      injection HEx as <- <-. split; [done|]. split; [lia|]. by left. }
  rewrite Reserve_growth_run in HEx by (done || lia). cbv zeta in HEx.
  pose proof (growth_run_throws_copies (elems v) 0 tr Hor Hh) as Hm.
  destruct ((if is_nothrow_move_constructible E || negb (is_copy_constructible E)
             then move_run E else copy_run E) (elems v) 0 tr).2 eqn:Hok; [done|].
  specialize (Hm eq_refl). rewrite Hm in *.
  pose proof (copy_run_sources (elems v) 0 tr) as Hs.
  pose proof (copy_run_partial (elems v) 0 tr Hok) as Hp.
  destruct (copy_run_throws (elems v) 0 tr Hok) as (x & Hx & Hthrow).
  injection HEx as <- <-.
  split_and!.
  - rewrite Hs, take_drop. symmetry. by apply Inv_canon.
  - lia.
  - right. split; [done|].
    exists (length (copy_run E (elems v) 0 tr).1), x.
    split; [lia|done].
Qed.

(** Exceptions of a transfer into any block, whatever its size. *)

Lemma destroy_n_no_throw n : ∀ (b : buf) first tr b' tr',
  destroy_n b first n tr ≠ Exc b' tr'.
Proof.
  induction n as [|n IH]; intros b first tr b' tr'; simpl; [done|].
  destruct (live b first); [apply IH|done].
Qed.

(** A copy leaves the source buffer as it is. *)
Lemma uninitialized_loop_copy_source n : ∀ src first dst cur tr s d c tr',
  uninitialized_loop E Copying n src first dst cur tr = Exc (s, d, c) tr' →
  s = src.
Proof.
  induction n as [|n IH]; intros src first dst cur tr s d c tr'; simpl; [done|].
  destruct (live src first) as [x|] eqn:Hx; [|done].
  destruct (is_raw dst cur); [|done].
  destruct (construct_copy E x tr) as [y|]; simpl.
  - intros H. apply IH in H. subst s. apply list_insert_id.
    unfold live in Hx. by destruct (src !! first) as [[?|]|]; simplify_eq/=.
  - by intros [= <- _ _ _].
Qed.

(** A move constructor that is honestly [noexcept] lets no exception out. *)
Lemma uninitialized_loop_move_no_throw n : ∀ src first dst cur tr s tr',
  (∀ x tr0, is_Some (construct_move E x tr0)) →
  uninitialized_loop E Moving n src first dst cur tr ≠ Exc s tr'.
Proof.
  induction n as [|n IH]; intros src first dst cur tr s tr' Hm; simpl; [done|].
  destruct (live src first) as [x|]; [|done].
  destruct (is_raw dst cur); [|done].
  destruct (Hm x tr) as [[y x'] ->]. by apply IH.
Qed.

(** With an element type that can be copied or whose move constructor is
    [noexcept], a transfer that throws is a transfer by copy and has left
    the source buffer as it was. *)
Lemma transfer_throw_source src first n dst d_first tr s d tr' :
  is_copy_constructible E = true ∨ is_nothrow_move_constructible E = true →
  noexcept_honest E →
  transfer E src first n dst d_first tr = Exc (s, d) tr' →
  s = src ∧ growth_xfer E = Copying.
Proof.
  intros Hor Hh. unfold transfer, growth_xfer.
  unfold uninitialized_move_n, uninitialized_copy_n, uninitialized_n.
  destruct (is_nothrow_move_constructible E) eqn:Hn; simpl.
  - destruct (uninitialized_loop E Moving n src first dst d_first tr)
      as [[] [[s0 d0] c0] tr0|[[s0 d0] c0] tr0|[[s0 d0] c0] tr0] eqn:Hl; [done| |done].
    by apply uninitialized_loop_move_no_throw in Hl; [|apply Hh].
  - destruct (is_copy_constructible E); simpl; [|by destruct Hor].
    destruct (uninitialized_loop E Copying n src first dst d_first tr)
      as [[] [[s0 d0] c0] tr0|[[s0 d0] c0] tr0|[[s0 d0] c0] tr0] eqn:Hl; [done| |done].
    apply uninitialized_loop_copy_source in Hl. subst s0.
    destruct (destroy_n d0 d_first (c0 - d_first) tr0) as [[] ??|??|??] eqn:Hd;
      [by intros [= <- _ _]| |done].
    by apply destroy_n_no_throw in Hd.
Qed.

(** X17.  [EmplaceBack], and so both [PushBack]s, has the strong guarantee
    for element types that can be copied or whose move constructor is
    [noexcept]: whether the new element's constructor, a copy of the
    transfer or [operator new] throws, the vector is exactly as before the
    call. *)
Theorem EmplaceBack_strong_guarantee c v tr v' tr' :
  is_copy_constructible E = true ∨ is_nothrow_move_constructible E = true →
  noexcept_honest E → Inv v →
  EmplaceBack E c v tr = Exc v' tr' →
  v' = v ∧
  (run_init E c tr = None ∨
   (Size v = Capacity v ∧ growth_xfer E = Copying) ∨
   (Size v = Capacity v ∧ bad_alloc E (max 1 (2 * Capacity v)) tr)).
Proof.
  intros Hor Hh HI HEx. pose proof (Inv_size v HI) as Hsz.
  pose proof (Inv_size_le v HI) as Hle.
  destruct (decide (Size v = Capacity v)) as [Hfull|Hroom].
  - unfold EmplaceBack in HEx. unfold Size in Hfull.
    destruct (decide (size_ v = Capacity v)) as [_|?]; [|done].
    rewrite growth_capacity in HEx. unfold RawMemory_new in HEx.
    destruct (Allocate E (max 1 (2 * Capacity v)) tr) as [b|] eqn:Ha.
    2:{ injection HEx as <- <-. split; [done|]. right. by right. }
    cbn [buffer_ capacity_] in HEx. unfold placement_new in HEx.
    destruct (is_raw b (size_ v)); [|done].
    destruct (run_init E c tr) as [y|] eqn:Hy.
    2:{ injection HEx as <- <-. split; [done|by left]. }
    destruct (transfer E _ 0 (size_ v) _ 0 _)
      as [[] [old nb'] tr2|[old nb'] tr2|[old nb'] tr2] eqn:Ht.
    + destruct (destroy_n old 0 (size_ v) tr2) as [[] ??|??|??] eqn:Hd; [done| |done].
      by apply destroy_n_no_throw in Hd.
    + injection HEx as <- <-.
      destruct (transfer_throw_source _ _ _ _ _ _ _ _ _ Hor Hh Ht) as [-> Hm].
      split; [apply with_buffer_id|]. right. by left.
    + done.
  - destruct (run_init E c tr) as [y|] eqn:Hy.
    + pose proof (EmplaceBack_fit c y (elems v) (Capacity v) tr Hy) as Heq.
      rewrite <- (Inv_canon v HI), Hsz in Heq.
      rewrite Heq in HEx by lia. done.
    + pose proof (EmplaceBack_fit_throw c (elems v) (Capacity v) tr Hy) as Heq.
      rewrite <- (Inv_canon v HI), Hsz in Heq.
      rewrite Heq in HEx by lia. injection HEx as <- <-. split; [done|by left].
Qed.

(** X18.  When the transfer throws on the growth path of [EmplaceBack] (the
    new buffer allocated, the new element constructed in its slot
    [Size()]), the new element is never destroyed: the path has no handler,
    and the buffer is released with the object in it.  ([Emplace] does
    destroy it.) *)
Theorem EmplaceBack_growth_throw_leaks c y v tr v' tr' :
  Inv v → Size v = Capacity v → allocates E (max 1 (2 * Capacity v)) tr →
  run_init E c tr = Some y →
  EmplaceBack E c v tr = Exc v' tr' →
  ∃ k rest,
    k < Size v ∧
    rest = evs (xfer_op (growth_xfer E)) 0 (S k) ++ evs Dtor 0 k ∧
    tr' = tr ++ Ev (init_op c) (Slot (Size v)) :: rest ∧
    Ev Dtor (Slot (Size v)) ∉ rest.
Proof.
  intros HI Hfull Ha Hy HEx. pose proof (Inv_size v HI) as Hsz.
  rewrite EmplaceBack_grow_inv in HEx by done. cbv zeta in HEx.
  rewrite Hy in HEx.
  pose proof (xfer_list_partial (growth_xfer E) (elems v) 0
    (tr ++ [Ev (init_op c) (Slot (Size v))])) as Hp.
  destruct (xfer_list E (growth_xfer E) (elems v) 0
    (tr ++ [Ev (init_op c) (Slot (Size v))])) as [l ok] eqn:H1.
  cbn [fst snd] in *. destruct ok; [done|]. injection HEx as <- <-.
  specialize (Hp eq_refl).
  eexists (length l), _. split; [lia|]. split; [done|].
  split; [by rewrite <- app_assoc|].
  rewrite elem_of_app, !elem_of_evs.
  intros [[Hk _]|[_ Hi]]; [by destruct (growth_xfer E)|lia].
Qed.

(** ** Successive [PushBack]s *)

Lemma PushBack_regular x xs cap tr :
  regular E → length xs ≤ cap →
  (length xs = cap → allocates E (max 1 (2 * cap)) tr) →
  ∃ tr1,
    PushBack E x (mk xs cap) tr =
    Ret tt
      (mk (xs ++ [x]) (if decide (length xs = cap) then max 1 (2 * cap) else cap))
      tr1.
Proof.
  intros HE Hle Ha.
  destruct (EmplaceBack_regular (ByCopy x) x xs cap tr HE (regular_copy E HE x tr)
    Hle Ha) as [tr1 Heq].
  exists tr1. unfold PushBack. by rewrite Heq.
Qed.

Lemma PushBack_all_regular values : ∀ xs cap tr,
  regular E → length xs ≤ cap →
  (∀ n tr', n ≤ 2 * (length xs + length values) → allocates E n tr') →
  ∃ cap' tr',
    PushBack_all E values (mk xs cap) tr = Ret tt (mk (xs ++ values) cap') tr' ∧
    cap ≤ cap' ∧ length (xs ++ values) ≤ cap' ∧
    ((cap = 0 ∧ length xs = 0) ∨ (∃ k, cap = 2 ^ k ∧ cap < 2 * length xs) →
     (cap' = 0 ∧ length (xs ++ values) = 0) ∨
     (∃ k, cap' = 2 ^ k ∧ cap' < 2 * length (xs ++ values))).
Proof.
  induction values as [|x values IH]; intros xs cap tr HE Hle Ha.
  - exists cap, tr. rewrite app_nil_r. split; [done|]. split; [done|].
    split; [done|]. done.
  - cbn [PushBack_all].
    destruct (PushBack_regular x xs cap tr HE Hle) as [tr1 ->].
    { intros Hfull. apply Ha. simpl. lia. }
    set (cap1 := if decide (length xs = cap) then max 1 (2 * cap) else cap).
    assert (length (xs ++ [x]) ≤ cap1 ∧ cap ≤ cap1) as [Hle1 Hcc].
    { rewrite length_app. simpl. unfold cap1. case_decide; lia. }
    destruct (IH (xs ++ [x]) cap1 tr1 HE Hle1) as (cap' & tr' & Heq & Hc & Hl & Hpow).
    { intros n tr0 Hn. apply Ha. rewrite length_app in Hn. simpl in *. lia. }
    rewrite <- app_assoc in Heq, Hl, Hpow. cbn [app] in Heq, Hl, Hpow.
    exists cap', tr'. split; [done|]. split; [lia|]. split; [done|].
    intros HP. apply Hpow. right.
    rewrite length_app in *. cbn [length] in *.
    destruct HP as [[-> HP]|(k & Hk & HP)].
    + exists 0. unfold cap1. rewrite HP. simpl. lia.
    + unfold cap1. case_decide as Hfull.
      * exists (S k). rewrite Nat.pow_succ_r', <- Hk.
        assert (0 < cap) by (rewrite Hk; apply Nat.neq_0_lt_0, Nat.pow_nonzero; lia).
        lia.
      * exists k. lia.
Qed.

(** X19.  Successive [PushBack]s of the values of a list, on any vector of
    regular elements, where allocations of up to twice the final size
    succeed: every call returns, the values are appended in order behind
    the old elements, the capacity never shrinks and the invariant is
    kept. *)
Theorem PushBack_all_appends values v tr :
  regular E → Inv v →
  (∀ n tr', n ≤ 2 * (Size v + length values) → allocates E n tr') →
  ∃ v' tr',
    PushBack_all E values v tr = Ret tt v' tr' ∧
    Inv v' ∧ elems v' = elems v ++ values ∧
    Size v' = Size v + length values ∧ Capacity v ≤ Capacity v'.
Proof.
  intros HE HI Ha. pose proof (Inv_size v HI) as Hsz.
  destruct (PushBack_all_regular values (elems v) (Capacity v) tr HE
    (Inv_size_le v HI)) as (cap' & tr' & Heq & Hc & Hl & _).
  { by rewrite Hsz. }
  rewrite <- (Inv_canon v HI) in Heq.
  eexists _, _. split; [exact Heq|]. split_and!.
  - by apply Inv_mk.
  - apply elems_mk.
  - unfold Size at 1. rewrite size_mk, length_app. lia.
  - done.
Qed.

(** X20.  The growth policy.  Filling an empty, default-constructed vector
    by successive [PushBack]s of [n > 0] values leaves the capacity at the
    power of two [2^k] with [n <= 2^k < 2 * n]: the capacity goes 1, 2, 4,
    ... and never exceeds twice the size (regular elements, allocations of
    up to [2 * n] slots succeeding). *)
Theorem PushBack_all_capacity_power_of_two values tr :
  regular E → values ≠ [] →
  (∀ n tr', n ≤ 2 * length values → allocates E n tr') →
  ∃ v' tr' k,
    PushBack_all E values Vector_default tr = Ret tt v' tr' ∧
    elems v' = values ∧
    Capacity v' = 2 ^ k ∧ length values ≤ 2 ^ k ∧ 2 ^ k < 2 * length values.
Proof.
  intros HE Hne Ha.
  destruct (PushBack_all_regular values [] 0 tr HE ltac:(done) Ha)
    as (cap' & tr' & Heq & _ & Hl & Hpow).
  cbn [app] in *. change (mk [] 0) with (@Vector_default T) in Heq.
  destruct Hpow as [[_ H0]|(k & Hk & Hlt)]; [by left| |].
  { destruct values; [done|simpl in H0; lia]. }
  exists (mk values cap'), tr', k. split; [done|].
  split; [apply elems_mk|]. split; [done|]. lia.
Qed.

(** X21.  After [Reserve], [PushBack]s up to the reserved capacity do not
    reallocate: on a vector with room for all the values, the only calls
    are the copy constructions of the new elements into the slots from
    [Size()] on, no existing element is moved, copied or destroyed, and the
    capacity is unchanged (copy constructor not throwing). *)
Theorem PushBack_all_within_capacity values v tr :
  (∀ x tr', construct_copy E x tr' = Some x) → Inv v →
  Size v + length values ≤ Capacity v →
  ∃ v',
    PushBack_all E values v tr =
      Ret tt v' (tr ++ evs CopyCtor (Size v) (length values)) ∧
    Inv v' ∧ Capacity v' = Capacity v ∧ elems v' = elems v ++ values.
Proof.
  intros Hcopy HI Hroom. pose proof (Inv_size v HI) as Hsz.
  assert (∀ vals xs cap tr0, length xs + length vals ≤ cap →
    PushBack_all E vals (mk xs cap) tr0 =
    Ret tt (mk (xs ++ vals) cap) (tr0 ++ evs CopyCtor (length xs) (length vals)))
    as Hall.
  { induction vals as [|x vals IH]; intros xs cap tr0 Hfit.
    - simpl. by rewrite evs_0, !app_nil_r.
    - cbn [PushBack_all length] in *. unfold PushBack.
      rewrite (EmplaceBack_fit (ByCopy x) x) by (apply Hcopy || lia).
      rewrite IH by (rewrite length_app; simpl; lia).
      rewrite <- !app_assoc, length_app, evs_S. cbn [app length init_op].
      by rewrite Nat.add_1_r. }
  specialize (Hall values (elems v) (Capacity v) tr).
  rewrite <- (Inv_canon v HI), Hsz in Hall.
  eexists. split; [apply Hall; lia|]. split_and!.
  - apply Inv_mk. rewrite length_app. lia.
  - done.
  - apply elems_mk.
Qed.

End Properties.

(** * The element types of the examples *)

Lemma IntElem_regular nothrow copyable : regular (IntElem nothrow copyable).
Proof. split; simpl; eauto. Qed.

Lemma ThrowingCopy_faithful : copy_faithful ThrowingCopy.
Proof. intros x tr y. simpl. case_decide; congruence. Qed.

Lemma ThrowingCopy_honest : noexcept_honest ThrowingCopy.
Proof. intros H. done. Qed.

(** * The scenario of the specification *)

(** Starting from an empty vector, [PushBack] of 1, 2, 3 gives size 3,
    capacity 4 (the capacity grows 1, 2, 4) and the elements 1, 2, 3; [Erase]
    at the position of 2 gives 1, 3; [Insert] of 2 before 3 gives 1, 2, 3
    again. *)
Example scenario_push_erase_insert :
  let E := IntElem true true in
  ∃ v1 v2 v3 v4 v5 tr1 tr2 tr3 tr4 tr5,
    PushBack E 1 Vector_default [] = Ret tt v1 tr1 ∧ Capacity v1 = 1 ∧
    PushBack E 2 v1 tr1 = Ret tt v2 tr2 ∧ Capacity v2 = 2 ∧
    PushBack E 3 v2 tr2 = Ret tt v3 tr3 ∧
    Size v3 = 3 ∧ Capacity v3 = 4 ∧ elems v3 = [1; 2; 3] ∧
    Erase E 1 v3 tr3 = Ret 1 v4 tr4 ∧
    Size v4 = 2 ∧ elems v4 = [1; 3] ∧
    Insert E 1 2 v4 tr4 = Ret 1 v5 tr5 ∧
    elems v5 = [1; 2; 3].
Proof. cbv zeta. by eexists _, _, _, _, _, _, _, _, _, _. Qed.

(** * The defect in copy assignment *)

(** C1.  [a = b] with [a.Size() = 1 < b.Size() = 3 <= a.Capacity() = 3] on
    [int]-like elements: the prefix [a[0]] is assigned, then the copy of the
    excess elements starts at slot 2 instead of 1, builds [a[2]] from [b[2]],
    and goes on to read [b[3]], which holds no object.  The call does not
    return; slot 1 of [a] was never constructed. *)
Theorem copy_assign_longer_source_skips_a_slot :
  let a := mk [1] 3 in
  let b := mk [1; 2; 3] 4 in
  Inv a ∧ Inv b ∧ Size a < Size b ∧ Size b ≤ Capacity a ∧
  copy_assign (IntElem true true) 0 1 [a; b] [] =
    UB [with_buffer a [Some 1; None; Some 3]; b]
       [Ev CopyAssign (Slot 0); Ev CopyCtor (Slot 2)].
Proof.
  cbv zeta. split_and!.
  - apply Inv_mk. unfold Size, Capacity; simpl; lia.
  - apply Inv_mk. unfold Size, Capacity; simpl; lia.
  - unfold Size, Capacity; simpl; lia.
  - unfold Size, Capacity; simpl; lia.
  - reflexivity.
Qed.

(** C8.  The same assignment breaks the invariant.  With [a] empty of
    capacity 2 and [b = {5, 6}], both satisfying the invariant, [a = b]
    constructs [a[1]] only and then reads past [b]: where it stops, slot 0 of
    [a], below the size the assignment was to set, holds no object, and slot
    1 holds a live object although [size_] is still 0. *)
Theorem copy_assign_longer_source_breaks_Inv :
  let a := mk [] 2 in
  let b := mk [5; 6] 2 in
  Inv a ∧ Inv b ∧
  ∃ a' tr',
    copy_assign (IntElem true true) 0 1 [a; b] [] = UB [a'; b] tr' ∧
    at_index b 0 = Some 5 ∧
    live (buffer_ (data_ a')) 0 = None ∧
    ¬ Inv a'.
Proof.
  cbv zeta. split_and!.
  - apply Inv_mk. unfold Size, Capacity; simpl; lia.
  - apply Inv_mk. unfold Size, Capacity; simpl; lia.
  - eexists _, _. split; [reflexivity|]. split; [reflexivity|].
    split; [reflexivity|].
    intros (_ & _ & _ & Hraw). specialize (Hraw 1). simpl in Hraw.
    specialize (Hraw ltac:(lia) ltac:(lia)). discriminate.
Qed.

(** An exception on the path of [Emplace] that does not grow also leaves the
    invariant broken: the last element has been moved into the raw slot at
    [end()], the shift throws, and [size_] was not increased, so slot 2 holds
    a live object outside [[0, size_)] and slot 1 a moved-from one. *)
Lemma Emplace_fit_throw_breaks_Inv :
  let v := mk [13; 2] 3 in
  Inv v ∧
  ∃ v' tr',
    Emplace ThrowingMoveAssign 0 (ByArgs 9) v [] = Exc v' tr' ∧
    Size v' = 2 ∧ live (buffer_ (data_ v')) 2 = Some 2 ∧ ¬ Inv v'.
Proof.
  cbv zeta. split; [apply Inv_mk; simpl; lia|].
  eexists _, _. split; [reflexivity|]. split; [reflexivity|].
  split; [reflexivity|].
  intros (_ & _ & _ & Hraw). specialize (Hraw 2). simpl in Hraw.
  specialize (Hraw ltac:(lia) ltac:(lia)). discriminate.
Qed.

(** * The strong guarantee of [Emplace] and move-only elements *)

(** C3, as stated, fails: with a move-only element type whose move
    constructor throws, [Emplace] at position 1 of the full vector
    [{1, 13, 3}] moves the first element into the new buffer, throws on the
    second, and leaves the vector as [{0, 13, 3}]. *)
Lemma Emplace_growth_not_rolled_back :
  ¬ (∀ (E : Elem nat nat) (v : Vector) (pos : nat) (c : init) (tr : trace)
       (v' : Vector) (tr' : trace),
       Inv v → Size v = Capacity v → pos < Size v →
       Emplace E pos c v tr = Exc v' tr' → v' = v).
Proof.
  intros H.
  specialize (H MoveOnly (mk [1; 13; 3] 3) 1 (ByArgs 9) []
    (mk [0; 13; 3] 3)
    [Ev ArgsCtor (Slot 1); Ev MoveCtor (Slot 0); Ev MoveCtor (Slot 2);
     Ev Dtor (Slot 0); Ev Dtor (Slot 1)]).
  discriminate H.
  - apply Inv_mk. unfold Size, Capacity; simpl; lia.
  - reflexivity.
  - unfold Size, Capacity; simpl; lia.
  - reflexivity.
Qed.

(** * [Reserve] and sizes that cannot be allocated *)


(** * Instances of the theorems *)

Lemma IntElem_allocates nothrow copyable n tr :
  fits (IntElem nothrow copyable) n → allocates (IntElem nothrow copyable) n tr.
Proof.
  intros Hfit. unfold allocates. rewrite Allocate_fits by done. simpl.
  case_decide as Hn; [done|]. by replace n with 0 by lia.
Qed.

Lemma SmallHeap_regular : regular SmallHeap.
Proof. split; simpl; eauto. Qed.


Lemma growth_uses_move_or_copy_witness :
  let E := IntElem false true in
  let v := mk [1; 2] 2 in
  let transfer := [Ev CopyCtor (Slot 0); Ev CopyCtor (Slot 1);
                   Ev Dtor (Slot 0); Ev Dtor (Slot 1)] in
  Inv v ∧ Capacity v < 5 ∧ allocates E 5 [] ∧
  Size v = Capacity v ∧ allocates E (max 1 (2 * Capacity v)) [] ∧ 1 < Size v ∧
  Reserve E 5 v [] = Ret tt (mk [1; 2] 5) transfer ∧
  calls MoveCtor transfer = 0 ∧ calls CopyCtor transfer = 2 ∧
  EmplaceBack E (ByArgs 9) v [] =
    Ret 2 (mk [1; 2; 9] 4) (Ev ArgsCtor (Slot 2) :: transfer) ∧
  PushBack E 7 v [] = Ret tt (mk [1; 2; 7] 4) (Ev CopyCtor (Slot 2) :: transfer) ∧
  PushBack_rvalue E 7 v [] =
    Ret tt (mk [1; 2; 7] 4) (Ev MoveCtor (Slot 2) :: transfer) ∧
  Emplace E 1 (ByArgs 9) v [] =
    Ret 1 (mk [1; 9; 2] 4)
      [Ev ArgsCtor (Slot 1); Ev CopyCtor (Slot 0); Ev CopyCtor (Slot 2);
       Ev Dtor (Slot 0); Ev Dtor (Slot 1)].
Proof.
  cbv zeta.
  assert (Inv (mk [1; 2] 2)) as HI by (apply Inv_mk; simpl; lia).
  assert (Capacity (mk [1; 2] 2) < 5) as Hlt by (unfold Capacity; simpl; lia).
  assert (1 < Size (mk [1; 2] 2)) as Hpos by (unfold Size; simpl; lia).
  destruct (growth_uses_move_or_copy (IntElem false true) (mk [1; 2] 2) 5 1 9 7 [] HI)
    as (HR & HB & HE).
  destruct (HR Hlt eq_refl) as (HR1 & HR2 & HR3).
  destruct (HB eq_refl eq_refl) as (HB1 & HB2 & HB3).
  split; [exact HI|]. split; [exact Hlt|]. split; [reflexivity|].
  split; [reflexivity|]. split; [reflexivity|]. split; [exact Hpos|].
  split; [exact HR1|]. split; [exact HR2|]. split; [exact HR3|].
  split; [exact HB1|]. split; [exact HB2|]. split; [exact HB3|].
  exact (HE eq_refl Hpos eq_refl).
Defined.

Lemma PushBack_full_witness :
  regular (IntElem true true) ∧ Inv (mk [1; 2] 2) ∧
  Size (mk [1; 2] 2) = Capacity (mk [1; 2] 2) ∧
  allocates (IntElem true true) (max 1 (2 * Capacity (mk [1; 2] 2))) [] ∧
  ∃ v' evs_transfer,
    evs_transfer = evs MoveCtor 0 2 ++ evs Dtor 0 2 ∧
    PushBack (IntElem true true) 3 (mk [1; 2] 2) [] =
      Ret tt v' ([] ++ Ev CopyCtor (Slot 2) :: evs_transfer) ∧
    PushBack_rvalue (IntElem true true) 3 (mk [1; 2] 2) [] =
      Ret tt v' ([] ++ Ev MoveCtor (Slot 2) :: evs_transfer) ∧
    Inv v' ∧
    Capacity v' = max 1 (2 * 2) ∧
    Size v' = 3 ∧
    elems v' = [1; 2] ++ [3] ∧
    (∀ i, i < 2 → at_index v' i = at_index (mk [1; 2] 2) i) ∧
    at_index v' 2 = Some 3.
Proof.
  split; [apply IntElem_regular|].
  split; [apply Inv_mk; unfold Size, Capacity; simpl; lia|].
  split; [reflexivity|]. split; [reflexivity|].
  apply (PushBack_full (IntElem true true) 3 (mk [1; 2] 2) []).
  - apply IntElem_regular.
  - apply Inv_mk. unfold Size, Capacity; simpl; lia.
  - reflexivity.
  - reflexivity.
Defined.

Lemma Emplace_growth_staged_witness :
  let v := mk [1; 13; 3] 3 in
  let undone := λ op, [Ev ArgsCtor (Slot 1); Ev op (Slot 0); Ev op (Slot 2);
                       Ev Dtor (Slot 0); Ev Dtor (Slot 1)] in
  Inv v ∧ Size v = Capacity v ∧ 1 < Size v ∧
  allocates ThrowingCopy (max 1 (2 * Capacity v)) [] ∧
  allocates MoveOnly (max 1 (2 * Capacity v)) [] ∧
  (* copies: the suffix throws at its first element, the vector is as before *)
  (0 < Size v - 1 ∧
   Emplace ThrowingCopy 1 (ByArgs 9) v [] = Exc v (undone CopyCtor)) ∧
  (∀ v' tr', Emplace ThrowingCopy 1 (ByArgs 9) v [] = Exc v' tr' →
     Inv v' ∧ Size v' = Size v ∧ Capacity v' = Capacity v ∧
     (is_copy_constructible ThrowingCopy = true ∨
      is_nothrow_move_constructible ThrowingCopy = true →
      noexcept_honest ThrowingCopy → v' = v)) ∧
  (* moves only: the element moved from stays as the move left it *)
  (0 < Size v - 1 ∧
   Emplace MoveOnly 1 (ByArgs 9) v [] = Exc (mk [0; 13; 3] 3) (undone MoveCtor)).
Proof.
  cbv zeta.
  assert (Inv (mk [1; 13; 3] 3)) as HI by (apply Inv_mk; simpl; lia).
  assert (1 < Size (mk [1; 13; 3] 3)) as Hpos by (unfold Size; simpl; lia).
  destruct (Emplace_growth_staged ThrowingCopy 1 (ByArgs 9) (mk [1; 13; 3] 3) []
    HI eq_refl Hpos eq_refl) as [Hc1 Hc2].
  destruct (Emplace_growth_staged MoveOnly 1 (ByArgs 9) (mk [1; 13; 3] 3) []
    HI eq_refl Hpos eq_refl) as [Hm1 _].
  split; [exact HI|]. split; [reflexivity|]. split; [exact Hpos|].
  split; [reflexivity|]. split; [reflexivity|].
  split; [exact Hc1|]. split; [exact Hc2|]. exact Hm1.
Defined.

Lemma Vector_copy_strong_witness :
  let v := mk [1; 2; 13; 4] 6 in
  Inv v ∧ copy_faithful ThrowingCopy ∧ allocates ThrowingCopy (Size v) [] ∧
  (∃ k x,
     k = 2 ∧ k < Size v ∧ elems v !! k = Some x ∧
     construct_copy ThrowingCopy x ([] ++ evs CopyCtor 0 k) = None ∧
     Vector_copy ThrowingCopy v [] =
       Exc v ([] ++ evs CopyCtor 0 (S k) ++ evs Dtor 0 k)) ∧
  copy_faithful (IntElem true true) ∧ allocates (IntElem true true) (Size v) [] ∧
  (∃ copy,
     Vector_copy (IntElem true true) v [] =
       Ret copy v ([] ++ evs CopyCtor 0 (Size v)) ∧
     Inv copy ∧ Capacity copy = Size v ∧ Size copy = Size v ∧
     elems copy = elems v ∧
     (∀ i, at_index copy i = at_index v i)).
Proof.
  cbv zeta.
  assert (Inv (mk [1; 2; 13; 4] 6)) as HI by (apply Inv_mk; simpl; lia).
  assert (copy_faithful (IntElem true true)) as Hf
    by (intros x tr y; simpl; congruence).
  split; [exact HI|]. split; [apply ThrowingCopy_faithful|].
  split; [reflexivity|].
  split.
  - exact (Vector_copy_strong ThrowingCopy (mk [1; 2; 13; 4] 6) [] HI
      ThrowingCopy_faithful eq_refl).
  - split; [exact Hf|]. split; [reflexivity|].
    exact (Vector_copy_strong (IntElem true true) (mk [1; 2; 13; 4] 6) [] HI Hf
      eq_refl).
Defined.

Lemma Erase_shifts_left_witness :
  regular (IntElem true true) ∧ Inv (mk [1; 2; 3] 4) ∧ 1 < Size (mk [1; 2; 3] 4) ∧
  ∃ v',
    Erase (IntElem true true) 1 (mk [1; 2; 3] 4) [] =
      Ret 1 v' ([] ++ evs MoveAssign 1 (3 - 1 - 1) ++ [Ev Dtor (Slot (3 - 1))]) ∧
    Inv v' ∧
    Capacity v' = 4 ∧
    Size v' = 3 - 1 ∧
    elems v' = take 1 (elems (mk [1; 2; 3] 4)) ++ drop 2 (elems (mk [1; 2; 3] 4)) ∧
    (∀ i, i < 1 → at_index v' i = at_index (mk [1; 2; 3] 4) i) ∧
    (∀ i, 1 ≤ i → at_index v' i = at_index (mk [1; 2; 3] 4) (S i)) ∧
    (1 = Size v' ↔ 1 = 3 - 1).
Proof.
  split; [apply IntElem_regular|].
  split; [apply Inv_mk; unfold Size, Capacity; simpl; lia|].
  split; [unfold Size, Capacity; simpl; lia|].
  apply (Erase_shifts_left (IntElem true true) 1 (mk [1; 2; 3] 4) []).
  - apply IntElem_regular.
  - apply Inv_mk. unfold Size, Capacity; simpl; lia.
  - unfold Size, Capacity; simpl; lia.
Defined.

Lemma Emplace_Erase_roundtrip_witness :
  let E := IntElem true true in
  let v := mk [1; 3] 2 in
  regular E ∧ Inv v ∧ 1 ≤ Size v ∧
  run_init E (ByCopy 2) [] = Some 2 ∧
  Size v = Capacity v ∧ allocates E (max 1 (2 * Capacity v)) [] ∧
  ∃ v1 tr1 v2 tr2,
    Emplace E 1 (ByCopy 2) v [] = Ret 1 v1 tr1 ∧
    elems v1 = take 1 (elems v) ++ 2 :: drop 1 (elems v) ∧
    Erase E 1 v1 tr1 = Ret 1 v2 tr2 ∧
    Inv v2 ∧
    elems v2 = elems v ∧
    Size v2 = Size v ∧
    (∀ i, at_index v2 i = at_index v i).
Proof.
  cbv zeta.
  split; [apply IntElem_regular|].
  split; [apply Inv_mk; unfold Size, Capacity; simpl; lia|].
  split; [unfold Size, Capacity; simpl; lia|].
  split; [reflexivity|]. split; [reflexivity|]. split; [reflexivity|].
  apply (Emplace_Erase_roundtrip (IntElem true true) 1 (ByCopy 2) 2 (mk [1; 3] 2) []).
  - apply IntElem_regular.
  - apply Inv_mk. unfold Size, Capacity; simpl; lia.
  - unfold Size, Capacity; simpl; lia.
  - reflexivity.
  - intros _. reflexivity.
Defined.

Lemma copy_assign_self_witness :
  is_Some ([mk [1; 2] 3] !! 0) ∧
  copy_assign (IntElem true true) 0 0 [mk [1; 2] 3] [] = Ret tt [mk [1; 2] 3] [].
Proof.
  split; [by eexists|].
  apply (copy_assign_self (IntElem true true) 0 [mk [1; 2] 3] []).
  by eexists.
Defined.


(** * Instances of the further properties *)

Lemma copy_assign_shorter_source_witness :
  let E := IntElem true true in
  let v := mk [1; 2; 3] 4 in
  let w := mk [7] 2 in
  let st := [v; w] in
  regular E ∧ 0 ≠ 1 ∧ st !! 0 = Some v ∧ st !! 1 = Some w ∧
  Inv v ∧ Inv w ∧ Size w ≤ Size v ∧
  ∃ v', copy_assign E 0 1 st [] =
      Ret tt (<[0 := v']> st)
        ([] ++ evs CopyAssign 0 (Size w) ++ evs Dtor (Size w) (Size v - Size w)) ∧
    Inv v' ∧ Capacity v' = Capacity v ∧ Size v' = Size w ∧
    elems v' = elems w ∧ <[0 := v']> st !! 1 = Some w.
Proof.
  cbv zeta.
  assert (Inv (mk [1; 2; 3] 4)) as Hv by (apply Inv_mk; simpl; lia).
  assert (Inv (mk [7] 2)) as Hw by (apply Inv_mk; simpl; lia).
  assert (Size (mk [7] 2) ≤ Size (mk [1; 2; 3] 4)) as Hle
    by (unfold Size; simpl; lia).
  split; [apply IntElem_regular|]. split; [done|]. split; [done|].
  split; [done|]. split; [done|]. split; [done|]. split; [done|].
  apply (copy_assign_shorter_source (IntElem true true) 0 1
    [mk [1; 2; 3] 4; mk [7] 2] (mk [1; 2; 3] 4) (mk [7] 2) []); try done.
  apply IntElem_regular.
Defined.

Lemma copy_assign_beyond_capacity_witness :
  let E := ThrowingCopy in
  let v := mk [1] 1 in
  let w := mk [1; 13; 3] 3 in
  let st := [v; w] in
  copy_faithful E ∧ 0 ≠ 1 ∧ st !! 0 = Some v ∧ st !! 1 = Some w ∧
  Inv v ∧ Inv w ∧ Capacity v < Size w ∧ allocates E (Size w) [] ∧
  ∃ k x,
    k = 1 ∧ k < Size w ∧ elems w !! k = Some x ∧
    construct_copy E x ([] ++ evs CopyCtor 0 k) = None ∧
    copy_assign E 0 1 st [] = Exc st ([] ++ evs CopyCtor 0 (S k) ++ evs Dtor 0 k).
Proof.
  cbv zeta.
  assert (Inv (mk [1] 1)) as Hv by (apply Inv_mk; simpl; lia).
  assert (Inv (mk [1; 13; 3] 3)) as Hw by (apply Inv_mk; simpl; lia).
  assert (Capacity (mk [1] 1) < Size (mk [1; 13; 3] 3)) as Hlt
    by (unfold Size, Capacity; simpl; lia).
  assert (0 ≠ 1) as Hne by done.
  split; [apply ThrowingCopy_faithful|]. split; [done|]. split; [done|].
  split; [done|]. split; [done|]. split; [done|]. split; [done|].
  split; [reflexivity|].
  exact (copy_assign_beyond_capacity ThrowingCopy 0 1
    [mk [1] 1; mk [1; 13; 3] 3] (mk [1] 1) (mk [1; 13; 3] 3) []
    ThrowingCopy_faithful Hne eq_refl eq_refl Hv Hw Hlt eq_refl).
Defined.

Lemma copy_assign_longer_source_never_returns_witness :
  let E := IntElem true true in
  let v := mk [1] 3 in
  let w := mk [1; 2; 3] 4 in
  let st := [v; w] in
  0 ≠ 1 ∧ st !! 0 = Some v ∧ st !! 1 = Some w ∧ Inv w ∧
  Size v < Size w ∧ Size w ≤ Capacity v ∧
  ¬ returns (copy_assign E 0 1 st []).
Proof.
  cbv zeta.
  assert (Inv (mk [1; 2; 3] 4)) as Hw by (apply Inv_mk; simpl; lia).
  assert (Size (mk [1] 3) < Size (mk [1; 2; 3] 4)) as Hlt
    by (unfold Size; simpl; lia).
  assert (Size (mk [1; 2; 3] 4) ≤ Capacity (mk [1] 3)) as Hle
    by (unfold Size, Capacity; simpl; lia).
  split; [done|]. split; [done|]. split; [done|]. split; [done|].
  split; [done|]. split; [done|].
  apply (copy_assign_longer_source_never_returns (IntElem true true) 0 1
    [mk [1] 3; mk [1; 2; 3] 4] (mk [1] 3) (mk [1; 2; 3] 4) []); done.
Defined.

Lemma EmplaceBack_with_room_witness :
  let E := IntElem true true in
  let v := mk [1; 2] 4 in
  Inv v ∧ Size v < Capacity v ∧
  ∃ v',
    EmplaceBack E (ByArgs 9) v [] =
      Ret (Size v) v' ([] ++ [Ev ArgsCtor (Slot (Size v))]) ∧
    Inv v' ∧ Capacity v' = Capacity v ∧ Size v' = S (Size v) ∧
    elems v' = elems v ++ [9].
Proof.
  cbv zeta.
  assert (Inv (mk [1; 2] 4)) as Hv by (apply Inv_mk; simpl; lia).
  assert (Size (mk [1; 2] 4) < Capacity (mk [1; 2] 4)) as Hlt
    by (unfold Size, Capacity; simpl; lia).
  split; [done|]. split; [done|].
  exact (EmplaceBack_with_room (IntElem true true) (ByArgs 9) (mk [1; 2] 4) [] Hv Hlt).
Defined.

Lemma PopBack_removes_last_witness :
  let v := mk [1; 2; 3] 4 in
  Inv v ∧ 0 < Size v ∧
  ∃ v',
    PopBack v [] = Ret tt v' ([] ++ [Ev Dtor (Slot (Size v - 1))]) ∧
    Inv v' ∧ Capacity v' = Capacity v ∧ Size v' = Size v - 1 ∧
    elems v' = take (Size v - 1) (elems v).
Proof.
  cbv zeta.
  assert (Inv (mk [1; 2; 3] 4)) as Hv by (apply Inv_mk; simpl; lia).
  assert (0 < Size (mk [1; 2; 3] 4)) as Hlt by (unfold Size; simpl; lia).
  split; [done|]. split; [done|].
  exact (PopBack_removes_last (mk [1; 2; 3] 4) [] Hv Hlt).
Defined.

Lemma PushBack_PopBack_roundtrip_witness :
  let E := IntElem true true in
  let v := mk [1; 2] 2 in
  regular E ∧ Inv v ∧
  Size v = Capacity v ∧ allocates E (max 1 (2 * Capacity v)) [] ∧
  ∃ v1 tr1 v2 tr2,
    PushBack E 7 v [] = Ret tt v1 tr1 ∧
    PopBack v1 tr1 = Ret tt v2 tr2 ∧
    Inv v2 ∧ elems v2 = elems v ∧ Size v2 = Size v ∧
    Capacity v2 =
      (if decide (Size v = Capacity v) then max 1 (2 * Capacity v) else Capacity v).
Proof.
  cbv zeta.
  assert (Inv (mk [1; 2] 2)) as Hv by (apply Inv_mk; simpl; lia).
  split; [apply IntElem_regular|]. split; [done|].
  split; [reflexivity|]. split; [reflexivity|].
  exact (PushBack_PopBack_roundtrip (IntElem true true) 7 (mk [1; 2] 2) []
    (IntElem_regular true true) Hv (λ _, eq_refl)).
Defined.

Lemma Vector_move_leaves_empty_witness :
  let other := mk [1; 2] 3 in
  Inv other ∧
  ∃ v other',
    Vector_move other = (v, other') ∧
    v = other ∧
    Inv other' ∧ Size other' = 0 ∧ Capacity other' = 0 ∧
    Vector_destroy other' [] = Ret tt tt [] ∧
    Vector_destroy v [] = Ret tt tt ([] ++ evs Dtor 0 (Size other)).
Proof.
  cbv zeta.
  assert (Inv (mk [1; 2] 3)) as Hv by (apply Inv_mk; simpl; lia).
  split; [done|].
  exact (Vector_move_leaves_empty (mk [1; 2] 3) [] Hv).
Defined.

Lemma move_assign_exchanges_witness :
  let v := mk [1] 1 in
  let w := mk [2; 3] 4 in
  let st := [v; w] in
  st !! 0 = Some v ∧ st !! 1 = Some w ∧
  ∃ st',
    move_assign 0 1 st [] = Ret tt st' [] ∧
    st' !! 0 = Some w ∧ st' !! 1 = Some v ∧
    (∀ i, i ≠ 0 → i ≠ 1 → st' !! i = st !! i) ∧
    (0 = 1 → st' = st) ∧
    move_assign 0 1 st' [] = Ret tt st [].
Proof.
  cbv zeta. split; [done|]. split; [done|].
  exact (move_assign_exchanges 0 1 [mk [1] 1; mk [2; 3] 4] (mk [1] 1) (mk [2; 3] 4) []
    eq_refl eq_refl).
Defined.

Lemma Vector_sized_all_or_nothing_witness :
  fits (IntElem true true) 3 ∧
  (length [0; 0; 0] = 3 ∧ Inv (mk [0; 0; 0] 3) ∧
   Vector_sized (IntElem true true) 3 [] =
     Ret (mk [0; 0; 0] 3) tt ([] ++ evs DefaultCtor 0 3)) ∧
  fits SmallHeap 100 ∧
  Vector_sized SmallHeap 100 [] = Exc tt [].
Proof.
  assert (fits (IntElem true true) 3) as H1 by done.
  assert (fits SmallHeap 100) as H2 by done.
  split; [exact H1|].
  split; [exact (Vector_sized_all_or_nothing (IntElem true true) 3 [] H1)|].
  split; [exact H2|].
  exact (Vector_sized_all_or_nothing SmallHeap 100 [] H2).
Defined.

Lemma Resize_within_capacity_witness :
  let E := IntElem true true in
  let v := mk [1] 4 in
  Inv v ∧ Size v ≤ 3 ∧ 3 ≤ Capacity v ∧
  ∃ v',
    Resize E 3 v [] = Ret tt v' ([] ++ evs DefaultCtor (Size v) (3 - Size v)) ∧
    Inv v' ∧ Capacity v' = Capacity v ∧ Size v' = 3 ∧
    elems v' = elems v ++ [0; 0].
Proof.
  cbv zeta.
  assert (Inv (mk [1] 4)) as Hv by (apply Inv_mk; simpl; lia).
  assert (Size (mk [1] 4) ≤ 3) as H1 by (unfold Size; simpl; lia).
  assert (3 ≤ Capacity (mk [1] 4)) as H2 by (unfold Capacity; simpl; lia).
  split; [done|]. split; [done|]. split; [done|].
  exact (Resize_within_capacity (IntElem true true) 3 (mk [1] 4) [] Hv H1 H2).
Defined.

Lemma Resize_beyond_capacity_witness :
  let E := IntElem true true in
  let v := mk [1] 1 in
  let tr1 := [] ++ evs (xfer_op (growth_xfer E)) 0 (Size v) ++ evs Dtor 0 (Size v) in
  regular E ∧ Inv v ∧ Capacity v < 3 ∧ fits E 3 ∧
  (∃ v',
     Inv v' ∧ Capacity v' = 3 ∧
     Resize E 3 v [] = Ret tt v' (tr1 ++ evs DefaultCtor (Size v) (3 - Size v)) ∧
     Size v' = 3 ∧ elems v' = elems v ++ [0; 0]) ∧
  regular SmallHeap ∧ Capacity v < 100 ∧ fits SmallHeap 100 ∧
  Resize SmallHeap 100 v [] = Exc v [].
Proof.
  cbv zeta.
  assert (Inv (mk [1] 1)) as Hv by (apply Inv_mk; simpl; lia).
  assert (Capacity (mk [1] 1) < 3) as H1 by (unfold Capacity; simpl; lia).
  assert (Capacity (mk [1] 1) < 100) as H2 by (unfold Capacity; simpl; lia).
  assert (fits (IntElem true true) 3) as F1 by done.
  assert (fits SmallHeap 100) as F2 by done.
  split; [apply IntElem_regular|]. split; [done|]. split; [done|].
  split; [done|].
  split; [exact (Resize_beyond_capacity (IntElem true true) 3 (mk [1] 1) []
    (IntElem_regular true true) Hv H1 F1)|].
  split; [apply SmallHeap_regular|]. split; [done|]. split; [done|].
  exact (Resize_beyond_capacity SmallHeap 100 (mk [1] 1) [] SmallHeap_regular Hv H2 F2).
Defined.

Lemma Resize_not_larger_witness :
  let E := IntElem true true in
  let v := mk [1; 2; 3] 4 in
  Inv v ∧ 1 ≤ Size v ∧
  ∃ v',
    Resize E 1 v [] = Ret tt v' ([] ++ evs Dtor 1 (Size v - 1)) ∧
    Inv v' ∧ Capacity v' = Capacity v ∧ Size v' = 1 ∧
    elems v' = take 1 (elems v) ∧
    (1 = Size v → v' = v).
Proof.
  cbv zeta.
  assert (Inv (mk [1; 2; 3] 4)) as Hv by (apply Inv_mk; simpl; lia).
  assert (1 ≤ Size (mk [1; 2; 3] 4)) as H1 by (unfold Size; simpl; lia).
  split; [done|]. split; [done|].
  exact (Resize_not_larger (IntElem true true) 1 (mk [1; 2; 3] 4) [] Hv H1).
Defined.

Lemma Emplace_with_room_witness :
  let E := IntElem true true in
  let v := mk [1; 2; 3] 5 in
  regular E ∧ Inv v ∧ 1 < Size v ∧ Size v < Capacity v ∧
  ∃ v',
    Emplace E 1 (ByArgs 9) v [] =
      Ret 1 v'
        ([] ++ [Ev ArgsCtor Temp; Ev MoveCtor (Slot (Size v))] ++
         rev (evs MoveAssign 2 (Size v - 1 - 1)) ++
         [Ev MoveAssign (Slot 1); Ev Dtor Temp]) ∧
    Inv v' ∧ Capacity v' = Capacity v ∧ Size v' = S (Size v) ∧
    elems v' = take 1 (elems v) ++ 9 :: drop 1 (elems v).
Proof.
  cbv zeta.
  assert (Inv (mk [1; 2; 3] 5)) as Hv by (apply Inv_mk; simpl; lia).
  assert (1 < Size (mk [1; 2; 3] 5)) as H1 by (unfold Size; simpl; lia).
  assert (Size (mk [1; 2; 3] 5) < Capacity (mk [1; 2; 3] 5)) as H2
    by (unfold Size, Capacity; simpl; lia).
  split; [apply IntElem_regular|]. split; [done|]. split; [done|]. split; [done|].
  exact (Emplace_with_room (IntElem true true) 1 (ByArgs 9) (mk [1; 2; 3] 5) []
    (IntElem_regular true true) Hv H1 H2).
Defined.

Lemma Erase_Insert_roundtrip_witness :
  let E := IntElem true true in
  let v := mk [1; 2; 3] 3 in
  regular E ∧ Inv v ∧ elems v !! 1 = Some 2 ∧
  ∃ v1 tr1 tr2,
    Erase E 1 v [] = Ret 1 v1 tr1 ∧
    Size v1 = Size v - 1 ∧
    elems v1 = take 1 (elems v) ++ drop 2 (elems v) ∧
    Insert E 1 2 v1 tr1 = Ret 1 v tr2.
Proof.
  cbv zeta.
  assert (Inv (mk [1; 2; 3] 3)) as Hv by (apply Inv_mk; simpl; lia).
  split; [apply IntElem_regular|]. split; [done|]. split; [done|].
  exact (Erase_Insert_roundtrip (IntElem true true) 1 2 (mk [1; 2; 3] 3) []
    (IntElem_regular true true) Hv eq_refl).
Defined.

Lemma Emplace_with_room_exception_witness :
  let E := ThrowingMoveAssign in
  let v := mk [13; 2] 3 in
  let v' := with_buffer v [Some 13; Some 0; Some 2] in
  let tr' := [Ev ArgsCtor Temp; Ev MoveCtor (Slot 2); Ev MoveAssign (Slot 1);
              Ev Dtor Temp] in
  Inv v ∧ 0 < Size v ∧ Size v < Capacity v ∧
  Emplace E 0 (ByArgs 9) v [] = Exc v' tr' ∧
  Size v' = Size v ∧ Capacity v' = Capacity v ∧
  ((v' = v ∧
    tr' = [] ++ [Ev ArgsCtor Temp; Ev MoveCtor (Slot (Size v)); Ev Dtor Temp]) ∨
   (is_Some (live (buffer_ (data_ v')) (Size v)) ∧ ¬ Inv v' ∧
    ∃ rest, tr' = [] ++ [Ev ArgsCtor Temp; Ev MoveCtor (Slot (Size v))] ++ rest)).
Proof.
  cbv zeta.
  assert (Inv (mk [13; 2] 3)) as Hv by (apply Inv_mk; simpl; lia).
  assert (0 < Size (mk [13; 2] 3)) as H1 by (unfold Size; simpl; lia).
  assert (Size (mk [13; 2] 3) < Capacity (mk [13; 2] 3)) as H2
    by (unfold Size, Capacity; simpl; lia).
  split; [done|]. split; [done|]. split; [done|]. split; [reflexivity|].
  exact (Emplace_with_room_exception ThrowingMoveAssign 0 (ByArgs 9) (mk [13; 2] 3) []
    (with_buffer (mk [13; 2] 3) [Some 13; Some 0; Some 2])
    [Ev ArgsCtor Temp; Ev MoveCtor (Slot 2); Ev MoveAssign (Slot 1); Ev Dtor Temp]
    Hv H1 H2 eq_refl).
Defined.

Lemma Reserve_strong_guarantee_witness :
  let E := ThrowingCopy in
  let v := mk [1; 13; 3] 3 in
  let tr' := [Ev CopyCtor (Slot 0); Ev CopyCtor (Slot 1); Ev Dtor (Slot 0)] in
  (is_copy_constructible E = true ∨ is_nothrow_move_constructible E = true) ∧
  noexcept_honest E ∧ Inv v ∧ fits E 5 ∧
  Reserve E 5 v [] = Exc v tr' ∧
  v = v ∧ Capacity v < 5 ∧
  ((bad_alloc E 5 [] ∧ tr' = []) ∨
   (allocates E 5 [] ∧
    ∃ k x, k < Size v ∧ elems v !! k = Some x ∧
      construct_copy E x ([] ++ evs CopyCtor 0 k) = None ∧
      tr' = [] ++ evs CopyCtor 0 (S k) ++ evs Dtor 0 k)).
Proof.
  cbv zeta.
  assert (Inv (mk [1; 13; 3] 3)) as Hv by (apply Inv_mk; simpl; lia).
  assert (fits ThrowingCopy 5) as Hfit by done.
  split; [by left|]. split; [apply ThrowingCopy_honest|]. split; [done|].
  split; [done|]. split; [reflexivity|].
  exact (Reserve_strong_guarantee ThrowingCopy 5 (mk [1; 13; 3] 3) []
    (mk [1; 13; 3] 3)
    [Ev CopyCtor (Slot 0); Ev CopyCtor (Slot 1); Ev Dtor (Slot 0)]
    (or_introl eq_refl) ThrowingCopy_honest Hv Hfit eq_refl).
Defined.

Lemma EmplaceBack_strong_guarantee_witness :
  let E := ThrowingCopy in
  let v := mk [1; 13] 2 in
  let tr' := [Ev ArgsCtor (Slot 2); Ev CopyCtor (Slot 0); Ev CopyCtor (Slot 1);
              Ev Dtor (Slot 0)] in
  (is_copy_constructible E = true ∨ is_nothrow_move_constructible E = true) ∧
  noexcept_honest E ∧ Inv v ∧
  EmplaceBack E (ByArgs 9) v [] = Exc v tr' ∧
  v = v ∧
  (run_init E (ByArgs 9) [] = None ∨
   (Size v = Capacity v ∧ growth_xfer E = Copying) ∨
   (Size v = Capacity v ∧ bad_alloc E (max 1 (2 * Capacity v)) [])).
Proof.
  cbv zeta.
  assert (Inv (mk [1; 13] 2)) as Hv by (apply Inv_mk; simpl; lia).
  split; [by left|]. split; [apply ThrowingCopy_honest|]. split; [done|].
  split; [reflexivity|].
  exact (EmplaceBack_strong_guarantee ThrowingCopy (ByArgs 9) (mk [1; 13] 2) []
    (mk [1; 13] 2)
    [Ev ArgsCtor (Slot 2); Ev CopyCtor (Slot 0); Ev CopyCtor (Slot 1); Ev Dtor (Slot 0)]
    (or_introl eq_refl) ThrowingCopy_honest Hv eq_refl).
Defined.

Lemma EmplaceBack_growth_throw_leaks_witness :
  let E := ThrowingCopy in
  let v := mk [1; 13] 2 in
  let tr' := [Ev ArgsCtor (Slot 2); Ev CopyCtor (Slot 0); Ev CopyCtor (Slot 1);
              Ev Dtor (Slot 0)] in
  Inv v ∧ Size v = Capacity v ∧ allocates E (max 1 (2 * Capacity v)) [] ∧
  run_init E (ByArgs 9) [] = Some 9 ∧
  EmplaceBack E (ByArgs 9) v [] = Exc v tr' ∧
  ∃ k rest,
    k < Size v ∧
    rest = evs (xfer_op (growth_xfer E)) 0 (S k) ++ evs Dtor 0 k ∧
    tr' = [] ++ Ev ArgsCtor (Slot (Size v)) :: rest ∧
    Ev Dtor (Slot (Size v)) ∉ rest.
Proof.
  cbv zeta.
  assert (Inv (mk [1; 13] 2)) as Hv by (apply Inv_mk; simpl; lia).
  split; [done|]. split; [reflexivity|]. split; [reflexivity|].
  split; [reflexivity|]. split; [reflexivity|].
  exact (EmplaceBack_growth_throw_leaks ThrowingCopy (ByArgs 9) 9 (mk [1; 13] 2) []
    (mk [1; 13] 2)
    [Ev ArgsCtor (Slot 2); Ev CopyCtor (Slot 0); Ev CopyCtor (Slot 1); Ev Dtor (Slot 0)]
    Hv eq_refl eq_refl eq_refl eq_refl).
Defined.

Lemma PushBack_all_appends_witness :
  let E := IntElem true true in
  let v := mk [1] 1 in
  regular E ∧ Inv v ∧
  (∀ n tr', n ≤ 2 * (Size v + length [4; 5; 6]) → allocates E n tr') ∧
  ∃ v' tr',
    PushBack_all E [4; 5; 6] v [] = Ret tt v' tr' ∧
    Inv v' ∧ elems v' = elems v ++ [4; 5; 6] ∧
    Size v' = Size v + length [4; 5; 6] ∧ Capacity v ≤ Capacity v'.
Proof.
  cbv zeta.
  assert (Inv (mk [1] 1)) as Hv by (apply Inv_mk; simpl; lia).
  assert (∀ n tr', n ≤ 2 * (Size (mk [1] 1) + length [4; 5; 6]) →
          allocates (IntElem true true) n tr') as Ha.
  { intros n tr' Hn. apply IntElem_allocates.
    unfold fits, size_t_range, Size in *. simpl in *. lia. }
  split; [apply IntElem_regular|]. split; [done|]. split; [exact Ha|].
  exact (PushBack_all_appends (IntElem true true) [4; 5; 6] (mk [1] 1) []
    (IntElem_regular true true) Hv Ha).
Defined.

Lemma PushBack_all_capacity_power_of_two_witness :
  let E := IntElem true true in
  let values := [1; 2; 3; 4; 5] in
  regular E ∧ values ≠ [] ∧
  (∀ n tr', n ≤ 2 * length values → allocates E n tr') ∧
  ∃ v' tr' k,
    PushBack_all E values Vector_default [] = Ret tt v' tr' ∧
    elems v' = values ∧
    Capacity v' = 2 ^ k ∧ length values ≤ 2 ^ k ∧ 2 ^ k < 2 * length values.
Proof.
  cbv zeta.
  assert ([1; 2; 3; 4; 5] ≠ []) as Hne by done.
  assert (∀ n tr', n ≤ 2 * length [1; 2; 3; 4; 5] →
          allocates (IntElem true true) n tr') as Ha.
  { intros n tr' Hn. apply IntElem_allocates.
    unfold fits, size_t_range in *. simpl in *. lia. }
  split; [apply IntElem_regular|]. split; [done|]. split; [exact Ha|].
  exact (PushBack_all_capacity_power_of_two (IntElem true true) [1; 2; 3; 4; 5] []
    (IntElem_regular true true) Hne Ha).
Defined.

Lemma PushBack_all_within_capacity_witness :
  let E := IntElem true true in
  let v := mk [1] 4 in
  (∀ x tr', construct_copy E x tr' = Some x) ∧ Inv v ∧
  Size v + length [2; 3] ≤ Capacity v ∧
  ∃ v',
    PushBack_all E [2; 3] v [] =
      Ret tt v' ([] ++ evs CopyCtor (Size v) (length [2; 3])) ∧
    Inv v' ∧ Capacity v' = Capacity v ∧ elems v' = elems v ++ [2; 3].
Proof.
  cbv zeta.
  assert (Inv (mk [1] 4)) as Hv by (apply Inv_mk; simpl; lia).
  assert (Size (mk [1] 4) + length [2; 3] ≤ Capacity (mk [1] 4)) as H1
    by (unfold Size, Capacity; simpl; lia).
  split; [done|]. split; [done|]. split; [done|].
  exact (PushBack_all_within_capacity (IntElem true true) [2; 3] (mk [1] 4) []
    (λ _ _, eq_refl) Hv H1).
Defined.
